(** * Webshotify: admission control, result cache and job/webhook pipeline

    A shallow embedding of [rate_limiter.py], [cache_service.py],
    [webhook_service.py] and of the cache-key construction of [app.py],
    with the properties of their specification stated and proved over it.

    Conventions of the embedding.
    - Every method takes the receiver's state as an argument and returns the
      new state next to its Python return value.  One call is one atomic
      step; a run of the service is a list of calls.
    - The clock is an argument: [time.time()] is a rational number of
      seconds, [datetime.now()] an integer number of microseconds.
    - A Python exception is the [Raise] branch of [pyres].
    - Library functions whose internals are not part of the repository
      (SHA-256, HMAC, [json.dumps], [Path.suffix]) are section variables. *)

From Stdlib Require Import ZArith QArith Qround Lqa Lia Sorted.
From stdpp Require Import gmap strings list pretty.

Local Open Scope Z_scope.

(** ** Python exceptions *)

Inductive exn : Type :=
| IndexError
| KeyError
| TypeError
| OSError
| JSONDecodeError
| OtherError (msg : string).

Inductive pyres (A : Type) : Type :=
| Ok (a : A)
| Raise (e : exn).
Arguments Ok {A} a.
Arguments Raise {A} e.

(** [try: body  except Exception: handler] *)
Definition try_except {A} (body : pyres A) (handler : exn -> pyres A) : pyres A :=
  match body with
  | Ok a => Ok a
  | Raise e => handler e
  end.

Definition bind {A B} (m : pyres A) (k : A -> pyres B) : pyres B :=
  match m with
  | Ok a => k a
  | Raise e => Raise e
  end.

(** Truthiness of the values the code tests with [if x:] / [not x]. *)
Definition truthy_str (s : string) : bool :=
  match s with EmptyString => false | _ => true end.

Definition truthy_opt (o : option string) : bool :=
  match o with None => false | Some s => truthy_str s end.

(** [int(x)] on a float: truncation toward zero.  Clock readings are exact
    rationals; at the magnitude of [time.time()] the subtractions the code
    makes on them are exact in double precision as well. *)
Definition py_int (x : Q) : Z := Z.quot (Qnum x) (Zpos (Qden x)).

(** [str(x)] inside an f-string, for the types the code formats. *)
Definition str_int (n : Z) : string := pretty n.
Definition str_bool (b : bool) : string := if b then "True" else "False".
Definition str_opt (o : option string) : string :=
  match o with None => "None" | Some s => s end.

(** ** rate_limiter.py *)

Module RateLimiter.

(** [ts < cutoff] on timestamps. *)
Definition Qltb (a b : Q) : bool := negb (Qle_bool b a).

(** [RateLimiter]: the two limits and, per API key, the two deques of
    request timestamps (oldest at the head). *)
Record t : Type := mk {
  requests_per_minute : Z;
  requests_per_hour : Z;
  minute_requests : gmap string (list Q);
  hour_requests : gmap string (list Q)
}.

(** [RateLimiter(requests_per_minute=10, requests_per_hour=60)] *)
Definition init (per_minute per_hour : Z) : t :=
  mk per_minute per_hour ∅ ∅.

Definition default_limiter : t := init 10 60.

(** The value of [d[api_key]] for a [defaultdict(deque)]. *)
Definition getitem (d : gmap string (list Q)) (api_key : string) : list Q :=
  default [] (d !! api_key).

(** [while dq and dq[0] < cutoff: dq.popleft()] *)
Fixpoint popleft_older (cutoff : Q) (dq : list Q) : list Q :=
  match dq with
  | [] => []
  | ts :: rest => if Qltb ts cutoff then popleft_older cutoff rest else dq
  end.

(** Reading [d[api_key]] creates the entry, so the pruned deque is stored
    under the key even when it is empty. *)
Definition _cleanup_old_requests (rl : t) (api_key : string) (current_time : Q) : t :=
  let minute_ago := (current_time - 60)%Q in
  let hour_ago := (current_time - 3600)%Q in
  mk (requests_per_minute rl) (requests_per_hour rl)
     (<[api_key := popleft_older minute_ago (getitem (minute_requests rl) api_key)]>
        (minute_requests rl))
     (<[api_key := popleft_older hour_ago (getitem (hour_requests rl) api_key)]>
        (hour_requests rl)).

Definition len (dq : list Q) : Z := Z.of_nat (length dq).

Definition check_rate_limit (rl : t) (api_key : string) (current_time : Q) : bool * t :=
  let rl := _cleanup_old_requests rl api_key current_time in
  let minute_count := len (getitem (minute_requests rl) api_key) in
  let hour_count := len (getitem (hour_requests rl) api_key) in
  if minute_count >=? requests_per_minute rl then (false, rl)
  else if hour_count >=? requests_per_hour rl then (false, rl)
  else
    (true,
     mk (requests_per_minute rl) (requests_per_hour rl)
        (<[api_key := getitem (minute_requests rl) api_key ++ [current_time]]>
           (minute_requests rl))
        (<[api_key := getitem (hour_requests rl) api_key ++ [current_time]]>
           (hour_requests rl))).

(** [dq[0]] *)
Definition front (dq : list Q) : pyres Q :=
  match dq with
  | [] => Raise IndexError
  | ts :: _ => Ok ts
  end.

Definition get_retry_after (rl : t) (api_key : string) (current_time : Q) : pyres Z * t :=
  let rl := _cleanup_old_requests rl api_key current_time in
  if len (getitem (minute_requests rl) api_key) >=? requests_per_minute rl then
    (bind (front (getitem (minute_requests rl) api_key)) (fun oldest_minute =>
       Ok (py_int (60 - (current_time - oldest_minute))%Q + 1)), rl)
  else if len (getitem (hour_requests rl) api_key) >=? requests_per_hour rl then
    (bind (front (getitem (hour_requests rl) api_key)) (fun oldest_hour =>
       Ok (py_int (3600 - (current_time - oldest_hour))%Q + 1)), rl)
  else (Ok 0, rl).

Definition get_remaining_requests (rl : t) (api_key : string) (current_time : Q)
  : (Z * Z) * t :=
  let rl := _cleanup_old_requests rl api_key current_time in
  ((Z.max 0 (requests_per_minute rl - len (getitem (minute_requests rl) api_key)),
    Z.max 0 (requests_per_hour rl - len (getitem (hour_requests rl) api_key))),
   rl).

(** The calls the request handlers make on the limiter, and a run of them:
    each event carries the clock reading of its call. *)
Inductive call : Type :=
| CheckRateLimit (api_key : string)
| GetRetryAfter (api_key : string)
| GetRemainingRequests (api_key : string).

Definition step (rl : t) (ev : Q * call) : t :=
  match ev with
  | (now, CheckRateLimit k) => snd (check_rate_limit rl k now)
  | (now, GetRetryAfter k) => snd (get_retry_after rl k now)
  | (now, GetRemainingRequests k) => snd (get_remaining_requests rl k now)
  end.

Definition run (rl : t) (evs : list (Q * call)) : t := fold_left step evs rl.

(** Clock readings of the calls of [evs] at which [check_rate_limit api_key]
    returned [True]. *)
Fixpoint admitted_times (rl : t) (evs : list (Q * call)) (api_key : string) : list Q :=
  match evs with
  | [] => []
  | ev :: evs' =>
      (match ev with
       | (now, CheckRateLimit k) =>
           if decide (k = api_key)
           then (if fst (check_rate_limit rl k now) then [now] else [])
           else []
       | _ => []
       end) ++ admitted_times (step rl ev) evs' api_key
  end.

(** A run whose clock readings never decrease, from the reading [t0] on. *)
Fixpoint chronological (t0 : Q) (evs : list (Q * call)) : Prop :=
  match evs with
  | [] => True
  | ev :: evs' => (t0 <= fst ev)%Q /\ chronological (fst ev) evs'
  end.

(** The clock reading at the end of a run that started at [t0]. *)
Definition last_reading (t0 : Q) (evs : list (Q * call)) : Q :=
  fold_left (fun _ ev => fst ev) evs t0.

(** Every deque of the limiter is in chronological order and holds no
    reading later than [t]. *)
Definition in_order (rl : t) (t : Q) : Prop :=
  forall k,
    (StronglySorted Qle (getitem (minute_requests rl) k) /\
     Forall (fun ts => (ts <= t)%Q) (getitem (minute_requests rl) k)) /\
    (StronglySorted Qle (getitem (hour_requests rl) k) /\
     Forall (fun ts => (ts <= t)%Q) (getitem (hour_requests rl) k)).

(** The timestamps of [l] that are not older than [cutoff]. *)
Definition not_older (cutoff : Q) (l : list Q) : list Q :=
  List.filter (fun ts => negb (Qltb ts cutoff)) l.

(** Ten checks of one key, one second apart, with a check of another key in
    between: the run used to exercise the limiter at its default limits. *)
Definition ten_checks : list (Q * call) :=
  [ (0%Q, CheckRateLimit "alice"); (1%Q, CheckRateLimit "alice");
    (2%Q, CheckRateLimit "alice"); (3%Q, CheckRateLimit "alice");
    (3%Q, CheckRateLimit "bob");   (4%Q, CheckRateLimit "alice");
    (5%Q, CheckRateLimit "alice"); (6%Q, CheckRateLimit "alice");
    (7%Q, GetRemainingRequests "alice"); (7%Q, CheckRateLimit "alice");
    (8%Q, CheckRateLimit "alice"); (9%Q, CheckRateLimit "alice") ].

(** A limiter with limits 1 per minute and 2 per hour after two admitted
    checks at 0 s and 100 s: at 100.5 s both deques are at their limit. *)
Definition both_full : t :=
  run (init 1 2) [ (0%Q, CheckRateLimit "alice"); (100%Q, CheckRateLimit "alice") ].

(** The same two checks under limits 1 per minute and 5 per hour: only the
    minute deque is at its limit. *)
Definition minute_full : t :=
  run (init 1 5) [ (0%Q, CheckRateLimit "alice"); (100%Q, CheckRateLimit "alice") ].

(** The same two checks under limits 5 per minute and 2 per hour: 200 s
    after the first one only the hour deque is at its limit. *)
Definition hour_full : t :=
  run (init 5 2) [ (0%Q, CheckRateLimit "alice"); (100%Q, CheckRateLimit "alice") ].

(** [reset_limits]: [del] of the key in both tables when it is there. *)
Definition reset_limits (rl : t) (api_key : string) : t :=
  mk (requests_per_minute rl) (requests_per_hour rl)
     (delete api_key (minute_requests rl))
     (delete api_key (hour_requests rl)).

(** The API key a call is made for. *)
Definition key_of (c : call) : string :=
  match c with
  | CheckRateLimit k => k
  | GetRetryAfter k => k
  | GetRemainingRequests k => k
  end.

(** No deque holds more timestamps than its limit allows. *)
Definition within_limits (rl : t) : Prop :=
  forall k,
    len (getitem (minute_requests rl) k) <= Z.max 0 (requests_per_minute rl) /\
    len (getitem (hour_requests rl) k) <= Z.max 0 (requests_per_hour rl).

(** Checks of another key only. *)
Definition bob_checks : list (Q * call) :=
  [ (10%Q, CheckRateLimit "bob"); (11%Q, GetRetryAfter "bob");
    (12%Q, CheckRateLimit "bob"); (13%Q, GetRemainingRequests "carol") ].

End RateLimiter.

(** ** JSON values and files on disk *)

(** What [json.load] can return. *)
Local Unset Elimination Schemes.
Inductive json : Type :=
| JNull
| JBool (b : bool)
| JInt (n : Z)
| JFloat (x : Q)
| JStr (s : string)
| JList (items : list json)
| JDict (items : list (string * json)).
Local Set Elimination Schemes.

Definition is_dict (v : json) : bool :=
  match v with JDict _ => true | _ => false end.

(** A file as the loaders meet it: absent; present but [open] or [read]
    fails; readable but not JSON; or readable text that [json.load] decodes
    to [v] (the text [[]] is [Parses (JList [])], the text [{}] is
    [Parses (JDict [])]). *)
Inductive file_state : Type :=
| Missing
| Unreadable
| Unparsable
| Parses (v : json).

(** [path.exists()] *)
Definition path_exists (f : file_state) : bool :=
  match f with Missing => false | _ => true end.

(** [with open(path, 'r') as f: json.load(f)] *)
Definition open_json_load (f : file_state) : pyres json :=
  match f with
  | Missing => Raise OSError
  | Unreadable => Raise OSError
  | Unparsable => Raise JSONDecodeError
  | Parses v => Ok v
  end.

(** ** cache_service.py and the cache key of app.py *)

Module CacheService.

(** The request parameters that enter the cache key, typed as the GET branch
    of [screenshot()] produces them: [int(...)] for the numbers, a
    comparison for the flags, [request.args.get] (a string or [None]) for
    the optional ones.  The POST branch hands on the values of the JSON body
    as they come, of any type; it is not covered by this record. *)
Record params : Type := mk_params {
  url : string;
  width : Z;
  height : Z;
  fullpage : bool;
  image_format : string;
  quality : Z;
  delay : Z;
  selector : option string;
  device : option string;
  user_agent : option string;
  dark_mode : bool;
  wait_for_selector : option string;
  block_ads : bool;
  scroll_page : bool;
  media_type : option string;
  timezone : option string
}.

(** [f"{url}|{width}|{height}|{fullpage}|{image_format}|{quality}|{delay}"] *)
Definition key_string (url : string) (width height : Z) (fullpage : bool)
    (image_format : string) (quality delay : Z) : string :=
  url +:+ "|" +:+ str_int width +:+ "|" +:+ str_int height +:+ "|" +:+
  str_bool fullpage +:+ "|" +:+ image_format +:+ "|" +:+ str_int quality +:+
  "|" +:+ str_int delay.

(** The string built at app.py:255. *)
Definition cache_params (p : params) : string :=
  str_opt (selector p) +:+ "|" +:+ str_opt (device p) +:+ "|" +:+
  str_opt (user_agent p) +:+ "|" +:+ str_bool (dark_mode p) +:+ "|" +:+
  str_opt (wait_for_selector p) +:+ "|" +:+ str_bool (block_ads p) +:+ "|" +:+
  str_bool (scroll_page p) +:+ "|" +:+ str_opt (media_type p) +:+ "|" +:+
  str_opt (timezone p).

Section Fingerprint.
(** [hashlib.sha256(s.encode()).hexdigest()] *)
Variable sha256_hexdigest : string -> string.

Definition generate_cache_key (url : string) (width height : Z) (fullpage : bool)
    (image_format : string) (quality delay : Z) : string :=
  sha256_hexdigest (key_string url width height fullpage image_format quality delay).

(** The string hashed at app.py:259. *)
Definition extended_key_string (p : params) : string :=
  generate_cache_key (url p) (width p) (height p) (fullpage p)
                     (image_format p) (quality p) (delay p)
  +:+ "|" +:+ cache_params p.

(** The cache key [screenshot()] looks up and stores under. *)
Definition screenshot_cache_key (p : params) : string :=
  sha256_hexdigest (extended_key_string p).
End Fingerprint.

(** The string [generate_cache_key] hashes for a request. *)
Definition primary_key_string (p : params) : string :=
  key_string (url p) (width p) (height p) (fullpage p)
             (image_format p) (quality p) (delay p).

(** Two GET requests for one page: the first sends no [user_agent], the
    second sends [user_agent=None]. *)
Definition request_plain : params :=
  mk_params "https://example.com" 1920 1080 false "png" 80 0
            None None None false None false false None None.

Definition request_ua_none : params :=
  mk_params "https://example.com" 1920 1080 false "png" 80 0
            None None (Some "None") false None false false None None.

(** An index entry: [{'file_path', 'timestamp', 'original_path'}]. *)
Record CacheEntry : Type := mk_entry {
  file_path : string;
  timestamp : Z;
  original_path : string
}.

(** The service and the part of the file system it touches: [files] is the
    set of paths at which a file exists.  Paths are kept in the normal form
    [str(Path(s))] gives them. *)
Record t : Type := mk {
  cache_duration_hours : Z;
  cache_index : gmap string CacheEntry;
  files : gset string
}.

(** [timedelta(hours=h)] in microseconds. *)
Definition timedelta_hours (h : Z) : Z := h * 3600 * 1000000.

(** [_load_cache_index]: the value that becomes [self.cache_index]. *)
Definition _load_cache_index (cache_index_file : file_state) : pyres json :=
  if negb (path_exists cache_index_file) then Ok (JDict [])
  else try_except (open_json_load cache_index_file) (fun _ => Ok (JDict [])).

(** [del self.cache_index[cache_key]] together with the files left after
    the [unlink], if any, which removes a file that exists;
    [_save_cache_index] swallows its own errors and changes nothing the
    service reads back while it runs. *)
Definition evict (st : t) (cache_key : string) (files' : gset string) : t :=
  mk (cache_duration_hours st) (delete cache_key (cache_index st)) files'.

Definition get_cached_screenshot (st : t) (cache_key : string) (now : Z)
  : option string * t :=
  match cache_index st !! cache_key with
  | None => (None, st)
  | Some cache_entry =>
      let cached_file := file_path cache_entry in
      if negb (bool_decide (cached_file ∈ files st)) then
        (None, evict st cache_key (files st))
      else
        let cached_time := timestamp cache_entry in
        let expiry_time := cached_time + timedelta_hours (cache_duration_hours st) in
        if now >? expiry_time then
          (None, evict st cache_key (files st ∖ {[cached_file]}))
        else (Some cached_file, st)
  end.

(** [shutil.copy2(src, dst)]: fails when the source is missing or when it is
    the destination itself. *)
Definition copy2 (fs : gset string) (src dst : string) : pyres (gset string) :=
  if negb (bool_decide (src ∈ fs)) then Raise OSError
  else if bool_decide (src = dst) then Raise OSError
  else Ok (fs ∪ {[dst]}).

Section Store.
(** [Path(p).suffix] *)
Variable path_suffix : string -> string.

(** [self.cache_dir / f"{cache_key}{extension}"], for a key that is not an
    absolute path (the keys the service is given are hex digests). *)
Definition cached_filepath (cache_key screenshot_path : string) : string :=
  "cache/" +:+ cache_key +:+ path_suffix screenshot_path.

Definition cache_screenshot (st : t) (cache_key screenshot_path : string) (now : Z)
  : string * t :=
  let source_path := screenshot_path in
  let dst := cached_filepath cache_key screenshot_path in
  match copy2 (files st) source_path dst with
  | Ok files' =>
      (dst,
       mk (cache_duration_hours st)
          (<[cache_key := mk_entry dst now source_path]> (cache_index st))
          files')
  | Raise _ => (source_path, st)
  end.
End Store.

(** A fresh service with the default 24 hours and one captured file. *)
Definition fresh : t := mk 24 ∅ {[ "screenshots/shot_1.png" ]}.

(** A service whose index names a cached file that is no longer there. *)
Definition file_lost : t :=
  mk 24 {[ "abc" := mk_entry "cache/abc.png" 0 "screenshots/shot_1.png" ]} ∅.

(** [datetime.now() > cached_time + timedelta(hours=...)] *)
Definition is_expired (st : t) (cache_entry : CacheEntry) (now : Z) : bool :=
  now >? timestamp cache_entry + timedelta_hours (cache_duration_hours st).

(** [try: Path(p).unlink()  except Exception: pass] *)
Definition unlink (fs : gset string) (p : string) : gset string := fs ∖ {[p]}.

(** [cleanup_expired_cache]: the expired items are collected and their
    files unlinked, then their keys are deleted; the count is returned. *)
Definition cleanup_expired_cache (st : t) (now : Z) : nat * t :=
  let expired :=
    filter (fun item => is_expired st (snd item) now = true)
           (map_to_list (cache_index st)) in
  let files' := fold_left (fun fs item => unlink fs (file_path (snd item)))
                          expired (files st) in
  let index' := fold_left (fun index item => delete (fst item) index)
                          expired (cache_index st) in
  (length expired, mk (cache_duration_hours st) index' files').

(** [clear_all_cache] *)
Definition clear_all_cache (st : t) : t :=
  mk (cache_duration_hours st) ∅
     (fold_left (fun fs item => unlink fs (file_path (snd item)))
                (map_to_list (cache_index st)) (files st)).

(** A service with one entry stored at time 0 and one stored 23 hours
    later, both files in place. *)
Definition two_entries : t :=
  mk 24
     (<[ "old" := mk_entry "cache/old.png" 0 "screenshots/a.png" ]>
        {[ "new" := mk_entry "cache/new.png" (timedelta_hours 23) "screenshots/b.png" ]})
     {[ "cache/old.png"; "cache/new.png" ]}.

End CacheService.

(** ** webhook_service.py *)

Module WebhookService.

(** A job dictionary.  [webhook_delivered] and [webhook_failed] stand for
    keys that are absent until set to [True]; [result] and [error] are
    [None] until set. *)
Record Job : Type := mk_job {
  job_id : string;
  job_type : string;
  status : string;
  params : list (string * string);
  webhook_url : option string;
  webhook_secret : option string;
  created_at : Z;
  updated_at : Z;
  result : option string;
  error : option string;
  attempts : Z;
  webhook_delivered : bool;
  webhook_delivered_at : option Z;
  webhook_failed : bool
}.

(** The payload dictionary of [trigger_webhook]. *)
Record Payload : Type := mk_payload {
  p_job_id : string;
  p_job_type : string;
  p_status : string;
  p_created_at : Z;
  p_completed_at : Z;
  p_result : option string;
  p_error : option string
}.

(** A started delivery thread: the arguments of its [_send_webhook]. *)
Record Delivery : Type := mk_delivery {
  d_url : string;
  d_payload : Payload;
  d_secret : option string;
  d_job_id : string
}.

(** [load_jobs]: the value of [self.jobs] after the call, from its value
    before ([{}] at construction) and the state of [webhooks/jobs.json]. *)
Definition load_jobs (jobs : json) (job_file : file_state) : pyres json :=
  if path_exists job_file then
    try_except (open_json_load job_file) (fun _ => Ok (JDict []))
  else Ok jobs.

(** [uuid4] is the fresh id drawn by [uuid.uuid4()]; [now1] and [now2] are
    the two readings of [datetime.now()]. *)
Definition create_job (jobs : gmap string Job) (job_type : string)
    (params : list (string * string)) (webhook_url webhook_secret : option string)
    (uuid4 : string) (now1 now2 : Z) : string * gmap string Job :=
  let job_id := uuid4 in
  let job := mk_job job_id job_type "pending" params webhook_url webhook_secret
                    now1 now2 None None 0 false None false in
  (job_id, <[job_id := job]> jobs).

Definition set_status (job : Job) (status : string) (now : Z) : Job :=
  mk_job (job_id job) (job_type job) status (params job) (webhook_url job)
         (webhook_secret job) (created_at job) now (result job) (error job)
         (attempts job) (webhook_delivered job) (webhook_delivered_at job)
         (webhook_failed job).

Definition set_result (job : Job) (r : option string) : Job :=
  mk_job (job_id job) (job_type job) (status job) (params job) (webhook_url job)
         (webhook_secret job) (created_at job) (updated_at job) r (error job)
         (attempts job) (webhook_delivered job) (webhook_delivered_at job)
         (webhook_failed job).

Definition set_error (job : Job) (e : option string) : Job :=
  mk_job (job_id job) (job_type job) (status job) (params job) (webhook_url job)
         (webhook_secret job) (created_at job) (updated_at job) (result job) e
         (attempts job) (webhook_delivered job) (webhook_delivered_at job)
         (webhook_failed job).

Definition set_delivered (job : Job) (now : Z) : Job :=
  mk_job (job_id job) (job_type job) (status job) (params job) (webhook_url job)
         (webhook_secret job) (created_at job) (updated_at job) (result job)
         (error job) (attempts job) true (Some now) (webhook_failed job).

Definition set_failed (job : Job) (max_retries : Z) : Job :=
  mk_job (job_id job) (job_type job) (status job) (params job) (webhook_url job)
         (webhook_secret job) (created_at job) (updated_at job) (result job)
         (error job) max_retries (webhook_delivered job) (webhook_delivered_at job)
         true.

(** [status in ['completed', 'failed']] *)
Definition is_terminal (status : string) : bool :=
  bool_decide (status = "completed") || bool_decide (status = "failed").

(** [trigger_webhook]: the delivery threads it starts (none or one). *)
Definition trigger_webhook (jobs : gmap string Job) (job_id : string) : list Delivery :=
  match jobs !! job_id with
  | None => []
  | Some job =>
      match webhook_url job with
      | None => []
      | Some webhook_url =>
          if negb (truthy_str webhook_url) then []
          else
            let payload := mk_payload job_id (job_type job) (status job)
                             (created_at job) (updated_at job)
                             (result job) (error job) in
            [mk_delivery webhook_url payload (webhook_secret job) job_id]
      end
  end.

(** [update_job_status]: the return value, the job table after the call and
    the delivery threads the call started. *)
Definition update_job_status (jobs : gmap string Job) (job_id status : string)
    (result error : option string) (now : Z)
  : bool * gmap string Job * list Delivery :=
  match jobs !! job_id with
  | None => (false, jobs, [])
  | Some job =>
      let job := set_status job status now in
      let job := if truthy_opt result then set_result job result else job in
      let job := if truthy_opt error then set_error job error else job in
      let jobs := <[job_id := job]> jobs in
      if is_terminal status then (true, jobs, trigger_webhook jobs job_id)
      else (true, jobs, [])
  end.

(** [get_job_status(job_id)['status']] *)
Definition get_status (jobs : gmap string Job) (job_id : string) : option string :=
  status <$> jobs !! job_id.

(** [str(e)] *)
Definition str_exn (e : exn) : string :=
  match e with
  | IndexError => "IndexError"
  | KeyError => "KeyError"
  | TypeError => "TypeError"
  | OSError => "OSError"
  | JSONDecodeError => "JSONDecodeError"
  | OtherError msg => msg
  end.

(** The calls on the job table, each with its clock reading. *)
Inductive call : Type :=
| UpdateJobStatus (job_id status : string) (result error : option string).

Definition target (c : call) : string :=
  match c with UpdateJobStatus job_id _ _ _ => job_id end.

Definition new_status (c : call) : string :=
  match c with UpdateJobStatus _ status _ _ => status end.

(** The body of [worker] in [process_job_async]: the two updates it makes,
    from what [job_function] did ([Ok result] when it returned, [Raise e]
    when it raised). *)
Definition worker (job_id : string) (outcome : pyres string) : list call :=
  [ UpdateJobStatus job_id "processing" None None;
    match outcome with
    | Ok result => UpdateJobStatus job_id "completed" (Some result) None
    | Raise e => UpdateJobStatus job_id "failed" None (Some (str_exn e))
    end ].

Definition step (jobs : gmap string Job) (ev : Z * call)
  : gmap string Job * list Delivery :=
  match ev with
  | (now, UpdateJobStatus job_id status result error) =>
      let '(_, jobs', started) := update_job_status jobs job_id status result error now in
      (jobs', started)
  end.

(** The job table and the deliveries started after each call of a run. *)
Fixpoint run (jobs : gmap string Job) (evs : list (Z * call))
  : list (gmap string Job * list Delivery) :=
  match evs with
  | [] => []
  | ev :: evs' => step jobs ev :: run (fst (step jobs ev)) evs'
  end.

(** The job table at the end of a run. *)
Definition final (jobs : gmap string Job) (evs : list (Z * call)) : gmap string Job :=
  fold_left (fun jobs ev => fst (step jobs ev)) evs jobs.

(** The updates of the run that address [job_id], in order. *)
Definition updates_of (evs : list (Z * call)) (job_id : string) : list call :=
  map snd (List.filter (fun ev => bool_decide (target (snd ev) = job_id)) evs).

(** What polling [job_id] after each call of the run reads. *)
Definition status_log (jobs : gmap string Job) (evs : list (Z * call)) (job_id : string)
  : list (option string) :=
  map (fun s => get_status (fst s) job_id) (run jobs evs).

(** The delivery threads started for [job_id] during the run. *)
Definition webhooks_started (jobs : gmap string Job) (evs : list (Z * call))
    (job_id : string) : list Delivery :=
  List.filter (fun d => bool_decide (d_job_id d = job_id))
              (concat (map snd (run jobs evs))).

(** The updates of the run that set [job_id] to a terminal status. *)
Definition terminal_updates (evs : list (Z * call)) (job_id : string) : list (Z * call) :=
  List.filter (fun ev => bool_decide (target (snd ev) = job_id)
                         && is_terminal (new_status (snd ev))) evs.

(** [hmac.compare_digest] on two [str]: both must be ASCII. *)
Definition is_ascii (s : string) : bool :=
  forallb (fun c => (Ascii.nat_of_ascii c <? 128)%nat) (String.list_ascii_of_string s).

(** The pass [hmac.compare_digest] makes over its arguments (CPython's
    [_tscmp]): every character of [rgt] is read with the one beside it in
    [lft] and the differences are or-ed into [result]; there is no exit on
    a mismatch.  [reads] counts the pairs read. *)
Fixpoint tscmp_loop (lft rgt : list Ascii.ascii) (result : bool) (reads : nat)
  : bool * nat :=
  match lft, rgt with
  | l :: lft', r :: rgt' =>
      tscmp_loop lft' rgt' (result || negb (Ascii.eqb l r)) (S reads)
  | _, _ => (result, reads)
  end.

(** The loop runs over the second argument: when the lengths differ it
    compares the second argument with itself, with [result] already set. *)
Definition tscmp (a b : string) : bool * nat :=
  let a := String.list_ascii_of_string a in
  let b := String.list_ascii_of_string b in
  let '(lft, result) := if (length a =? length b)%nat then (a, false) else (b, true) in
  let '(result, reads) := tscmp_loop lft b result 0 in
  (negb result, reads).

(** The answer of [hmac.compare_digest(a, b)] and the number of character
    pairs it read to give it. *)
Definition compare_digest_timed (a b : string) : pyres (bool * nat) :=
  if is_ascii a && is_ascii b then Ok (tscmp a b) else Raise TypeError.

Definition compare_digest (a b : string) : pyres bool :=
  bind (compare_digest_timed a b) (fun r => Ok (fst r)).

(** What one [requests.post] did. *)
Inductive http_outcome : Type :=
| Response (status_code : Z)
| RequestException.

(** What a delivery thread does to the outside. *)
Inductive io (D : Type) : Type :=
| Post (url : string) (payload : D) (headers : list (string * string))
| Sleep (seconds : Z).
Arguments Post {D} url payload headers.
Arguments Sleep {D} seconds.

Inductive loop_exit : Type :=
| Returned (jobs : gmap string Job)
| Exhausted.

Section Dispatcher.
(** The payload dictionary and [json.dumps(payload, sort_keys=True)]. *)
Context {D : Type}.
Variable json_dumps_sorted : D -> string.
(** [hmac.new(key.encode(), msg.encode(), hashlib.sha256).hexdigest()] *)
Variable hmac_sha256_hexdigest : string -> string -> string.

Definition _generate_signature (payload : D) (secret : string) : string :=
  let payload_str := json_dumps_sorted payload in
  hmac_sha256_hexdigest secret payload_str.

Definition verify_webhook_signature (payload : D) (signature secret : string)
  : pyres bool :=
  let expected_signature := _generate_signature payload secret in
  compare_digest signature expected_signature.

(** The outcome of the [attempt]-th [requests.post] of this delivery. *)
Variable post : nat -> http_outcome.

Definition headers_of (payload : D) (secret : option string) (job_id : string)
    (time_now : Q) : list (string * string) :=
  [ ("Content-Type", "application/json");
    ("X-Webhook-Job-ID", job_id);
    ("X-Webhook-Timestamp", str_int (py_int time_now)) ]
  ++ match secret with
     | Some s => if truthy_str s
                 then [("X-Webhook-Signature", _generate_signature payload s)]
                 else []
     | None => []
     end.

(** [if attempt < max_retries - 1: time.sleep(2 ** attempt)] *)
Definition backoff (attempt : nat) (max_retries : Z) : list (io D) :=
  if Z.of_nat attempt <? max_retries - 1 then [Sleep (2 ^ Z.of_nat attempt)] else [].

(** The [for attempt in range(max_retries)] loop over the attempts left.
    A response with status 200 marks the job and returns; the [KeyError]
    of marking a job that is gone is caught like a failed request. *)
Fixpoint send_loop (jobs : gmap string Job) (url : string) (payload : D)
    (headers : list (string * string)) (job_id : string) (max_retries : Z)
    (now : Z) (attempts_left : list nat) : list (io D) * loop_exit :=
  match attempts_left with
  | [] => ([], Exhausted)
  | attempt :: rest =>
      let continue := send_loop jobs url payload headers job_id max_retries now rest in
      match post attempt with
      | Response status_code =>
          if status_code =? 200 then
            match jobs !! job_id with
            | Some job =>
                ([Post url payload headers],
                 Returned (<[job_id := set_delivered job now]> jobs))
            | None =>
                (Post url payload headers :: backoff attempt max_retries ++ fst continue,
                 snd continue)
            end
          else (Post url payload headers :: fst continue, snd continue)
      | RequestException =>
          (Post url payload headers :: backoff attempt max_retries ++ fst continue,
           snd continue)
      end
  end.

Definition _send_webhook (jobs : gmap string Job) (url : string) (payload : D)
    (secret : option string) (job_id : string) (max_retries : Z)
    (time_now : Q) (now : Z) : list (io D) * pyres (gmap string Job) :=
  let headers := headers_of payload secret job_id time_now in
  let '(trace, exit) :=
    send_loop jobs url payload headers job_id max_retries now
              (seq 0 (Z.to_nat max_retries)) in
  match exit with
  | Returned jobs' => (trace, Ok jobs')
  | Exhausted =>
      match jobs !! job_id with
      | Some job => (trace, Ok (<[job_id := set_failed job max_retries]> jobs))
      | None => (trace, Raise KeyError)
      end
  end.
End Dispatcher.

(** [max_retries=3] *)
Definition default_max_retries : Z := 3.

Definition posts {D} (trace : list (io D)) : list (io D) :=
  List.filter (fun e => match e with Post _ _ _ => true | Sleep _ => false end) trace.

Definition sleeps {D} (trace : list (io D)) : list Z :=
  omap (fun e => match e with Sleep s => Some s | Post _ _ _ => None end) trace.

(** A stand-in for the keyed digest, with the shape of a hex digest: the
    bytes of [key|msg] written in hexadecimal. *)
Definition hex_digit (n : nat) : Ascii.ascii :=
  nth n (String.list_ascii_of_string "0123456789abcdef") (Ascii.ascii_of_nat 48).

Fixpoint hexlify (s : string) : string :=
  match s with
  | EmptyString => EmptyString
  | String c s' =>
      String (hex_digit (Ascii.nat_of_ascii c / 16))
             (String (hex_digit (Ascii.nat_of_ascii c mod 16)) (hexlify s'))
  end.

Definition hex_keyed (key msg : string) : string := hexlify (key +:+ "|" +:+ msg).

(** A stand-in serializer of the dispatcher's payload. *)
Definition payload_repr (p : Payload) : string :=
  p_job_id p +:+ "," +:+ p_job_type p +:+ "," +:+ p_status p +:+ "," +:+
  str_int (p_created_at p) +:+ "," +:+ str_int (p_completed_at p) +:+ "," +:+
  str_opt (p_result p) +:+ "," +:+ str_opt (p_error p).

(** One job with a webhook target, as [create_job] leaves it. *)
Definition one_job : gmap string Job :=
  snd (create_job ∅ "screenshot" [("url", "https://example.com")]
                  (Some "https://hooks.example.com/cb") (Some "s3cret")
                  "job-1" 1000 1001).

(** The worker of ["job-1"] whose capture returns ["shot.png"], with an
    update of an unknown job in between. *)
Definition one_worker_run : list (Z * call) :=
  [ (2000, UpdateJobStatus "job-1" "processing" None None);
    (2500, UpdateJobStatus "job-2" "processing" None None);
    (3000, UpdateJobStatus "job-1" "completed" (Some "shot.png") None) ].

(** A run that reports the completion of ["job-1"] twice and then sets it
    back to pending. *)
Definition repeated_run : list (Z * call) :=
  [ (2000, UpdateJobStatus "job-1" "processing" None None);
    (3000, UpdateJobStatus "job-1" "completed" (Some "shot.png") None);
    (3001, UpdateJobStatus "job-1" "completed" (Some "shot.png") None);
    (3002, UpdateJobStatus "job-1" "pending" None None) ].

(** Three webhook targets: one that is down for the first request and
    answers 200 to the second, one that answers 204 No Content to every
    request, one that is always down. *)
Definition second_try (attempt : nat) : http_outcome :=
  match attempt with
  | 1%nat => Response 200
  | _ => RequestException
  end.

Definition always_204 (attempt : nat) : http_outcome := Response 204.

Definition always_down (attempt : nat) : http_outcome := RequestException.

Definition one_payload : Payload :=
  mk_payload "job-1" "screenshot" "completed" 1000 2000 (Some "shot.png") None.

(** [get_job] *)
Definition get_job (jobs : gmap string Job) (job_id : string) : option Job :=
  jobs !! job_id.

(** The dictionary [get_job_status] returns. *)
Record JobView : Type := mk_view {
  v_job_id : string;
  v_status : string;
  v_job_type : string;
  v_created_at : Z;
  v_updated_at : Z;
  v_result : option string;
  v_error : option string;
  v_webhook_delivered : bool
}.

Definition get_job_status (jobs : gmap string Job) (job_id : string) : option JobView :=
  match get_job jobs job_id with
  | None => None
  | Some job =>
      Some (mk_view job_id (status job) (job_type job) (created_at job)
                    (updated_at job) (result job) (error job)
                    (webhook_delivered job))
  end.

(** [job['status'] in ['completed', 'failed']] and
    [updated_at < datetime.now() - timedelta(hours=max_age_hours)] *)
Definition is_old (max_age_hours now : Z) (job : Job) : bool :=
  is_terminal (status job)
  && (updated_at job <? now - max_age_hours * 3600 * 1000000).

(** [cleanup_old_jobs(max_age_hours=48)] *)
Definition cleanup_old_jobs (jobs : gmap string Job) (max_age_hours now : Z)
  : nat * gmap string Job :=
  let jobs_to_remove :=
    filter (fun item => is_old max_age_hours now (snd item) = true)
           (map_to_list jobs) in
  (length jobs_to_remove,
   fold_left (fun jobs item => delete (fst item) jobs) jobs_to_remove jobs).

(** The job an update leaves under the id it addresses. *)
Definition updated (job : Job) (status : string) (result error : option string)
    (now : Z) : Job :=
  let job := set_status job status now in
  let job := if truthy_opt result then set_result job result else job in
  if truthy_opt error then set_error job error else job.

(** [sum(...)] of the sleeps of a delivery. *)
Definition total (seconds : list Z) : Z := foldr Z.add 0 seconds.

(** A job created without a webhook target. *)
Definition quiet_job : gmap string Job :=
  snd (create_job ∅ "screenshot" [("url", "https://example.com")]
                  None None "job-9" 1000 1001).

(** The worker of ["job-9"] whose capture raises. *)
Definition failing_worker_run : list (Z * call) :=
  [ (2000, UpdateJobStatus "job-9" "processing" None None);
    (3000, UpdateJobStatus "job-9" "failed" None (Some "Timeout 30000ms exceeded")) ].

(** A target that answers 200 to every request. *)
Definition always_ok (attempt : nat) : http_outcome := Response 200.

(** A target that answers 500, is down, answers 503. *)
Definition flaky (attempt : nat) : http_outcome :=
  match attempt with
  | 0%nat => Response 500
  | 1%nat => RequestException
  | _ => Response 503
  end.

End WebhookService.

(** ** auth_service.py *)

Module AuthService.

(** The metadata stored under a key, as far as the service reads it.
    [name], [created], [active] and [migrated_from] may be missing from a
    loaded file; [hashed] is read with [get('hashed', False)] everywhere, so
    a missing flag is [false]. *)
Record KeyInfo : Type := mk_info {
  name : option string;
  created : option string;
  active : option bool;
  hashed : bool;
  migrated_from : option string
}.

(** [self.api_keys]: a dictionary in insertion order, as the list of its
    items; its keys are pairwise distinct. *)
Definition api_keys : Type := list (string * KeyInfo).

(** [self.api_keys[key]] when [key in self.api_keys] *)
Fixpoint getitem (keys : api_keys) (key : string) : option KeyInfo :=
  match keys with
  | [] => None
  | (k, info) :: rest => if decide (k = key) then Some info else getitem rest key
  end.

(** [key_info.get('active', False)] *)
Definition is_active (key_info : KeyInfo) : bool := default false (active key_info).

(** [self.api_keys[key]['active'] = False] *)
Fixpoint set_inactive (keys : api_keys) (key : string) : api_keys :=
  match keys with
  | [] => []
  | (k, info) :: rest =>
      if decide (k = key)
      then (k, mk_info (name info) (created info) (Some false) (hashed info)
                       (migrated_from info)) :: rest
      else (k, info) :: set_inactive rest key
  end.

Section Bcrypt.
(** [bcrypt.checkpw(plaintext.encode('utf-8'), hashed.encode('utf-8'))],
    which raises on a string that is not a bcrypt hash. *)
Variable checkpw : string -> string -> pyres bool.

Definition verify_api_key (plaintext_key hashed_key : string) : bool :=
  match checkpw plaintext_key hashed_key with
  | Ok b => b
  | Raise _ => false
  end.

(** The first item of [for stored_hash, key_info in self.api_keys.items()]
    that is hashed and verifies the key: where both loops return. *)
Fixpoint first_verified (items : api_keys) (api_key : string)
  : option (string * KeyInfo) :=
  match items with
  | [] => None
  | (stored_hash, key_info) :: rest =>
      if hashed key_info && verify_api_key api_key stored_hash
      then Some (stored_hash, key_info)
      else first_verified rest api_key
  end.

Definition validate_api_key (keys : api_keys) (api_key : string) : bool :=
  match getitem keys api_key with
  | Some key_info => is_active key_info
  | None =>
      match first_verified keys api_key with
      | Some (_, key_info) => is_active key_info
      | None => false
      end
  end.

(** [validate_key]: the alias. *)
Definition validate_key (keys : api_keys) (api_key : string) : bool :=
  validate_api_key keys api_key.

Definition deactivate_api_key (keys : api_keys) (api_key : string) : bool * api_keys :=
  match getitem keys api_key with
  | Some _ => (true, set_inactive keys api_key)
  | None =>
      match first_verified keys api_key with
      | Some (stored_hash, _) => (true, set_inactive keys stored_hash)
      | None => (false, keys)
      end
  end.
End Bcrypt.

Section Generate.
(** What [hash_api_key] returns in this call (the salt is drawn there), and
    the pair [generate_api_key()] returns in it. *)
Variable hash_api_key : string -> string.
Variable generate_api_key : string * string.

(** [add_api_key]: [today] is [datetime.now().strftime('%Y-%m-%d')]; a new
    dictionary key goes last. *)
Definition key_pair (key : option string) : string * string :=
  match key with
  | Some k => if truthy_str k then (k, hash_api_key k) else generate_api_key
  | None => generate_api_key
  end.

Definition add_api_key (keys : api_keys) (today : string) (name : string)
    (key : option string) : (string * bool) * api_keys :=
  let '(plaintext_key, hashed_key) := key_pair key in
  match getitem keys hashed_key with
  | Some _ => ((plaintext_key, false), keys)
  | None =>
      ((plaintext_key, true),
       keys ++ [(hashed_key, mk_info (Some name) (Some today) (Some true) true None)])
  end.
End Generate.

(** [d[key] = value] on a dictionary in insertion order: a key that is
    there keeps its place, a new one goes last. *)
Fixpoint setitem {A : Type} (d : list (string * A)) (key : string) (value : A)
  : list (string * A) :=
  match d with
  | [] => [(key, value)]
  | (k, v) :: rest =>
      if decide (k = key) then (k, value) :: rest else (k, v) :: setitem rest key value
  end.

Section Migrate.
(** The pair the [i]-th call of [generate_api_key()] returns, and the date
    [datetime.now().strftime('%Y-%m-%d')] gives at the [i]-th migrated key. *)
Variable generate_api_key : nat -> string * string.
Variable today : nat -> string.

(** The entry stored for the [i]-th legacy key. *)
Definition migrated (i : nat) (old_key : string) (info : KeyInfo) : KeyInfo :=
  mk_info (Some (default "Migrated Key" (name info))) (Some (today i))
          (Some (default true (active info))) true (Some old_key).

(** The loop of [migrate_legacy_keys] over [list(self.api_keys.items())],
    [i] legacy keys having been migrated so far. *)
Fixpoint migrate_loop (items : api_keys) (i : nat)
    (migrations : list (string * string)) (new_keys : api_keys)
  : list (string * string) * api_keys :=
  match items with
  | [] => (migrations, new_keys)
  | (old_key, info) :: rest =>
      if negb (hashed info) then
        let '(plaintext_key, hashed_key) := generate_api_key i in
        let new_keys := setitem new_keys hashed_key (migrated i old_key info) in
        let migrations := setitem migrations old_key plaintext_key in
        migrate_loop rest (S i) migrations new_keys
      else migrate_loop rest i migrations new_keys
  end.

(** [migrate_legacy_keys]: the mapping it returns and the new [self.api_keys]. *)
Definition migrate_legacy_keys (keys : api_keys) : list (string * string) * api_keys :=
  migrate_loop keys 0 [] [].
End Migrate.

(** A stand-in for bcrypt: the hash of a key is the key after ["$2b$"], or
    after ["$2b$07$"] under a second salt. *)
Definition toy_checkpw (plaintext hashed : string) : pyres bool :=
  if String.prefix "$2b$" hashed
  then Ok (String.eqb hashed ("$2b$" +:+ plaintext)
           || String.eqb hashed ("$2b$07$" +:+ plaintext))
  else Raise (OtherError "Invalid salt").

Definition toy_hash (plaintext : string) : string := "$2b$07$" +:+ plaintext.

(** The [i]-th generated key under the stand-in. *)
Definition toy_generate (i : nat) : string * string :=
  ("generated-" +:+ pretty i, "$2b$generated-" +:+ pretty i).

(** A legacy key stored without an [active] flag, after a hashed key. *)
Definition unflagged_keys : api_keys :=
  [ ("$2b$s3cr3t-token",
     mk_info (Some "Custom Key") (Some "2025-10-06") (Some true) true None);
    ("old-key", mk_info None None None false None) ].

(** A legacy key and a hashed key, both active. *)
Definition two_keys : api_keys :=
  [ ("demo-key-12345",
     mk_info (Some "Legacy Demo Key") (Some "2025-10-05") (Some true) false None);
    ("$2b$s3cr3t-token",
     mk_info (Some "Custom Key") (Some "2025-10-06") (Some true) true None) ].

End AuthService.

(** ** app.py: the decorator and the validation of a screenshot request *)

Module App.


Section Decorator.
Variable checkpw : string -> string -> pyres bool.

End Decorator.

(** The 400 answers of [screenshot()]. *)
Inductive bad_request : Type :=
| MissingUrl
| InvalidUrl
| InvalidFormat
| InvalidViewport
| InvalidQuality.

(** [image_format] with ['jpg'] replaced by ['jpeg']. *)
Definition with_format (p : CacheService.params) (image_format : string)
  : CacheService.params :=
  CacheService.mk_params
    (CacheService.url p) (CacheService.width p) (CacheService.height p)
    (CacheService.fullpage p) image_format (CacheService.quality p)
    (CacheService.delay p) (CacheService.selector p) (CacheService.device p)
    (CacheService.user_agent p) (CacheService.dark_mode p)
    (CacheService.wait_for_selector p) (CacheService.block_ads p)
    (CacheService.scroll_page p) (CacheService.media_type p)
    (CacheService.timezone p).

(** The validation of [screenshot()] up to the cache key (app.py:210-259)
    on the parameters of a GET request as [parse_get] below gives them: the
    numbers are the integers [int(...)] makes of them, the format is
    lower-cased, and a [url] that is absent is the empty string ([not url]
    holds of both); the answer is a 400 or the request the cache key is
    computed from. *)
Definition validate (p : CacheService.params) : bad_request + CacheService.params :=
  let url := CacheService.url p in
  let image_format := CacheService.image_format p in
  if negb (truthy_str url) then inl MissingUrl
  else if negb (String.prefix "http://" url || String.prefix "https://" url)
  then inl InvalidUrl
  else if negb (bool_decide (image_format ∈ ["png"; "jpeg"; "jpg"; "pdf"]))
  then inl InvalidFormat
  else
    let image_format := if bool_decide (image_format = "jpg") then "jpeg" else image_format in
    if (CacheService.width p <? 100) || (CacheService.width p >? 3840)
       || (CacheService.height p <? 100) || (CacheService.height p >? 2160)
    then inl InvalidViewport
    else if (CacheService.quality p <? 1) || (CacheService.quality p >? 100)
    then inl InvalidQuality
    else inr (with_format p image_format).

(** [request.args] of a GET request: the value [request.args.get] finds
    under each name. *)
Definition query : Type := gmap string string.

Section Get.
(** [int(s)] on a [str], which raises on a text that is not an integer, and
    [str.lower]. *)
Variable int_of_str : string -> pyres Z.
Variable lower : string -> string.

(** [int(request.args.get(name, default))] with an [int] default. *)
Definition get_int (args : query) (name : string) (default : Z) : pyres Z :=
  match args !! name with
  | Some s => int_of_str s
  | None => Ok default
  end.

(** [request.args.get(name, 'false').lower() in ('true', '1', 'yes')] *)
Definition get_flag (args : query) (name : string) : bool :=
  bool_decide (lower (default "false" (args !! name)) ∈ ["true"; "1"; "yes"]).

(** The GET branch of [screenshot()] (app.py:186-208), for the parameters
    that are validated or enter the cache key. *)
Definition parse_get (args : query) : pyres CacheService.params :=
  let url := args !! "url" in
  bind (get_int args "width" 1920) (fun width =>
  bind (get_int args "height" 1080) (fun height =>
  let fullpage := get_flag args "fullpage" in
  bind (get_int args "delay" 0) (fun delay =>
  let image_format := lower (default "png" (args !! "format")) in
  bind (get_int args "quality" 80) (fun quality =>
  let selector := args !! "selector" in
  let device := args !! "device" in
  let user_agent := args !! "user_agent" in
  let dark_mode := get_flag args "dark_mode" in
  let wait_for_selector := args !! "wait_for_selector" in
  let block_ads := get_flag args "block_ads" in
  let scroll_page := get_flag args "scroll_page" in
  let media_type := args !! "media_type" in
  let timezone := args !! "timezone" in
  Ok (CacheService.mk_params (default "" url) width height fullpage image_format
        quality delay selector device user_agent dark_mode wait_for_selector
        block_ads scroll_page media_type timezone))))).

(** [screenshot()] on a GET request, up to the cache key: an exception of
    the parsing, a 400, or the request the cache key is computed from. *)
Definition screenshot_get (args : query) : pyres (bad_request + CacheService.params) :=
  bind (parse_get args) (fun p => Ok (validate p)).
End Get.

(** Stand-ins for [int] on a text of decimal digits and for [str.lower] on
    ASCII. *)
Fixpoint digits_value (s : string) (acc : Z) : option Z :=
  match s with
  | EmptyString => Some acc
  | String c s' =>
      let n := Ascii.nat_of_ascii c in
      if ((48 <=? n) && (n <=? 57))%nat
      then digits_value s' (10 * acc + Z.of_nat (n - 48))
      else None
  end.

Definition toy_int_of_str (s : string) : pyres Z :=
  match s with
  | EmptyString => Raise (OtherError "invalid literal for int()")
  | _ =>
      match digits_value s 0 with
      | Some n => Ok n
      | None => Raise (OtherError "invalid literal for int()")
      end
  end.

Fixpoint toy_lower (s : string) : string :=
  match s with
  | EmptyString => EmptyString
  | String c s' =>
      let n := Ascii.nat_of_ascii c in
      String (if ((65 <=? n) && (n <=? 90))%nat then Ascii.ascii_of_nat (n + 32) else c)
             (toy_lower s')
  end.

(** Three GET queries: a url alone, the same with a width, the same with
    dark mode; and one that asks for a JPG. *)
Definition query_plain : query := {[ "url" := "https://example.com" ]}.
Definition query_narrow : query := <[ "width" := "1280" ]> query_plain.
Definition query_dark : query := <[ "dark_mode" := "True" ]> query_plain.
Definition query_jpg : query := <[ "format" := "JPG" ]> query_plain.

Section CacheKey.
Variable sha256_hexdigest : string -> string.

(** The cache key [screenshot()] uses for a request, when it gets that far. *)
Definition request_cache_key (p : CacheService.params) : bad_request + string :=
  match validate p with
  | inl e => inl e
  | inr p' => inr (CacheService.screenshot_cache_key sha256_hexdigest p')
  end.
End CacheKey.

End App.

(** * Properties *)

Module RateLimiterSpec.
Import RateLimiter.

Lemma Qltb_lt a b : Qltb a b = true <-> (a < b)%Q.
Proof.
  unfold Qltb. rewrite negb_true_iff, <- not_true_iff_false, Qle_bool_iff.
  split; [apply Qnot_le_lt | apply Qlt_not_le].
Qed.

Lemma Qltb_ge a b : Qltb a b = false <-> (b <= a)%Q.
Proof.
  unfold Qltb. rewrite negb_false_iff. apply Qle_bool_iff.
Qed.

Lemma getitem_insert_eq d k v : getitem (<[k := v]> d) k = v.
Proof. unfold getitem. by rewrite lookup_insert_eq. Qed.

Lemma getitem_insert_ne d k k' v : k ≠ k' -> getitem (<[k := v]> d) k' = getitem d k'.
Proof. intros Hne. unfold getitem. by rewrite lookup_insert_ne. Qed.

(** The loop pops a prefix, every popped timestamp is older than the cutoff,
    and it stops at the first timestamp that is not. *)
Lemma popleft_older_split cutoff dq :
  exists popped,
    dq = popped ++ popleft_older cutoff dq /\
    Forall (fun ts => (ts < cutoff)%Q) popped /\
    (forall ts rest, popleft_older cutoff dq = ts :: rest -> (cutoff <= ts)%Q).
Proof.
  induction dq as [|ts dq IH]; simpl.
  - exists []. repeat split; [constructor | discriminate].
  - destruct (Qltb ts cutoff) eqn:E.
    + destruct IH as (popped & Heq & Hold & Hfront).
      exists (ts :: popped). repeat split.
      * simpl. by rewrite <- Heq.
      * constructor; [by apply Qltb_lt | done].
      * done.
    + exists []. repeat split; [constructor |].
      intros ts' rest [= <- _]. by apply Qltb_ge.
Qed.

Lemma popleft_older_keeps cutoff c dq :
  (c <= cutoff)%Q -> not_older cutoff (popleft_older c dq) = not_older cutoff dq.
Proof.
  intros Hc. induction dq as [|ts dq IH]; simpl; [done |].
  destruct (Qltb ts c) eqn:E; [| done].
  rewrite IH. apply Qltb_lt in E.
  assert (Qltb ts cutoff = true) as ->; [| done].
  apply Qltb_lt. lra.
Qed.

(** On a deque in chronological order the loop leaves no timestamp that is
    older than the cutoff. *)
Lemma popleft_older_sorted cutoff dq :
  StronglySorted Qle dq ->
  Forall (fun ts => (cutoff <= ts)%Q) (popleft_older cutoff dq).
Proof.
  induction dq as [|ts dq IH]; intros Hs; cbn [popleft_older]; [constructor |].
  apply StronglySorted_inv in Hs as [Hs Hall].
  destruct (Qltb ts cutoff) eqn:E; [by apply IH |].
  apply Qltb_ge in E. constructor; [done |].
  eapply Forall_impl; [exact Hall |].
  intros x Hx. by apply Qle_trans with ts.
Qed.

Lemma not_older_length cutoff dq :
  (length (not_older cutoff dq) <= length dq)%nat.
Proof. unfold not_older. apply List.filter_length_le. Qed.

Lemma not_older_app cutoff l1 l2 :
  not_older cutoff (l1 ++ l2) = not_older cutoff l1 ++ not_older cutoff l2.
Proof. unfold not_older. apply List.filter_app. Qed.

Lemma cleanup_minute_eq rl k now :
  getitem (minute_requests (_cleanup_old_requests rl k now)) k =
  popleft_older (now - 60)%Q (getitem (minute_requests rl) k).
Proof. apply getitem_insert_eq. Qed.

Lemma cleanup_hour_eq rl k now :
  getitem (hour_requests (_cleanup_old_requests rl k now)) k =
  popleft_older (now - 3600)%Q (getitem (hour_requests rl) k).
Proof. apply getitem_insert_eq. Qed.

Lemma cleanup_minute_ne rl k k' now :
  k ≠ k' ->
  getitem (minute_requests (_cleanup_old_requests rl k now)) k' =
  getitem (minute_requests rl) k'.
Proof. apply getitem_insert_ne. Qed.

Lemma cleanup_hour_ne rl k k' now :
  k ≠ k' ->
  getitem (hour_requests (_cleanup_old_requests rl k now)) k' =
  getitem (hour_requests rl) k'.
Proof. apply getitem_insert_ne. Qed.

(** The three outcomes of [check_rate_limit], by the two counts. *)
Lemma check_rate_limit_cases rl k now :
  let rl1 := _cleanup_old_requests rl k now in
  let m := getitem (minute_requests rl1) k in
  let h := getitem (hour_requests rl1) k in
  (fst (check_rate_limit rl k now) = false /\
   snd (check_rate_limit rl k now) = rl1 /\
   (requests_per_minute rl <= len m \/ requests_per_hour rl <= len h)) \/
  (fst (check_rate_limit rl k now) = true /\
   getitem (minute_requests (snd (check_rate_limit rl k now))) k = m ++ [now] /\
   getitem (hour_requests (snd (check_rate_limit rl k now))) k = h ++ [now] /\
   (forall k', k ≠ k' ->
      getitem (minute_requests (snd (check_rate_limit rl k now))) k' =
        getitem (minute_requests rl) k' /\
      getitem (hour_requests (snd (check_rate_limit rl k now))) k' =
        getitem (hour_requests rl) k') /\
   len m < requests_per_minute rl /\ len h < requests_per_hour rl).
Proof.
  intros rl1 m h. unfold check_rate_limit. fold rl1. fold m. fold h.
  change (requests_per_minute rl1) with (requests_per_minute rl).
  change (requests_per_hour rl1) with (requests_per_hour rl).
  destruct (len m >=? requests_per_minute rl) eqn:Em.
  { left. simpl. repeat split; try done. left. lia. }
  destruct (len h >=? requests_per_hour rl) eqn:Eh.
  { left. simpl. repeat split; try done. right. lia. }
  right. simpl. split; [done |].
  split; [apply getitem_insert_eq |].
  split; [apply getitem_insert_eq |].
  split; [| lia].
  intros k' Hne. rewrite !getitem_insert_ne by done.
  split; [by rewrite <- (cleanup_minute_ne rl k k' now) | by rewrite <- (cleanup_hour_ne rl k k' now)].
Qed.

(** One call at a clock reading [<= t] keeps, in the minute deque of [k],
    every timestamp that is not older than [t - 60], and adds the reading of
    an admitted check of [k]. *)
Lemma step_not_older rl ev k t :
  (fst ev <= t)%Q ->
  not_older (t - 60)%Q (getitem (minute_requests (step rl ev)) k) =
  not_older (t - 60)%Q (getitem (minute_requests rl) k) ++
  not_older (t - 60)%Q (admitted_times rl [ev] k).
Proof.
  destruct ev as [now c]. cbn [fst]. intros Hnow.
  assert (Hc : (now - 60 <= t - 60)%Q) by lra.
  cbn [admitted_times]. rewrite app_nil_r.
  destruct c as [k' | k' | k']; cbn [step].
  - destruct (decide (k' = k)) as [-> | Hne].
    + destruct (check_rate_limit_cases rl k now)
        as [(-> & -> & _) | (-> & -> & _)].
      * rewrite cleanup_minute_eq, popleft_older_keeps by done.
        cbn [not_older List.filter]. by rewrite app_nil_r.
      * by rewrite cleanup_minute_eq, not_older_app, popleft_older_keeps.
    + cbn [not_older List.filter]. rewrite app_nil_r. f_equal.
      destruct (check_rate_limit_cases rl k' now)
        as [(_ & -> & _) | (_ & _ & _ & Hother & _)].
      * by apply cleanup_minute_ne.
      * by apply Hother.
  - cbn [not_older List.filter]. rewrite app_nil_r.
    assert (snd (get_retry_after rl k' now) = _cleanup_old_requests rl k' now) as ->.
    { unfold get_retry_after. by repeat case_match. }
    destruct (decide (k' = k)) as [-> | Hne].
    + by rewrite cleanup_minute_eq, popleft_older_keeps.
    + by rewrite cleanup_minute_ne.
  - cbn [not_older List.filter]. rewrite app_nil_r.
    cbn [get_remaining_requests snd].
    destruct (decide (k' = k)) as [-> | Hne].
    + by rewrite cleanup_minute_eq, popleft_older_keeps.
    + by rewrite cleanup_minute_ne.
Qed.

Lemma step_limits rl ev :
  requests_per_minute (step rl ev) = requests_per_minute rl /\
  requests_per_hour (step rl ev) = requests_per_hour rl.
Proof.
  destruct ev as [now [k | k | k]]; simpl.
  - unfold check_rate_limit. by repeat case_match.
  - unfold get_retry_after. by repeat case_match.
  - done.
Qed.

Lemma run_limits rl evs :
  requests_per_minute (run rl evs) = requests_per_minute rl /\
  requests_per_hour (run rl evs) = requests_per_hour rl.
Proof.
  revert rl. induction evs as [|ev evs IH]; intros rl; [done |].
  unfold run in *. simpl. destruct (IH (step rl ev)) as [-> ->].
  apply step_limits.
Qed.

Lemma admitted_times_cons rl ev evs k :
  admitted_times rl (ev :: evs) k =
  admitted_times rl [ev] k ++ admitted_times (step rl ev) evs k.
Proof. cbn [admitted_times]. by rewrite app_nil_r. Qed.

Lemma run_not_older rl evs k t :
  forallb (fun ev => Qle_bool (fst ev) t) evs = true ->
  not_older (t - 60)%Q (getitem (minute_requests (run rl evs)) k) =
  not_older (t - 60)%Q (getitem (minute_requests rl) k) ++
  not_older (t - 60)%Q (admitted_times rl evs k).
Proof.
  revert rl. induction evs as [|ev evs IH]; intros rl Hle.
  - simpl. by rewrite app_nil_r.
  - simpl in Hle. apply andb_true_iff in Hle as [Hev Hle].
    apply Qle_bool_iff in Hev.
    change (run rl (ev :: evs)) with (run (step rl ev) evs).
    rewrite IH, (step_not_older rl ev k t) by done.
    rewrite (admitted_times_cons rl ev evs k), not_older_app, <- app_assoc. done.
Qed.

Lemma popleft_older_suffix cutoff dq :
  exists popped, dq = popped ++ popleft_older cutoff dq.
Proof.
  destruct (popleft_older_split cutoff dq) as (popped & Heq & _). by exists popped.
Qed.

Lemma sorted_suffix (l1 l2 : list Q) :
  StronglySorted Qle (l1 ++ l2) -> StronglySorted Qle l2.
Proof.
  induction l1 as [|x l1 IH]; [done |].
  intros Hs. apply IH. by apply StronglySorted_inv in Hs as [Hs _].
Qed.

Lemma sorted_snoc (l : list Q) (x : Q) :
  StronglySorted Qle l -> Forall (fun ts => (ts <= x)%Q) l ->
  StronglySorted Qle (l ++ [x]).
Proof.
  induction l as [|y l IH]; intros Hs Hle; cbn [app].
  - repeat constructor.
  - apply StronglySorted_inv in Hs as [Hs Hall].
    apply Forall_cons in Hle as [Hy Hle].
    constructor; [by apply IH |].
    apply Forall_app. split; [done | by constructor].
Qed.

(** Pruning keeps a deque in order and within its bound. *)
Lemma popleft_older_in_order cutoff dq t :
  StronglySorted Qle dq /\ Forall (fun ts => (ts <= t)%Q) dq ->
  StronglySorted Qle (popleft_older cutoff dq) /\
  Forall (fun ts => (ts <= t)%Q) (popleft_older cutoff dq).
Proof.
  intros [Hs Hle].
  destruct (popleft_older_suffix cutoff dq) as [popped Heq].
  rewrite Heq in Hs, Hle. split.
  - by apply sorted_suffix in Hs.
  - by apply Forall_app in Hle as [_ Hle].
Qed.

Lemma in_order_mono rl t t' : (t <= t')%Q -> in_order rl t -> in_order rl t'.
Proof.
  intros Htt Hin k. destruct (Hin k) as [[Hms Hmb] [Hhs Hhb]].
  repeat split; try done.
  - eapply Forall_impl; [exact Hmb |]. intros x Hx. by apply Qle_trans with t.
  - eapply Forall_impl; [exact Hhb |]. intros x Hx. by apply Qle_trans with t.
Qed.

Lemma cleanup_in_order rl k now t :
  in_order rl t -> in_order (_cleanup_old_requests rl k now) t.
Proof.
  intros Hin k'. destruct (Hin k') as [Hm Hh].
  destruct (decide (k = k')) as [<- | Hne].
  - rewrite cleanup_minute_eq, cleanup_hour_eq.
    split; by apply popleft_older_in_order.
  - by rewrite cleanup_minute_ne, cleanup_hour_ne.
Qed.

(** A call at a reading that is not earlier than any stored one keeps every
    deque in chronological order. *)
Lemma step_in_order rl ev t :
  (t <= fst ev)%Q -> in_order rl t -> in_order (step rl ev) (fst ev).
Proof.
  destruct ev as [now c]. cbn [fst]. intros Ht Hin.
  assert (Hclean : forall k, in_order (_cleanup_old_requests rl k now) now).
  { intros k. apply in_order_mono with t; [done |]. by apply cleanup_in_order. }
  destruct c as [k | k | k]; cbn [step].
  - destruct (check_rate_limit_cases rl k now)
      as [(_ & -> & _) | (_ & Hmin & Hhr & Hother & _)]; [apply Hclean |].
    intros k'. destruct (decide (k = k')) as [<- | Hne].
    + rewrite Hmin, Hhr. destruct (Hclean k k) as [[Hms Hmb] [Hhs Hhb]].
      repeat split.
      * by apply sorted_snoc.
      * apply Forall_app. split; [done |]. constructor; [apply Qle_refl | constructor].
      * by apply sorted_snoc.
      * apply Forall_app. split; [done |]. constructor; [apply Qle_refl | constructor].
    + destruct (Hother k' Hne) as [-> ->].
      apply in_order_mono with t; [done | apply Hin].
  - assert (snd (get_retry_after rl k now) = _cleanup_old_requests rl k now) as ->.
    { unfold get_retry_after. by repeat case_match. }
    apply Hclean.
  - apply Hclean.
Qed.

(** From a fresh limiter, or from any limiter whose deques are in order, a
    run under a clock that never goes back keeps every deque in
    chronological order. *)
Lemma run_in_order evs rl t0 :
  chronological t0 evs -> in_order rl t0 ->
  in_order (run rl evs) (last_reading t0 evs).
Proof.
  revert rl t0. induction evs as [|ev evs IH]; intros rl t0 Hchr Hin; [done |].
  destruct Hchr as [Ht Hchr].
  change (run rl (ev :: evs)) with (run (step rl ev) evs).
  change (last_reading t0 (ev :: evs)) with (last_reading (fst ev) evs).
  apply IH; [done |]. by apply step_in_order with t0.
Qed.

Lemma init_in_order per_minute per_hour t : in_order (init per_minute per_hour) t.
Proof. intros k. unfold getitem. cbn. rewrite lookup_empty. cbn. repeat constructor. Qed.

(** C1.  In every state a run of calls can reach, [check_rate_limit] first
    pops from the front of the minute (hour) deque of the key the timestamps
    older than [now - 60] ([now - 3600]) and stops at the first one that is
    not; when the run started from deques in chronological order (those of
    a fresh limiter are) and its clock never went back, that leaves no
    timestamp older than the window in either deque.  It returns [False]
    exactly when one of the two pruned deques has reached its limit, and
    then stores nothing beyond the pruning; otherwise it returns [True] and
    appends [now] to both deques; the deques of the other keys keep their
    contents.  And when at least [requests_per_minute] checks of the key
    were admitted in the run at readings within the 60 seconds before [now],
    none of them later than [now], the check at [now] returns [False]. *)
Theorem check_rate_limit_admission
    (rl0 : t) (evs : list (Q * call)) (k : string) (now : Q) :
  let rl := run rl0 evs in
  let rl1 := _cleanup_old_requests rl k now in
  let m := getitem (minute_requests rl1) k in
  let h := getitem (hour_requests rl1) k in
  let r := check_rate_limit rl k now in
  (exists popped,
      getitem (minute_requests rl) k = popped ++ m /\
      Forall (fun ts => (ts < now - 60)%Q) popped /\
      (forall ts rest, m = ts :: rest -> (now - 60 <= ts)%Q)) /\
  (exists popped,
      getitem (hour_requests rl) k = popped ++ h /\
      Forall (fun ts => (ts < now - 3600)%Q) popped /\
      (forall ts rest, h = ts :: rest -> (now - 3600 <= ts)%Q)) /\
  (forall t0, in_order rl0 t0 -> chronological t0 evs ->
     Forall (fun ts => (now - 60 <= ts)%Q) m /\
     Forall (fun ts => (now - 3600 <= ts)%Q) h) /\
  fst r = negb ((len m >=? requests_per_minute rl0) || (len h >=? requests_per_hour rl0)) /\
  (fst r = true ->
     getitem (minute_requests (snd r)) k = m ++ [now] /\
     getitem (hour_requests (snd r)) k = h ++ [now]) /\
  (fst r = false -> snd r = rl1) /\
  (forall k', k ≠ k' ->
     getitem (minute_requests (snd r)) k' = getitem (minute_requests rl) k' /\
     getitem (hour_requests (snd r)) k' = getitem (hour_requests rl) k') /\
  (forallb (fun ev => Qle_bool (fst ev) now) evs = true ->
   requests_per_minute rl0 <= len (not_older (now - 60)%Q (admitted_times rl0 evs k)) ->
   fst r = false).
Proof.
  intros rl rl1 m h r.
  destruct (run_limits rl0 evs) as [Hpm Hph]. fold rl in Hpm, Hph.
  assert (Hm : m = popleft_older (now - 60)%Q (getitem (minute_requests rl) k))
    by apply cleanup_minute_eq.
  assert (Hh : h = popleft_older (now - 3600)%Q (getitem (hour_requests rl) k))
    by apply cleanup_hour_eq.
  split; [rewrite Hm; apply popleft_older_split |].
  split; [rewrite Hh; apply popleft_older_split |].
  split.
  { intros t0 Hin Hchr.
    destruct (run_in_order evs rl0 t0 Hchr Hin k) as [[Hms _] [Hhs _]].
    fold rl in Hms, Hhs.
    split; [rewrite Hm | rewrite Hh]; by apply popleft_older_sorted. }
  pose proof (check_rate_limit_cases rl k now) as Hcases.
  cbv zeta in Hcases. fold rl1 in Hcases. fold m in Hcases. fold h in Hcases.
  fold r in Hcases. rewrite Hpm, Hph in Hcases.
  assert (Hdec : fst r = negb ((len m >=? requests_per_minute rl0)
                               || (len h >=? requests_per_hour rl0))).
  { destruct Hcases as [(-> & _ & Hfull) | (-> & _ & _ & _ & Hm' & Hh')].
    - symmetry. apply negb_false_iff, orb_true_iff.
      destruct Hfull; [left | right]; lia.
    - symmetry. apply negb_true_iff, orb_false_iff. split; lia. }
  split; [done |].
  split.
  { intros Ht. destruct Hcases as [(Hf & _) | (_ & Hmin & Hhr & _)]; [congruence | done]. }
  split.
  { intros Hf. destruct Hcases as [(_ & Hs & _) | (Ht & _)]; [done | congruence]. }
  split.
  { intros k' Hne. destruct Hcases as [(_ & -> & _) | (_ & _ & _ & Hother & _)].
    - split; [by apply cleanup_minute_ne | by apply cleanup_hour_ne].
    - by apply Hother. }
  intros Hle Hcount. rewrite Hdec.
  apply negb_false_iff, orb_true_iff. left.
  pose proof (run_not_older rl0 evs k now Hle) as Hkeep. fold rl in Hkeep.
  pose proof (popleft_older_keeps (now - 60)%Q (now - 60)%Q
                (getitem (minute_requests rl) k) (Qle_refl _)) as Hsame.
  rewrite <- Hm in Hsame.
  pose proof (not_older_length (now - 60)%Q m) as Hlen.
  rewrite Hsame, Hkeep, length_app in Hlen.
  unfold len in *. lia.
Qed.

(** The eleventh check of a key within ten seconds, at the default limits. *)
Lemma check_rate_limit_admission_witness :
  forallb (fun ev => Qle_bool (fst ev) 10%Q) ten_checks = true /\
  requests_per_minute default_limiter
    <= len (not_older (10 - 60)%Q (admitted_times default_limiter ten_checks "alice")) /\
  in_order default_limiter 0%Q /\
  chronological 0%Q ten_checks /\
  fst (check_rate_limit (run default_limiter ten_checks) "alice" 10%Q) = false /\
  Forall (fun ts => (10 - 60 <= ts)%Q)
         (getitem (minute_requests
                     (_cleanup_old_requests (run default_limiter ten_checks) "alice" 10%Q))
                  "alice").
Proof.
  assert (H1 : forallb (fun ev => Qle_bool (fst ev) 10%Q) ten_checks = true)
    by (vm_compute; reflexivity).
  assert (H2 : requests_per_minute default_limiter
               <= len (not_older (10 - 60)%Q
                         (admitted_times default_limiter ten_checks "alice")))
    by (vm_compute; discriminate).
  assert (H3 : in_order default_limiter 0%Q) by apply init_in_order.
  assert (H4 : chronological 0%Q ten_checks)
    by (cbn; repeat split; discriminate).
  pose proof (check_rate_limit_admission default_limiter ten_checks "alice" 10%Q) as H.
  cbv zeta in H. destruct H as (_ & _ & Hord & _ & _ & _ & _ & Hdeny).
  split; [exact H1 |]. split; [exact H2 |]. split; [exact H3 |]. split; [exact H4 |].
  split; [exact (Hdeny H1 H2) | exact (proj1 (Hord 0%Q H3 H4))].
Defined.

Lemma py_int_nonneg x : (0 <= x)%Q -> py_int x = Qfloor x.
Proof.
  destruct x as [n d]. unfold Qle, py_int. simpl. intros Hn.
  apply Z.quot_div_nonneg; lia.
Qed.

(** After pruning at [now], the head of a deque has not yet left its window. *)
Lemma wait_nonneg (window now oldest : Q) :
  (now - window <= oldest)%Q -> (0 <= window - (now - oldest))%Q.
Proof. intros H. lra. Qed.

Lemma floor_succ_bounds x :
  (x < inject_Z (Qfloor x + 1))%Q /\ (inject_Z (Qfloor x + 1) <= x + 1)%Q.
Proof.
  split; [apply Qlt_floor |].
  rewrite inject_Z_plus. pose proof (Qfloor_le x) as H.
  change (inject_Z 1) with 1%Q. lra.
Qed.

(** C4 (as the code has it).  [get_retry_after] prunes like
    [check_rate_limit] and returns 0 when neither pruned deque is at its
    limit.  When only the minute deque is at its limit it returns
    [floor(60 - (now - oldest)) + 1] for the head [oldest] of that deque,
    which is the least integer strictly above the [60 - (now - oldest)]
    seconds that [oldest] still stays in the window; when only the hour
    deque is at its limit it returns the same with 3600 and the head of the
    hour deque. *)
Theorem get_retry_after_wait (rl : t) (k : string) (now : Q) :
  let rl1 := _cleanup_old_requests rl k now in
  let m := getitem (minute_requests rl1) k in
  let h := getitem (hour_requests rl1) k in
  let r := get_retry_after rl k now in
  snd r = rl1 /\
  (len m < requests_per_minute rl -> len h < requests_per_hour rl -> fst r = Ok 0) /\
  (forall oldest rest,
     m = oldest :: rest ->
     requests_per_minute rl <= len m -> len h < requests_per_hour rl ->
     let w := (60 - (now - oldest))%Q in
     fst r = Ok (Qfloor w + 1) /\
     (0 <= w)%Q /\ (w < inject_Z (Qfloor w + 1))%Q /\ (inject_Z (Qfloor w + 1) <= w + 1)%Q) /\
  (forall oldest rest,
     h = oldest :: rest ->
     len m < requests_per_minute rl -> requests_per_hour rl <= len h ->
     let w := (3600 - (now - oldest))%Q in
     fst r = Ok (Qfloor w + 1) /\
     (0 <= w)%Q /\ (w < inject_Z (Qfloor w + 1))%Q /\ (inject_Z (Qfloor w + 1) <= w + 1)%Q).
Proof.
  intros rl1 m h r.
  assert (Hsnd : snd r = rl1).
  { unfold r, get_retry_after. by repeat case_match. }
  split; [done |].
  assert (Hr : r = get_retry_after rl k now) by done.
  unfold get_retry_after in Hr. fold rl1 in Hr. fold m in Hr. fold h in Hr.
  change (requests_per_minute rl1) with (requests_per_minute rl) in Hr.
  change (requests_per_hour rl1) with (requests_per_hour rl) in Hr.
  split; [| split].
  - intros Hm Hh.
    destruct (len m >=? requests_per_minute rl) eqn:Em; [lia |].
    destruct (len h >=? requests_per_hour rl) eqn:Eh; [lia |].
    by rewrite Hr.
  - intros oldest rest Hmo Hm Hh w.
    destruct (len m >=? requests_per_minute rl) eqn:Em; [| lia].
    assert (Hw : (0 <= w)%Q).
    { apply wait_nonneg.
      destruct (popleft_older_split (now - 60)%Q (getitem (minute_requests rl) k))
        as (_ & _ & _ & Hfront).
      apply (Hfront oldest rest). rewrite <- Hmo. symmetry. apply cleanup_minute_eq. }
    split; [| split; [done | apply floor_succ_bounds]].
    rewrite Hr, Hmo. cbn [front bind fst]. fold w. by rewrite (py_int_nonneg w Hw).
  - intros oldest rest Hho Hm Hh w.
    destruct (len m >=? requests_per_minute rl) eqn:Em; [lia |].
    destruct (len h >=? requests_per_hour rl) eqn:Eh; [| lia].
    assert (Hw : (0 <= w)%Q).
    { apply wait_nonneg.
      destruct (popleft_older_split (now - 3600)%Q (getitem (hour_requests rl) k))
        as (_ & _ & _ & Hfront).
      apply (Hfront oldest rest). rewrite <- Hho. symmetry. apply cleanup_hour_eq. }
    split; [| split; [done | apply floor_succ_bounds]].
    rewrite Hr, Hho. cbn [front bind fst]. fold w. by rewrite (py_int_nonneg w Hw).
Qed.

(** Half a second after the last admitted check the minute deque is full and
    its head leaves in 59.5 s: the answer is 60.  With the hour deque full
    instead, 200 s after its head was stored, the answer is 3401.  On a fresh
    limiter it is 0. *)
Lemma get_retry_after_wait_witness :
  getitem (minute_requests (_cleanup_old_requests minute_full "alice" (201 # 2)))
          "alice" = [100%Q] /\
  requests_per_minute minute_full <= 1 /\
  len (getitem (hour_requests (_cleanup_old_requests minute_full "alice" (201 # 2)))
               "alice") < requests_per_hour minute_full /\
  fst (get_retry_after minute_full "alice" (201 # 2)) = Ok 60 /\
  getitem (hour_requests (_cleanup_old_requests hour_full "alice" 200%Q))
          "alice" = [0%Q; 100%Q] /\
  fst (get_retry_after hour_full "alice" 200%Q) = Ok 3401 /\
  fst (get_retry_after default_limiter "alice" 0%Q) = Ok 0.
Proof.
  split; [vm_compute; reflexivity |].
  split; [vm_compute; discriminate |].
  split; [vm_compute; reflexivity |].
  destruct (get_retry_after_wait minute_full "alice" (201 # 2)) as (_ & _ & Hmin & _).
  destruct (get_retry_after_wait hour_full "alice" 200%Q) as (_ & _ & _ & Hhour).
  destruct (get_retry_after_wait default_limiter "alice" 0%Q) as (_ & Hzero & _).
  split.
  { destruct (Hmin 100%Q []) as [Hres _].
    - vm_compute; reflexivity.
    - vm_compute; discriminate.
    - vm_compute; reflexivity.
    - exact Hres. }
  split; [vm_compute; reflexivity |].
  split.
  { destruct (Hhour 0%Q [100%Q]) as [Hres _].
    - vm_compute; reflexivity.
    - vm_compute; reflexivity.
    - vm_compute; discriminate.
    - exact Hres. }
  apply Hzero; vm_compute; reflexivity.
Defined.

(** At the default limits: ten admitted checks at 0 s to 9 s fill the minute
    deque; at 9.5 s its head leaves in 50.5 s and the answer is 51. *)
Example get_retry_after_default_limits :
  fst (get_retry_after (run default_limiter ten_checks) "alice" (19 # 2)) = Ok 51 /\
  Qceiling (60 - ((19 # 2) - 0))%Q + 1 = 52.
Proof. vm_compute. split; reflexivity. Qed.

(** C4 as stated fails.  With both deques at their limit, the head of the
    minute deque leaves in 59.5 s and the head of the hour deque in 3499.5 s.
    The stated answer is the ceiling plus one of the longer wait, 3501 (and
    61 for the minute wait alone); the code answers 60. *)
Lemma get_retry_after_not_ceiling_nor_longer :
  let now := (201 # 2)%Q in
  let rl1 := _cleanup_old_requests both_full "alice" now in
  let minute_wait := (60 - (now - 100))%Q in
  let hour_wait := (3600 - (now - 0))%Q in
  getitem (minute_requests rl1) "alice" = [100%Q] /\
  getitem (hour_requests rl1) "alice" = [0%Q; 100%Q] /\
  requests_per_minute both_full = 1 /\
  requests_per_hour both_full = 2 /\
  fst (get_retry_after both_full "alice" now) = Ok 60 /\
  Qceiling minute_wait + 1 = 61 /\
  Qceiling hour_wait + 1 = 3501 /\
  fst (get_retry_after both_full "alice" now)
    <> Ok (Z.max (Qceiling minute_wait + 1) (Qceiling hour_wait + 1)) /\
  fst (get_retry_after both_full "alice" now) <> Ok (Qceiling minute_wait + 1).
Proof.
  vm_compute. repeat split; try reflexivity; discriminate.
Qed.

End RateLimiterSpec.

Module CacheServiceSpec.
Import CacheService.

(** C6 at the requests [request_plain] and [request_ua_none], which differ
    in the user agent alone (none against the text [None]): whatever the
    hash function is, the two strings that are hashed coincide at both
    stages, and so do the cache keys. *)
Theorem cache_key_conflates_absent_and_None (sha256_hexdigest : string -> string) :
  request_plain <> request_ua_none /\
  user_agent request_plain = None /\
  user_agent request_ua_none = Some "None" /\
  cache_params request_plain = cache_params request_ua_none /\
  extended_key_string sha256_hexdigest request_plain =
    extended_key_string sha256_hexdigest request_ua_none /\
  screenshot_cache_key sha256_hexdigest request_plain =
    screenshot_cache_key sha256_hexdigest request_ua_none.
Proof.
  split; [discriminate |].
  repeat split.
Qed.

Lemma copy2_ok fs src dst :
  src ∈ fs -> src ≠ dst -> copy2 fs src dst = Ok (fs ∪ {[dst]}).
Proof.
  intros Hin Hne. unfold copy2.
  rewrite (bool_decide_eq_true_2 _ Hin), (bool_decide_eq_false_2 _ Hne). done.
Qed.

Lemma get_cached_hit st h e now :
  cache_index st !! h = Some e ->
  file_path e ∈ files st ->
  now <= timestamp e + timedelta_hours (cache_duration_hours st) ->
  get_cached_screenshot st h now = (Some (file_path e), st).
Proof.
  intros Hidx Hfile Hfresh. unfold get_cached_screenshot. rewrite Hidx.
  rewrite (bool_decide_eq_true_2 _ Hfile). cbn [negb].
  destruct (now >? _) eqn:E; [lia | done].
Qed.

(** C7.  A lookup that follows a successful store no later than the TTL
    returns the path the store returned, [cache/<key><suffix>], and changes
    nothing.  A lookup returns [None] and changes nothing when the index has
    no entry; returns [None], deletes the entry and unlinks the file when the
    file exists and the entry is older than the TTL; returns [None] and
    deletes the entry when the file of the entry is missing. *)
Theorem cache_lookup_after_store
    (path_suffix : string -> string) (st : t) (h path : string) (now now' : Z) :
  let ttl := timedelta_hours (cache_duration_hours st) in
  let dst := cached_filepath path_suffix h path in
  let stored := cache_screenshot path_suffix st h path now in
  (path ∈ files st -> path ≠ dst -> now' <= now + ttl ->
     fst stored = dst /\
     get_cached_screenshot (snd stored) h now' = (Some dst, snd stored)) /\
  (cache_index st !! h = None -> get_cached_screenshot st h now = (None, st)) /\
  (forall e, cache_index st !! h = Some e -> file_path e ∈ files st ->
     timestamp e + ttl < now ->
     get_cached_screenshot st h now =
       (None, mk (cache_duration_hours st) (delete h (cache_index st))
                 (files st ∖ {[file_path e]}))) /\
  (forall e, cache_index st !! h = Some e -> file_path e ∉ files st ->
     get_cached_screenshot st h now =
       (None, mk (cache_duration_hours st) (delete h (cache_index st)) (files st))).
Proof.
  intros ttl dst stored. repeat split.
  - unfold stored, cache_screenshot. fold dst. by rewrite copy2_ok.
  - unfold stored, cache_screenshot. fold dst. rewrite copy2_ok by done. cbn [snd].
    rewrite (get_cached_hit _ h (mk_entry dst now path)); [done | | |]; cbn.
    + apply lookup_insert_eq.
    + set_solver.
    + done.
  - intros Hnone. unfold get_cached_screenshot. by rewrite Hnone.
  - intros e Hidx Hfile Hold. unfold get_cached_screenshot. rewrite Hidx.
    rewrite (bool_decide_eq_true_2 _ Hfile). cbn [negb]. fold ttl.
    destruct (now >? _) eqn:E; [done | lia].
  - intros e Hidx Hfile. unfold get_cached_screenshot. rewrite Hidx.
    by rewrite (bool_decide_eq_false_2 _ Hfile).
Qed.

(** Storing a captured file in a fresh cache and looking it up a second
    later; a lookup of a key that was never stored; a lookup one microsecond
    past the 24 hours; a lookup of an entry whose file is gone. *)
Lemma cache_lookup_after_store_witness :
  let suffix := fun _ : string => ".png" in
  let src := "screenshots/shot_1.png" in
  let day := timedelta_hours 24 in
  let stored := snd (cache_screenshot suffix fresh "abc" src 0) in
  src ∈ files fresh /\
  src ≠ cached_filepath suffix "abc" src /\
  1000000 <= 0 + timedelta_hours (cache_duration_hours fresh) /\
  fst (cache_screenshot suffix fresh "abc" src 0) = "cache/abc.png" /\
  fst (get_cached_screenshot stored "abc" 1000000) = Some "cache/abc.png" /\
  get_cached_screenshot fresh "abc" 0 = (None, fresh) /\
  fst (get_cached_screenshot stored "abc" (day + 1)) = None /\
  cache_index (snd (get_cached_screenshot stored "abc" (day + 1))) !! "abc" = None /\
  ("cache/abc.png" ∉ files (snd (get_cached_screenshot stored "abc" (day + 1)))) /\
  fst (get_cached_screenshot file_lost "abc" 0) = None /\
  cache_index (snd (get_cached_screenshot file_lost "abc" 0)) !! "abc" = None.
Proof.
  intros suffix src day stored.
  assert (H1 : src ∈ files fresh) by (unfold fresh; cbn [files]; set_solver).
  assert (H2 : src ≠ cached_filepath suffix "abc" src) by discriminate.
  assert (H3 : 1000000 <= 0 + timedelta_hours (cache_duration_hours fresh))
    by (vm_compute; discriminate).
  destruct (cache_lookup_after_store suffix fresh "abc" src 0 1000000)
    as (Hstore & Habsent & _).
  destruct (Hstore H1 H2 H3) as [Hp Hget].
  destruct (cache_lookup_after_store suffix stored "abc" src (day + 1) 0)
    as (_ & _ & Hexpired & _).
  destruct (cache_lookup_after_store suffix file_lost "abc" src 0 0)
    as (_ & _ & _ & Hlost).
  split; [exact H1 |]. split; [exact H2 |]. split; [exact H3 |].
  split; [exact Hp |].
  split; [fold stored in Hget; rewrite Hget; reflexivity |].
  split; [apply Habsent; reflexivity |].
  assert (He : get_cached_screenshot stored "abc" (day + 1) =
               (None, mk 24 (delete "abc" (cache_index stored))
                         (files stored ∖ {["cache/abc.png"]}))).
  { apply (Hexpired (mk_entry "cache/abc.png" 0 src)).
    - reflexivity.
    - unfold stored, fresh. cbn. set_solver.
    - vm_compute. reflexivity. }
  assert (Hl : get_cached_screenshot file_lost "abc" 0 =
               (None, mk 24 (delete "abc" (cache_index file_lost)) (files file_lost))).
  { apply (Hlost (mk_entry "cache/abc.png" 0 src)).
    - reflexivity.
    - unfold file_lost. cbn. set_solver. }
  rewrite He, Hl. cbn [fst snd cache_index files].
  split; [reflexivity |]. split; [apply lookup_delete_eq |].
  split; [intros [_ Hn]%elem_of_difference; apply Hn; by apply elem_of_singleton |].
  split; [reflexivity | apply lookup_delete_eq].
Defined.

(** C9 (as the code has it).  Neither loader raises.  Each yields the empty
    dictionary when the file is present but cannot be opened, read or
    parsed; [_load_cache_index] also when the file is absent, where
    [load_jobs] keeps the table it had.  When the text parses, each yields
    the parsed value as it is. *)
Theorem load_index_never_raises (f : file_state) (jobs : json) :
  (exists v, _load_cache_index f = Ok v) /\
  (exists v, WebhookService.load_jobs jobs f = Ok v) /\
  _load_cache_index Missing = Ok (JDict []) /\
  _load_cache_index Unreadable = Ok (JDict []) /\
  _load_cache_index Unparsable = Ok (JDict []) /\
  (forall v, _load_cache_index (Parses v) = Ok v) /\
  WebhookService.load_jobs jobs Missing = Ok jobs /\
  WebhookService.load_jobs jobs Unreadable = Ok (JDict []) /\
  WebhookService.load_jobs jobs Unparsable = Ok (JDict []) /\
  (forall v, WebhookService.load_jobs jobs (Parses v) = Ok v).
Proof.
  split; [destruct f; eexists; reflexivity |].
  split; [destruct f; eexists; reflexivity |].
  repeat split.
Qed.

(** C9 as stated fails: an index file whose text is the JSON array [[]]
    parses, and both loaders yield that list, which is not a map. *)
Lemma load_index_yields_non_dict :
  _load_cache_index (Parses (JList [])) = Ok (JList []) /\
  WebhookService.load_jobs (JDict []) (Parses (JList [])) = Ok (JList []) /\
  is_dict (JList []) = false.
Proof. repeat split. Qed.

End CacheServiceSpec.

Module WebhookServiceSpec.
Import WebhookService.

Lemma step_snoc_final jobs evs ev :
  final jobs (evs ++ [ev]) = fst (step (final jobs evs) ev).
Proof. unfold final. by rewrite fold_left_app. Qed.

Lemma final_cons jobs ev evs :
  final jobs (ev :: evs) = final (fst (step jobs ev)) evs.
Proof. done. Qed.

(** An update of a job that is present: the stored status is the one given,
    and nothing but status, time stamp, result and error changes. *)
Lemma step_target jobs j job st r e now :
  jobs !! j = Some job ->
  exists job',
    fst (step jobs (now, UpdateJobStatus j st r e)) = <[j := job']> jobs /\
    status job' = st /\
    webhook_url job' = webhook_url job.
Proof.
  intros Hj. cbn [step]. unfold update_job_status. rewrite Hj.
  eexists. split.
  - destruct (is_terminal st); reflexivity.
  - destruct (truthy_opt r), (truthy_opt e); done.
Qed.

(** An update leaves every other job as it is. *)
Lemma step_other jobs ev j :
  target (snd ev) ≠ j -> fst (step jobs ev) !! j = jobs !! j.
Proof.
  destruct ev as [now [j' st r e]]. cbn [snd target]. intros Hne.
  cbn [step]. unfold update_job_status.
  destruct (jobs !! j') as [job' |] eqn:Hj'; [| done].
  destruct (is_terminal st); cbn [fst]; by rewrite lookup_insert_ne.
Qed.

(** C10.  An update of a job id that is not in the table returns [False],
    leaves the table as it is and starts no delivery. *)
Theorem update_unknown_job_noop
    (jobs : gmap string Job) (j status : string) (result error : option string)
    (now : Z) :
  jobs !! j = None ->
  update_job_status jobs j status result error now = (false, jobs, []).
Proof. intros Hj. unfold update_job_status. by rewrite Hj. Qed.

Lemma update_unknown_job_noop_witness :
  one_job !! "job-2" = None /\
  update_job_status one_job "job-2" "completed" (Some "shot.png") None 3000
    = (false, one_job, []).
Proof.
  assert (H : one_job !! "job-2" = None) by (vm_compute; reflexivity).
  split; [exact H |].
  exact (update_unknown_job_noop one_job "job-2" "completed" (Some "shot.png") None 3000 H).
Defined.

Lemma status_log_cons jobs ev evs j :
  status_log jobs (ev :: evs) j =
  get_status (fst (step jobs ev)) j :: status_log (fst (step jobs ev)) evs j.
Proof. done. Qed.

Lemma status_log_app jobs evs1 evs2 j :
  status_log jobs (evs1 ++ evs2) j =
  status_log jobs evs1 j ++ status_log (final jobs evs1) evs2 j.
Proof.
  revert jobs. induction evs1 as [|ev evs1 IH]; intros jobs; [done |].
  rewrite <- app_comm_cons, !status_log_cons, IH. done.
Qed.

Lemma final_app jobs evs1 evs2 :
  final jobs (evs1 ++ evs2) = final (final jobs evs1) evs2.
Proof. unfold final. apply fold_left_app. Qed.

Lemma updates_of_cons ev evs j :
  updates_of (ev :: evs) j =
  (if bool_decide (target (snd ev) = j) then [snd ev] else []) ++ updates_of evs j.
Proof. unfold updates_of. cbn [List.filter]. by case_bool_decide. Qed.

(** A stretch of the run without an update of [j] reads the same status at
    every poll and leaves the record of [j] as it is. *)
Lemma untargeted_stretch evs jobs j :
  updates_of evs j = [] ->
  status_log jobs evs j = replicate (length evs) (get_status jobs j) /\
  final jobs evs !! j = jobs !! j.
Proof.
  revert jobs. induction evs as [|ev evs IH]; intros jobs Hnone; [done |].
  rewrite updates_of_cons in Hnone. case_bool_decide as Ht; [done |].
  cbn [app] in Hnone. destruct (IH (fst (step jobs ev)) Hnone) as [Hlog Hfin].
  pose proof (step_other jobs ev j Ht) as Hsame.
  rewrite status_log_cons, final_cons, Hlog, Hfin.
  unfold get_status. rewrite Hsame. done.
Qed.

(** The first update of [j] in a run splits the run around it. *)
Lemma updates_of_cons_inv evs j u us :
  updates_of evs j = u :: us ->
  exists pre t post,
    evs = pre ++ (t, u) :: post /\ updates_of pre j = [] /\ updates_of post j = us.
Proof.
  induction evs as [|ev evs IH]; [done |].
  rewrite updates_of_cons. case_bool_decide as Ht.
  - intros [= Hu Hus]. exists [], (fst ev), evs.
    destruct ev as [t c]. cbn in *. by subst.
  - cbn [app]. intros Hus. destruct (IH Hus) as (pre & t & post & -> & Hpre & Hpost).
    exists (ev :: pre), t, post. repeat split; [| done].
    rewrite updates_of_cons. by rewrite bool_decide_eq_false_2.
Qed.

(** An update of [j] followed by a stretch without one: every poll reads the
    status that update stored. *)
Lemma updated_stretch jobs j job t st r e post :
  jobs !! j = Some job ->
  updates_of post j = [] ->
  status_log jobs ((t, UpdateJobStatus j st r e) :: post) j =
    replicate (S (length post)) (Some st) /\
  exists job',
    final jobs ((t, UpdateJobStatus j st r e) :: post) !! j = Some job' /\
    status job' = st /\ webhook_url job' = webhook_url job.
Proof.
  intros Hj Hpost.
  destruct (step_target jobs j job st r e t Hj) as (job' & Hstep & Hst & Hurl).
  destruct (untargeted_stretch post (fst (step jobs (t, UpdateJobStatus j st r e))) j Hpost)
    as [Hlog Hfin].
  assert (Hget : fst (step jobs (t, UpdateJobStatus j st r e)) !! j = Some job').
  { rewrite Hstep. apply lookup_insert_eq. }
  split.
  - rewrite status_log_cons, Hlog. unfold get_status. rewrite Hget. cbn. by rewrite Hst.
  - exists job'. by rewrite final_cons, Hfin.
Qed.

(** C2 (as the code has it).  [update_job_status] stores the status it is
    given, whatever the status before.  For a pending job whose only updates
    in a run are the two of its worker, polling after each call of the run
    reads pending, then processing at least once, then completed (when the
    job function returned) or failed (when it raised) to the end. *)
Theorem worker_status_sequence
    (jobs : gmap string Job) (evs : list (Z * call)) (j : string) (job : Job)
    (outcome : pyres string) :
  jobs !! j = Some job ->
  (forall st r e now,
     get_status (fst (step jobs (now, UpdateJobStatus j st r e))) j = Some st) /\
  (status job = "pending" ->
   updates_of evs j = worker j outcome ->
   exists n1 n2 n3,
     status_log jobs evs j =
       replicate n1 (Some "pending") ++
       replicate (S n2) (Some "processing") ++
       replicate (S n3) (Some (match outcome with
                               | Ok _ => "completed"
                               | Raise _ => "failed"
                               end))).
Proof.
  intros Hj. split.
  { intros st r e now.
    destruct (step_target jobs j job st r e now Hj) as (job' & -> & Hst & _).
    unfold get_status. rewrite lookup_insert_eq. cbn. by rewrite Hst. }
  intros Hpending Hworker.
  unfold worker in Hworker.
  destruct (updates_of_cons_inv _ _ _ _ Hworker) as (pre & t1 & rest & -> & Hpre & Hrest).
  destruct (updates_of_cons_inv _ _ _ _ Hrest) as (mid & t2 & post & -> & Hmid & Hpost).
  destruct (untargeted_stretch pre jobs j Hpre) as [Hlog0 Hfin0].
  rewrite Hj in Hfin0.
  set (term := match outcome with Ok _ => "completed" | Raise _ => "failed" end).
  set (u2 := match outcome with
             | Ok result => UpdateJobStatus j "completed" (Some result) None
             | Raise e => UpdateJobStatus j "failed" None (Some (str_exn e))
             end) in *.
  assert (Hu2 : exists r e, u2 = UpdateJobStatus j term r e).
  { unfold u2, term. destruct outcome; eauto. }
  destruct Hu2 as (r2 & e2 & Hu2). rewrite Hu2 in *. clear Hu2.
  exists (length pre), (length mid), (length post).
  rewrite status_log_app, Hlog0.
  change ((t1, UpdateJobStatus j "processing" None None) :: mid ++ (t2, UpdateJobStatus j term r2 e2) :: post)
    with (((t1, UpdateJobStatus j "processing" None None) :: mid) ++ (t2, UpdateJobStatus j term r2 e2) :: post).
  rewrite status_log_app.
  destruct (updated_stretch (final jobs pre) j job t1 "processing" None None mid Hfin0 Hmid)
    as (Hlog1 & job1 & Hfin1 & _).
  rewrite Hlog1.
  destruct (updated_stretch _ j job1 t2 term r2 e2 post Hfin1 Hpost) as (Hlog2 & _).
  rewrite Hlog2. unfold get_status. rewrite Hj. cbn [fmap option_fmap option_map].
  by rewrite Hpending.
Qed.

(** The run of one worker over the table of one pending job. *)
Lemma worker_status_sequence_witness :
  one_job !! "job-1" <> None /\
  updates_of one_worker_run "job-1" = worker "job-1" (Ok "shot.png") /\
  exists n1 n2 n3,
    status_log one_job one_worker_run "job-1" =
      replicate n1 (Some "pending") ++ replicate (S n2) (Some "processing") ++
      replicate (S n3) (Some "completed").
Proof.
  destruct (one_job !! "job-1") as [job |] eqn:Hj; [| vm_compute in Hj; discriminate].
  assert (Hp : status job = "pending")
    by (vm_compute in Hj; injection Hj as <-; reflexivity).
  assert (Hw : updates_of one_worker_run "job-1" = worker "job-1" (Ok "shot.png"))
    by reflexivity.
  split; [discriminate |]. split; [exact Hw |].
  exact (proj2 (worker_status_sequence one_job one_worker_run "job-1" job
                  (Ok "shot.png") Hj) Hp Hw).
Defined.

(** C2 as stated fails: further updates of a completed job are stored like
    any other, so a poll reads pending after completed; and an update may
    take a pending job straight to completed. *)
Lemma status_regresses_after_terminal :
  status_log one_job repeated_run "job-1" =
    [Some "processing"; Some "completed"; Some "completed"; Some "pending"] /\
  get_status one_job "job-1" = Some "pending" /\
  status_log one_job [(2000, UpdateJobStatus "job-1" "completed" (Some "shot.png") None)]
             "job-1" = [Some "completed"].
Proof. vm_compute. repeat split. Qed.

Lemma trigger_webhook_ids jobs j d :
  d ∈ trigger_webhook jobs j -> d_job_id d = j.
Proof.
  unfold trigger_webhook. intros Hd.
  repeat case_match; try (by apply elem_of_nil in Hd).
  apply list_elem_of_singleton in Hd. by subst.
Qed.

(** The deliveries a call starts carry the job id the call addresses. *)
Lemma step_started_ids jobs ev d :
  d ∈ snd (step jobs ev) -> d_job_id d = target (snd ev).
Proof.
  destruct ev as [now [j st r e]]. cbn [step snd target].
  unfold update_job_status.
  destruct (jobs !! j); [| by intros ?%elem_of_nil].
  destruct (is_terminal st); cbn [snd]; [| by intros ?%elem_of_nil].
  apply trigger_webhook_ids.
Qed.

(** An update of a job with a webhook target starts one delivery when the
    new status is terminal and none otherwise. *)
Lemma step_started_target jobs j job st r e now :
  jobs !! j = Some job ->
  truthy_opt (webhook_url job) = true ->
  length (snd (step jobs (now, UpdateJobStatus j st r e))) =
    if is_terminal st then 1%nat else 0%nat.
Proof.
  intros Hj Hurl. cbn [step]. unfold update_job_status. rewrite Hj.
  destruct (is_terminal st); cbn [snd]; [| done].
  unfold trigger_webhook. rewrite lookup_insert_eq.
  assert (Hsame : forall job0, webhook_url job0 = webhook_url job ->
    length (match webhook_url job0 with
            | None => []
            | Some webhook_url =>
                if negb (truthy_str webhook_url) then []
                else [mk_delivery webhook_url
                        (mk_payload j (job_type job0) (status job0) (created_at job0)
                                    (updated_at job0) (result job0) (error job0))
                        (webhook_secret job0) j]
            end) = 1%nat).
  { intros job0 ->. destruct (webhook_url job) as [u |]; [| done].
    cbn in Hurl. by rewrite Hurl. }
  apply Hsame. destruct (truthy_opt r), (truthy_opt e); done.
Qed.

Lemma webhooks_started_cons jobs ev evs j :
  webhooks_started jobs (ev :: evs) j =
  List.filter (fun d => bool_decide (d_job_id d = j)) (snd (step jobs ev)) ++
  webhooks_started (fst (step jobs ev)) evs j.
Proof. unfold webhooks_started. cbn [run map concat]. apply List.filter_app. Qed.

Lemma filter_all {A} (f : A -> bool) l :
  (forall x, x ∈ l -> f x = true) -> List.filter f l = l.
Proof.
  induction l as [|x l IH]; intros H; [done |]. cbn.
  rewrite (H x) by left. rewrite IH; [done |]. intros y Hy. apply H. by right.
Qed.

Lemma filter_none {A} (f : A -> bool) l :
  (forall x, x ∈ l -> f x = false) -> List.filter f l = [].
Proof.
  induction l as [|x l IH]; intros H; [done |]. cbn.
  rewrite (H x) by left. apply IH. intros y Hy. apply H. by right.
Qed.

Lemma started_per_terminal_update evs jobs j job :
  jobs !! j = Some job ->
  truthy_opt (webhook_url job) = true ->
  length (webhooks_started jobs evs j) = length (terminal_updates evs j).
Proof.
  revert jobs job. induction evs as [|ev evs IH]; intros jobs job Hj Hurl; [done |].
  rewrite webhooks_started_cons, length_app.
  unfold terminal_updates. cbn [List.filter]. fold (terminal_updates evs j).
  destruct (decide (target (snd ev) = j)) as [Ht | Ht].
  - destruct ev as [now [j' st r e]]. cbn [snd target new_status] in *. subst j'.
    rewrite bool_decide_eq_true_2 by done. cbn [andb].
    destruct (step_target jobs j job st r e now Hj) as (job' & Hstep & _ & Hurl').
    rewrite filter_all.
    2:{ intros d Hd. apply bool_decide_eq_true_2.
        by apply (step_started_ids jobs (now, UpdateJobStatus j st r e)). }
    rewrite (step_started_target jobs j job st r e now Hj Hurl).
    rewrite (IH _ job').
    + by destruct (is_terminal st).
    + rewrite Hstep. apply lookup_insert_eq.
    + by rewrite Hurl'.
  - rewrite bool_decide_eq_false_2 by done. cbn [andb].
    rewrite filter_none.
    2:{ intros d Hd. apply bool_decide_eq_false_2.
        rewrite (step_started_ids jobs ev d Hd). done. }
    rewrite (IH _ job); [done | | done].
    by rewrite step_other.
Qed.

Lemma terminal_updates_of evs j :
  length (terminal_updates evs j) =
  length (List.filter (fun c => is_terminal (new_status c)) (updates_of evs j)).
Proof.
  induction evs as [|ev evs IH]; [done |].
  rewrite updates_of_cons. unfold terminal_updates. cbn [List.filter].
  fold (terminal_updates evs j).
  case_bool_decide; cbn [andb app List.filter]; [| done].
  destruct (is_terminal (new_status (snd ev))); cbn [length]; by rewrite IH.
Qed.

(** C3 (as the code has it).  For a job with a webhook target, every update
    to completed or failed starts one delivery and no other call starts one:
    over a run, the deliveries started for the job are as many as its
    terminal updates.  When the only updates of the job are the two of its
    worker, that is exactly one delivery. *)
Theorem webhook_per_terminal_update
    (jobs : gmap string Job) (evs : list (Z * call)) (j : string) (job : Job) :
  jobs !! j = Some job ->
  truthy_opt (webhook_url job) = true ->
  length (webhooks_started jobs evs j) = length (terminal_updates evs j) /\
  (forall outcome,
     updates_of evs j = worker j outcome ->
     length (webhooks_started jobs evs j) = 1%nat).
Proof.
  intros Hj Hurl.
  pose proof (started_per_terminal_update evs jobs j job Hj Hurl) as Hcount.
  split; [done |].
  intros outcome Hworker.
  rewrite Hcount, terminal_updates_of, Hworker.
  by destruct outcome.
Qed.

(** One worker, one delivery. *)
Lemma webhook_per_terminal_update_witness :
  one_job !! "job-1" <> None /\
  length (webhooks_started one_job one_worker_run "job-1") = 1%nat.
Proof.
  destruct (one_job !! "job-1") as [job |] eqn:Hj; [| vm_compute in Hj; discriminate].
  assert (Hurl : truthy_opt (webhook_url job) = true)
    by (vm_compute in Hj; injection Hj as <-; reflexivity).
  split; [discriminate |].
  exact (proj2 (webhook_per_terminal_update one_job one_worker_run "job-1" job Hj Hurl)
               (Ok "shot.png") eq_refl).
Defined.

(** C3 as stated fails: the second report of the completion of the same job
    starts a second delivery. *)
Lemma webhook_started_twice :
  length (terminal_updates repeated_run "job-1") = 2%nat /\
  length (webhooks_started one_job repeated_run "job-1") = 2%nat /\
  map d_job_id (webhooks_started one_job repeated_run "job-1") = ["job-1"; "job-1"].
Proof. vm_compute. repeat split. Qed.

Section DeliveryLoop.
Context {D : Type}.
Variable post : nat -> http_outcome.
Variables (jobs : gmap string Job) (url : string) (payload : D).
Variables (headers : list (string * string)) (job_id : string).
Variables (max_retries now : Z).

Local Abbreviation loop := (send_loop post jobs url payload headers job_id max_retries now).

Lemma posts_post u (p : D) h (rest : list (io D)) :
  posts (Post u p h :: rest) = Post u p h :: posts rest.
Proof. done. Qed.

Lemma sleeps_post u (p : D) h (rest : list (io D)) :
  sleeps (Post u p h :: rest) = sleeps rest.
Proof. done. Qed.

Lemma posts_backoff a (rest : list (io D)) :
  posts (backoff a max_retries ++ rest) = posts rest.
Proof. unfold backoff. by case_match. Qed.

Lemma sleeps_backoff a (rest : list (io D)) :
  sleeps (backoff a max_retries ++ rest) =
  (if Z.of_nat a <? max_retries - 1 then [2 ^ Z.of_nat a] else []) ++ sleeps rest.
Proof. unfold backoff. by case_match. Qed.

Lemma not_200 a code : post a = Response code -> post a <> Response 200 -> (code =? 200) = false.
Proof. intros Hp Hne. apply Z.eqb_neq. intros ->. by apply Hne. Qed.

(** No more requests than attempts. *)
Lemma send_loop_posts_le atts :
  (length (posts (fst (loop atts))) <= length atts)%nat.
Proof.
  induction atts as [|a atts IH]; [done |].
  cbn [send_loop].
  destruct (post a) as [code |].
  - destruct (code =? 200).
    + destruct (jobs !! job_id); cbn [fst]; rewrite posts_post; cbn [length].
      * cbn. lia.
      * rewrite posts_backoff. lia.
    + cbn [fst]. rewrite posts_post. cbn [length]. lia.
  - cbn [fst]. rewrite posts_post, posts_backoff. cbn [length]. lia.
Qed.

(** Without a 200 the loop uses every attempt and falls through. *)
Lemma send_loop_exhausted atts :
  (forall a, a ∈ atts -> post a <> Response 200) ->
  snd (loop atts) = Exhausted /\ length (posts (fst (loop atts))) = length atts.
Proof.
  induction atts as [|a atts IH]; intros Hno; [done |].
  destruct IH as [IHx IHn]; [intros b Hb; apply Hno; by right |].
  cbn [send_loop].
  destruct (post a) as [code |] eqn:Hp.
  - rewrite (not_200 a code Hp) by (apply Hno; left).
    cbn [fst snd]. rewrite posts_post. cbn [length]. by rewrite IHx, IHn.
  - cbn [fst snd]. rewrite posts_post, posts_backoff. cbn [length].
    by rewrite IHx, IHn.
Qed.

(** The first 200 ends the loop: the job is marked delivered and nothing
    is requested after it. *)
Lemma send_loop_delivered job pre a rest :
  jobs !! job_id = Some job ->
  (forall b, b ∈ pre -> post b <> Response 200) ->
  post a = Response 200 ->
  snd (loop (pre ++ a :: rest)) = Returned (<[job_id := set_delivered job now]> jobs) /\
  length (posts (fst (loop (pre ++ a :: rest)))) = S (length pre).
Proof.
  intros Hj. induction pre as [|b pre IH]; intros Hno Ha.
  - cbn [app send_loop]. rewrite Ha. cbn [Z.eqb Pos.eqb]. by rewrite Hj.
  - destruct IH as [IHx IHn]; [intros c Hc; apply Hno; by right | done |].
    cbn [app send_loop].
    destruct (post b) as [code |] eqn:Hp.
    + rewrite (not_200 b code Hp) by (apply Hno; left).
      cbn [fst snd]. rewrite posts_post. cbn [length]. by rewrite IHx, IHn.
    + cbn [fst snd]. rewrite posts_post, posts_backoff. cbn [length].
      by rewrite IHx, IHn.
Qed.

(** When every request raises, each attempt but those from
    [max_retries - 1] on is followed by a sleep of [2 ** attempt]. *)
Lemma send_loop_sleeps atts :
  (forall a, a ∈ atts -> post a = RequestException) ->
  sleeps (fst (loop atts)) =
  map (fun a => 2 ^ Z.of_nat a)
      (List.filter (fun a => Z.of_nat a <? max_retries - 1) atts).
Proof.
  induction atts as [|a atts IH]; intros Hall; [done |].
  cbn [send_loop]. rewrite (Hall a) by left.
  cbn [fst]. rewrite sleeps_post.
  rewrite sleeps_backoff, IH by (intros b Hb; apply Hall; by right).
  cbn [List.filter]. by destruct (Z.of_nat a <? max_retries - 1).
Qed.
(** What the delivery does at one attempt: the request, and after a
    transport error on an attempt before [max_retries - 1] a sleep of
    [2 ** attempt] seconds. *)
Local Abbreviation at_attempt a :=
  (Post url payload headers ::
   match post a with
   | RequestException =>
       if Z.of_nat a <? max_retries - 1 then [Sleep (2 ^ Z.of_nat a)] else []
   | Response _ => []
   end).

(** The trace of the loop, for a job that is in the table: the attempts
    made, each followed by its sleep if it has one, and nothing else. *)
Lemma send_loop_trace job atts :
  jobs !! job_id = Some job ->
  fst (loop atts)
  = flat_map (fun a => at_attempt a) (take (length (posts (fst (loop atts)))) atts).
Proof.
  intros Hj. induction atts as [|a atts IH]; [done |].
  cbn [send_loop].
  destruct (post a) as [code |] eqn:Hp.
  - destruct (code =? 200).
    + rewrite Hj. cbn [fst]. rewrite posts_post. cbn [posts List.filter length take flat_map].
      by rewrite Hp.
    + cbn [fst]. rewrite posts_post. cbn [length take flat_map]. rewrite Hp.
      cbn [app]. by rewrite <- IH.
  - cbn [fst]. rewrite posts_post, posts_backoff. cbn [length take flat_map]. rewrite Hp.
    cbn [app]. unfold backoff. rewrite <- IH.
    by destruct (Z.of_nat a <? max_retries - 1).
Qed.
End DeliveryLoop.

Lemma sleeps_flat_map {D : Type} (f : nat -> list (io D)) (atts : list nat) :
  sleeps (flat_map f atts) = flat_map (fun a => sleeps (f a)) atts.
Proof.
  induction atts as [|a atts IH]; [done |].
  cbn [flat_map]. unfold sleeps in *. by rewrite omap_app, IH.
Qed.

Lemma filter_before_last (m : Z) (s k : nat) :
  Z.of_nat (s + k) <= m ->
  List.filter (fun a => Z.of_nat a <? m) (seq s k) = seq s k.
Proof.
  intros Hm. apply filter_all. intros a Ha. apply elem_of_seq in Ha.
  apply Z.ltb_lt. lia.
Qed.

(** The attempts that are followed by a sleep are all but the last. *)
Lemma attempts_with_backoff (max_retries : Z) :
  List.filter (fun a => Z.of_nat a <? max_retries - 1) (seq 0 (Z.to_nat max_retries)) =
  seq 0 (Z.to_nat max_retries - 1).
Proof.
  destruct (Z.to_nat max_retries) as [|n] eqn:Hn; [done |].
  replace (S n - 1)%nat with n by lia.
  rewrite seq_S, List.filter_app, filter_before_last by lia.
  cbn [List.filter Nat.add]. destruct (Z.of_nat n <? max_retries - 1) eqn:E; [lia |].
  by rewrite app_nil_r.
Qed.

(** C5 (as the code has it).  A delivery makes at most [max_retries]
    requests (3 by default).  The first response with status 200 ends it:
    the job is marked delivered and no request follows.  Every other
    response and every transport error is a failed attempt; when all
    [max_retries] attempts fail the job is marked [webhook_failed] with
    [attempts = max_retries] and nothing more is requested.  Whatever the
    target answers, the delivery is the sequence of its requests, one per
    attempt made, with a sleep of [2 ** attempt] seconds right after every
    request that ends in a transport error on an attempt (counted from 0)
    other than the last of the [max_retries], and with no other sleep; so
    when every request ends in a transport error the sleeps are
    1, 2, 4, ... *)
Theorem send_webhook_retry {D : Type}
    (json_dumps_sorted : D -> string) (hmac_sha256_hexdigest : string -> string -> string)
    (post : nat -> http_outcome) (jobs : gmap string Job) (url : string) (payload : D)
    (secret : option string) (job_id : string) (job : Job)
    (max_retries : Z) (time_now : Q) (now : Z) :
  jobs !! job_id = Some job ->
  let r := _send_webhook json_dumps_sorted hmac_sha256_hexdigest post jobs url payload
                         secret job_id max_retries time_now now in
  let headers := headers_of json_dumps_sorted hmac_sha256_hexdigest payload secret
                            job_id time_now in
  let n := Z.to_nat max_retries in
  (length (posts (fst r)) <= n)%nat /\
  (forall i, (i < n)%nat -> post i = Response 200 ->
     (forall k, (k < i)%nat -> post k <> Response 200) ->
     length (posts (fst r)) = S i /\
     snd r = Ok (<[job_id := set_delivered job now]> jobs)) /\
  ((forall k, (k < n)%nat -> post k <> Response 200) ->
     length (posts (fst r)) = n /\
     snd r = Ok (<[job_id := set_failed job max_retries]> jobs)) /\
  fst r = flat_map
            (fun attempt =>
               Post url payload headers ::
               match post attempt with
               | RequestException =>
                   if Z.of_nat attempt <? max_retries - 1
                   then [Sleep (2 ^ Z.of_nat attempt)] else []
               | Response _ => []
               end)
            (seq 0 (length (posts (fst r)))) /\
  sleeps (fst r)
  = map (fun attempt => 2 ^ Z.of_nat attempt)
        (List.filter
           (fun attempt =>
              match post attempt with
              | RequestException => Z.of_nat attempt <? max_retries - 1
              | Response _ => false
              end)
           (seq 0 (length (posts (fst r))))) /\
  ((forall k, (k < n)%nat -> post k = RequestException) ->
     sleeps (fst r) = map (fun a => 2 ^ Z.of_nat a) (seq 0 (n - 1))).
Proof.
  intros Hj r headers n.
  set (l := send_loop post jobs url payload headers job_id max_retries now (seq 0 n)).
  assert (Hr : r = match snd l with
                   | Returned jobs' => (fst l, Ok jobs')
                   | Exhausted => (fst l, Ok (<[job_id := set_failed job max_retries]> jobs))
                   end).
  { unfold r, _send_webhook. fold headers. fold n. fold l.
    destruct l as [trace [jobs' |]]; cbn [fst snd]; [done | by rewrite Hj]. }
  assert (Hfst : fst r = fst l) by (rewrite Hr; by destruct (snd l)).
  assert (Hle : (length (posts (fst r)) <= n)%nat).
  { rewrite Hfst. unfold l.
    etrans; [apply send_loop_posts_le |]. by rewrite length_seq. }
  assert (Htrace : fst r = flat_map
            (fun attempt =>
               Post url payload headers ::
               match post attempt with
               | RequestException =>
                   if Z.of_nat attempt <? max_retries - 1
                   then [Sleep (2 ^ Z.of_nat attempt)] else []
               | Response _ => []
               end)
            (seq 0 (length (posts (fst r))))).
  { rewrite Hfst at 1. unfold l at 1.
    rewrite (send_loop_trace post jobs url payload headers job_id max_retries now job) by done.
    fold l. rewrite <- Hfst. rewrite take_seq. by rewrite Nat.min_l by done. }
  split; [exact Hle |]. split; [| split; [| split; [exact Htrace | split]]].
  - intros i Hi H200 Hbefore.
    assert (Hsplit : seq 0 n = seq 0 i ++ i :: seq (S i) (n - S i)).
    { replace n with (i + S (n - S i))%nat at 1 by lia.
      by rewrite seq_app, <- cons_seq. }
    destruct (send_loop_delivered post jobs url payload headers job_id max_retries now
                job (seq 0 i) i (seq (S i) (n - S i)) Hj) as [Hx Hn]; [| done |].
    { intros b Hb. apply elem_of_seq in Hb. apply Hbefore. lia. }
    rewrite <- Hsplit in Hx, Hn. fold l in Hx, Hn.
    rewrite Hfst, Hn, length_seq. split; [done |]. by rewrite Hr, Hx.
  - intros Hno.
    destruct (send_loop_exhausted post jobs url payload headers job_id max_retries now
                (seq 0 n)) as [Hx Hn].
    { intros a Ha. apply elem_of_seq in Ha. apply Hno. lia. }
    fold l in Hx, Hn. rewrite Hfst, Hn, length_seq. split; [done |]. by rewrite Hr, Hx.
  - rewrite Htrace at 1. rewrite sleeps_flat_map.
    generalize (seq 0 (length (posts (fst r)))). intros atts.
    induction atts as [|a atts IH]; [done |].
    cbn [flat_map List.filter]. rewrite IH. rewrite sleeps_post.
    destruct (post a) as [code |]; [done |].
    by destruct (Z.of_nat a <? max_retries - 1).
  - intros Hall. rewrite Hfst. unfold l.
    rewrite send_loop_sleeps.
    + unfold n. by rewrite attempts_with_backoff.
    + intros a Ha. apply elem_of_seq in Ha. apply Hall. lia.
Qed.

(** A target that is down once and then answers 200: two requests with a
    sleep of 1 s between them, the job is marked delivered.  A target that
    is always down: three requests, sleeps of 1 s and 2 s between them, the
    job is marked failed. *)
Lemma send_webhook_retry_witness :
  let send target :=
    _send_webhook payload_repr hex_keyed target one_job
                  "https://hooks.example.com/cb" one_payload (Some "s3cret")
                  "job-1" default_max_retries (17 # 10) 5000 in
  one_job !! "job-1" <> None /\
  second_try 1 = Response 200 /\
  second_try 0 <> Response 200 /\
  length (posts (fst (send second_try))) = 2%nat /\
  sleeps (fst (send second_try)) = [1] /\
  (exists jobs', snd (send second_try) = Ok jobs' /\
     webhook_delivered <$> jobs' !! "job-1" = Some true) /\
  length (posts (fst (send always_down))) = 3%nat /\
  sleeps (fst (send always_down)) = [1; 2] /\
  (exists jobs', snd (send always_down) = Ok jobs' /\
     webhook_failed <$> jobs' !! "job-1" = Some true /\
     attempts <$> jobs' !! "job-1" = Some 3).
Proof.
  intros send.
  destruct (one_job !! "job-1") as [job |] eqn:Hj; [| vm_compute in Hj; discriminate].
  split; [discriminate |]. split; [reflexivity |]. split; [discriminate |].
  destruct (send_webhook_retry payload_repr hex_keyed second_try one_job
              "https://hooks.example.com/cb" one_payload (Some "s3cret") "job-1" job
              default_max_retries (17 # 10) 5000 Hj) as (_ & Hfirst & _ & _ & Hsleeps & _).
  destruct (send_webhook_retry payload_repr hex_keyed always_down one_job
              "https://hooks.example.com/cb" one_payload (Some "s3cret") "job-1" job
              default_max_retries (17 # 10) 5000 Hj) as (_ & _ & Hfail & _ & _ & Hsleep).
  destruct (Hfirst 1%nat) as [Hn Hd].
  { vm_compute. lia. }
  { reflexivity. }
  { intros k Hk. assert (k = 0%nat) as -> by lia. discriminate. }
  destruct Hfail as [Hn3 Hf]; [intros k _; discriminate |].
  specialize (Hsleep (fun k _ => eq_refl)).
  split; [exact Hn |].
  split; [rewrite Hn in Hsleeps; exact Hsleeps |].
  split.
  { eexists. split; [exact Hd |]. by rewrite lookup_insert_eq. }
  split; [exact Hn3 |].
  split; [exact Hsleep |].
  eexists. split; [exact Hf |]. by rewrite !lookup_insert_eq.
Defined.

(** C5 as stated fails.  A target that answers 204, a 2xx status, to every
    request is asked three times and the job is marked failed, not
    delivered; and after a transport error the first sleep is 1 second, not
    2. *)
Lemma send_webhook_204_not_delivered :
  let r := _send_webhook payload_repr hex_keyed always_204 one_job
             "https://hooks.example.com/cb" one_payload (Some "s3cret")
             "job-1" default_max_retries (17 # 10) 5000 in
  let r' := _send_webhook payload_repr hex_keyed always_down one_job
              "https://hooks.example.com/cb" one_payload (Some "s3cret")
              "job-1" default_max_retries (17 # 10) 5000 in
  200 <= 204 < 300 /\
  length (posts (fst r)) = 3%nat /\
  (exists jobs', snd r = Ok jobs' /\
     webhook_delivered <$> jobs' !! "job-1" = Some false /\
     webhook_failed <$> jobs' !! "job-1" = Some true) /\
  sleeps (fst r') = [1; 2].
Proof.
  intros r r'. split; [lia |]. split; [reflexivity |]. split; [| reflexivity].
  eexists. split; [reflexivity |]. split; vm_compute; reflexivity.
Qed.

(** [hexlify] writes hexadecimal digits only. *)
Lemma hexlify_ascii s : is_ascii (hexlify s) = true.
Proof.
  induction s as [|c s IH]; [done |].
  unfold is_ascii in *. cbn [hexlify String.list_ascii_of_string forallb].
  rewrite IH.
  destruct c as [[] [] [] [] [] [] [] []]; reflexivity.
Qed.

Lemma tscmp_loop_spec lft rgt result reads :
  length lft = length rgt ->
  tscmp_loop lft rgt result reads
  = (result || negb (bool_decide (lft = rgt)), (reads + length rgt)%nat).
Proof.
  revert rgt result reads.
  induction lft as [|l lft IH]; intros [|r rgt] result reads Hlen;
    try discriminate; cbn [tscmp_loop length].
  - rewrite bool_decide_eq_true_2 by done. cbn [negb].
    by rewrite orb_false_r, Nat.add_0_r.
  - rewrite IH by (by injection Hlen). f_equal; [| lia].
    destruct (Ascii.eqb_spec l r) as [-> | Hne]; cbn [negb].
    + rewrite orb_false_r. do 2 f_equal. apply bool_decide_ext.
      split; [by intros -> | by intros [= ->]].
    + rewrite orb_true_r. cbn [orb].
      rewrite (bool_decide_eq_false_2 (l :: lft = r :: rgt)).
      * cbn [negb]. by rewrite orb_true_r.
      * intros [= ? ?]. by apply Hne.
Qed.

Lemma list_ascii_length s : length (String.list_ascii_of_string s) = String.length s.
Proof. induction s as [|c s IH]; [done |]. cbn. by rewrite IH. Qed.

Lemma list_ascii_inj a b :
  String.list_ascii_of_string a = String.list_ascii_of_string b -> a = b.
Proof.
  intros H. rewrite <- (String.string_of_list_ascii_of_string a).
  rewrite <- (String.string_of_list_ascii_of_string b). by rewrite H.
Qed.

(** The pass gives the answer of [a == b] and reads as many pairs as the
    second argument has characters, whatever the first is. *)
Lemma tscmp_spec a b : tscmp a b = (bool_decide (a = b), String.length b).
Proof.
  unfold tscmp.
  destruct (length (String.list_ascii_of_string a)
            =? length (String.list_ascii_of_string b))%nat eqn:Hlen.
  - apply Nat.eqb_eq in Hlen. rewrite tscmp_loop_spec by done.
    cbn [orb Nat.add]. rewrite negb_involutive, list_ascii_length. f_equal.
    apply bool_decide_ext. split; [apply list_ascii_inj | by intros ->].
  - apply Nat.eqb_neq in Hlen. rewrite tscmp_loop_spec by done.
    cbn [orb negb Nat.add]. rewrite list_ascii_length. f_equal.
    rewrite bool_decide_eq_false_2; [done |]. intros ->. by apply Hlen.
Qed.

Lemma compare_digest_timed_ascii a b :
  is_ascii a = true -> is_ascii b = true ->
  compare_digest_timed a b = Ok (bool_decide (a = b), String.length b).
Proof.
  intros Ha Hb. unfold compare_digest_timed. rewrite Ha, Hb. cbn [andb].
  by rewrite tscmp_spec.
Qed.

Lemma compare_digest_ascii a b :
  is_ascii a = true -> is_ascii b = true ->
  compare_digest a b = Ok (bool_decide (a = b)).
Proof.
  intros Ha Hb. unfold compare_digest. by rewrite compare_digest_timed_ascii.
Qed.



End WebhookServiceSpec.

(** * Further properties of the rate limiter *)

Module RateLimiterExtra.
Import RateLimiter RateLimiterSpec.

Lemma popleft_older_length cutoff dq :
  (length (popleft_older cutoff dq) <= length dq)%nat.
Proof.
  destruct (popleft_older_suffix cutoff dq) as [popped Heq].
  rewrite Heq at 2. rewrite length_app. lia.
Qed.

(** A deque whose head is not older than the cutoff is left as it is. *)
Lemma popleft_older_fixed cutoff dq :
  (forall ts rest, dq = ts :: rest -> (cutoff <= ts)%Q) ->
  popleft_older cutoff dq = dq.
Proof.
  destruct dq as [|ts rest]; [done |]. intros Hhead. cbn [popleft_older].
  assert (Qltb ts cutoff = false) as ->; [| done].
  apply Qltb_ge. by apply (Hhead ts rest).
Qed.

Lemma popleft_older_head cutoff dq ts rest :
  popleft_older cutoff dq = ts :: rest -> (cutoff <= ts)%Q.
Proof.
  destruct (popleft_older_split cutoff dq) as (_ & _ & _ & Hfront). apply Hfront.
Qed.

Lemma popleft_older_idem cutoff dq :
  popleft_older cutoff (popleft_older cutoff dq) = popleft_older cutoff dq.
Proof. apply popleft_older_fixed. intros ts rest. apply popleft_older_head. Qed.

(** On a deque in chronological order the loop keeps exactly the timestamps
    that are not older than the cutoff. *)
Lemma popleft_older_sorted_filter cutoff dq :
  StronglySorted Qle dq -> popleft_older cutoff dq = not_older cutoff dq.
Proof.
  induction dq as [|ts dq IH]; intros Hs; [done |].
  apply StronglySorted_inv in Hs as [Hs Hall].
  cbn [popleft_older not_older List.filter]. fold (not_older cutoff dq).
  destruct (Qltb ts cutoff) eqn:E; cbn [negb]; [by apply IH |].
  f_equal. apply Qltb_ge in E.
  clear IH Hs. induction dq as [|x dq IH]; [done |].
  apply Forall_cons in Hall as [Hx Hall].
  cbn [not_older List.filter]. fold (not_older cutoff dq).
  assert (Qltb x cutoff = false) as ->.
  { apply Qltb_ge. by apply Qle_trans with ts. }
  cbn [negb]. f_equal. by apply IH.
Qed.

Lemma cleanup_limits rl k now :
  requests_per_minute (_cleanup_old_requests rl k now) = requests_per_minute rl /\
  requests_per_hour (_cleanup_old_requests rl k now) = requests_per_hour rl.
Proof. done. Qed.

Lemma get_retry_after_state rl k now :
  snd (get_retry_after rl k now) = _cleanup_old_requests rl k now.
Proof. unfold get_retry_after. by repeat case_match. Qed.

Lemma cleanup_within_limits rl k now :
  within_limits rl -> within_limits (_cleanup_old_requests rl k now).
Proof.
  intros Hin k'. destruct (Hin k') as [Hm Hh].
  destruct (cleanup_limits rl k now) as [-> ->].
  destruct (decide (k = k')) as [<- | Hne].
  - rewrite cleanup_minute_eq, cleanup_hour_eq. unfold len in *.
    pose proof (popleft_older_length (now - 60)%Q (getitem (minute_requests rl) k)).
    pose proof (popleft_older_length (now - 3600)%Q (getitem (hour_requests rl) k)).
    lia.
  - by rewrite cleanup_minute_ne, cleanup_hour_ne.
Qed.

Lemma step_within_limits rl ev :
  within_limits rl -> within_limits (step rl ev).
Proof.
  intros Hin. destruct ev as [now [k | k | k]]; cbn [step].
  - pose proof (cleanup_within_limits rl k now Hin) as Hclean.
    destruct (check_rate_limit_cases rl k now)
      as [(_ & -> & _) | (_ & Hmin & Hhr & Hother & Hm & Hh)]; [done |].
    destruct (step_limits rl (now, CheckRateLimit k)) as [Hpm Hph]. cbn [step] in Hpm, Hph.
    intros k'. rewrite Hpm, Hph. destruct (decide (k = k')) as [<- | Hne].
    + rewrite Hmin, Hhr. unfold len in *. rewrite !length_app. cbn [length]. lia.
    + destruct (Hother k' Hne) as [-> ->]. apply Hin.
  - rewrite get_retry_after_state. by apply cleanup_within_limits.
  - by apply cleanup_within_limits.
Qed.

Lemma init_within_limits per_minute per_hour : within_limits (init per_minute per_hour).
Proof. intros k. unfold getitem, len. cbn. rewrite lookup_empty. cbn. lia. Qed.

Lemma within_limits_run rl0 evs :
  within_limits rl0 -> within_limits (run rl0 evs).
Proof.
  revert rl0. induction evs as [|ev evs IH]; intros rl0 Hin; [done |].
  change (run rl0 (ev :: evs)) with (run (step rl0 ev) evs).
  apply IH. by apply step_within_limits.
Qed.

(** X1.  The limiter never stores more timestamps for a key than the limit
    of the window: when no deque is over its limit before a run of calls,
    none is after it, for every key and whatever the clock readings; and
    the deques of a fresh limiter are within their limits after every run. *)
Theorem run_within_limits (rl0 : t) (evs : list (Q * call)) (per_minute per_hour : Z) :
  (within_limits rl0 -> within_limits (run rl0 evs)) /\
  within_limits (run (init per_minute per_hour) evs).
Proof.
  split; [apply within_limits_run |].
  apply within_limits_run, init_within_limits.
Qed.

Lemma run_within_limits_witness :
  within_limits minute_full /\
  len (getitem (minute_requests (run minute_full ten_checks)) "alice") <= 1.
Proof.
  assert (H : within_limits minute_full).
  { exact (proj2 (run_within_limits default_limiter
                  [ (0%Q, CheckRateLimit "alice"); (100%Q, CheckRateLimit "alice") ]
                  1 5)). }
  split; [exact H |].
  exact (proj1 (proj1 (run_within_limits minute_full ten_checks 1 5) H "alice")).
Defined.

Lemma remaining_state rl k now :
  snd (get_remaining_requests rl k now) = _cleanup_old_requests rl k now.
Proof. done. Qed.

(** Pruning again at the same reading changes nothing in the deques of the
    key, also after the reading itself was appended. *)
Lemma popleft_older_snoc_fixed (window now : Q) dq :
  (0 <= window)%Q ->
  popleft_older (now - window)%Q (popleft_older (now - window)%Q dq ++ [now]) =
  popleft_older (now - window)%Q dq ++ [now].
Proof.
  intros Hw. apply popleft_older_fixed. intros ts rest Heq.
  destruct (popleft_older (now - window)%Q dq) as [|ts' rest'] eqn:E.
  - injection Heq as <- _. lra.
  - injection Heq as Hts _. rewrite <- Hts.
    by apply (popleft_older_head _ dq ts' rest').
Qed.

Lemma remaining_value rl k now :
  fst (get_remaining_requests rl k now) =
  (Z.max 0 (requests_per_minute rl
            - len (popleft_older (now - 60)%Q (getitem (minute_requests rl) k))),
   Z.max 0 (requests_per_hour rl
            - len (popleft_older (now - 3600)%Q (getitem (hour_requests rl) k)))).
Proof.
  unfold get_remaining_requests. cbn [fst].
  by rewrite cleanup_minute_eq, cleanup_hour_eq.
Qed.

(** X2.  [get_remaining_requests] reports two numbers that are never
    negative, and [check_rate_limit] at the same clock reading admits exactly
    when both are positive; after an admitted check, both are one less. *)
Theorem remaining_agrees_with_check (rl : t) (k : string) (now : Q) :
  let remaining := fst (get_remaining_requests rl k now) in
  let r := check_rate_limit rl k now in
  0 <= fst remaining /\ 0 <= snd remaining /\
  (fst r = true <-> 0 < fst remaining /\ 0 < snd remaining) /\
  (fst r = true ->
   fst (get_remaining_requests (snd r) k now) = (fst remaining - 1, snd remaining - 1)).
Proof.
  intros remaining r. unfold remaining. rewrite !remaining_value. cbn [fst snd].
  split; [lia |]. split; [lia |].
  pose proof (check_rate_limit_cases rl k now) as Hcases. cbv zeta in Hcases.
  rewrite cleanup_minute_eq, cleanup_hour_eq in Hcases. fold r in Hcases.
  destruct Hcases as [(Hf & _ & Hfull) | (Ht & Hmin & Hhr & _ & Hm & Hh)].
  - split; [split; [congruence | lia] | congruence].
  - split; [split; [lia | done] |]. intros _.
    destruct (step_limits rl (now, CheckRateLimit k)) as [Hpm Hph].
    cbn [step] in Hpm, Hph. fold r in Hpm, Hph.
    rewrite Hpm, Hph, Hmin, Hhr, !popleft_older_snoc_fixed by lra.
    unfold len in *. rewrite !length_app. cbn [length]. f_equal; lia.
Qed.

(** The tenth check of a key at the default limits: one request is left
    in the minute and 51 in the hour before it, none and 50 after it. *)
Lemma remaining_agrees_with_check_witness :
  let rl := run default_limiter (take 11 ten_checks) in
  fst (get_remaining_requests rl "alice" 9%Q) = (1, 51) /\
  fst (check_rate_limit rl "alice" 9%Q) = true /\
  fst (get_remaining_requests (snd (check_rate_limit rl "alice" 9%Q)) "alice" 9%Q)
    = (0, 50).
Proof.
  intros rl.
  assert (Hrem : fst (get_remaining_requests rl "alice" 9%Q) = (1, 51))
    by (vm_compute; reflexivity).
  destruct (remaining_agrees_with_check rl "alice" 9%Q) as (_ & _ & Hiff & Hless).
  assert (Hadm : fst (check_rate_limit rl "alice" 9%Q) = true).
  { apply Hiff. rewrite Hrem. cbn. lia. }
  split; [exact Hrem |]. split; [exact Hadm |].
  rewrite (Hless Hadm), Hrem. reflexivity.
Defined.

(** X3.  Sliding window.  On deques in chronological order a check is
    admitted exactly when fewer than [requests_per_minute] stored timestamps
    lie within the last 60 seconds and fewer than [requests_per_hour] within
    the last 3600: timestamps that have left the window no longer count,
    wherever a minute or an hour boundary falls. *)
Theorem check_counts_the_window (rl : t) (k : string) (now : Q) :
  StronglySorted Qle (getitem (minute_requests rl) k) ->
  StronglySorted Qle (getitem (hour_requests rl) k) ->
  (fst (check_rate_limit rl k now) = true <->
   len (not_older (now - 60)%Q (getitem (minute_requests rl) k)) < requests_per_minute rl /\
   len (not_older (now - 3600)%Q (getitem (hour_requests rl) k)) < requests_per_hour rl).
Proof.
  intros Hms Hhs.
  pose proof (check_rate_limit_cases rl k now) as Hcases. cbv zeta in Hcases.
  rewrite cleanup_minute_eq, cleanup_hour_eq in Hcases.
  rewrite !popleft_older_sorted_filter in Hcases by done.
  destruct Hcases as [(Hf & _ & Hfull) | (Ht & _ & _ & _ & Hm & Hh)].
  - split; [congruence | lia].
  - done.
Qed.

(** After ten admitted checks at 0 s to 9 s the check at 10 s is denied and
    the check at 60.5 s, when the first timestamp has left the window, is
    admitted. *)
Lemma check_counts_the_window_witness :
  let rl := run default_limiter ten_checks in
  StronglySorted Qle (getitem (minute_requests rl) "alice") /\
  StronglySorted Qle (getitem (hour_requests rl) "alice") /\
  fst (check_rate_limit rl "alice" 10%Q) = false /\
  fst (check_rate_limit rl "alice" (121 # 2)) = true.
Proof.
  intros rl.
  assert (Hchr : chronological 0%Q ten_checks) by (cbn; repeat split; discriminate).
  destruct (run_in_order ten_checks default_limiter 0%Q Hchr
              (init_in_order 10 60 0%Q) "alice") as [[Hms _] [Hhs _]].
  fold rl in Hms, Hhs.
  split; [exact Hms |]. split; [exact Hhs |].
  split.
  - destruct (fst (check_rate_limit rl "alice" 10%Q)) eqn:E; [| reflexivity].
    apply (check_counts_the_window rl "alice" 10%Q Hms Hhs) in E as [E _].
    vm_compute in E. discriminate.
  - apply (check_counts_the_window rl "alice" (121 # 2) Hms Hhs).
    split; vm_compute; reflexivity.
Defined.

Lemma check_fst_value rl k now :
  fst (check_rate_limit rl k now) =
  negb ((len (popleft_older (now - 60)%Q (getitem (minute_requests rl) k))
           >=? requests_per_minute rl)
        || (len (popleft_older (now - 3600)%Q (getitem (hour_requests rl) k))
              >=? requests_per_hour rl)).
Proof.
  unfold check_rate_limit. rewrite cleanup_minute_eq, cleanup_hour_eq.
  destruct (cleanup_limits rl k now) as [-> ->].
  by repeat case_match.
Qed.

Lemma get_retry_after_value rl k now :
  fst (get_retry_after rl k now) =
  let m := popleft_older (now - 60)%Q (getitem (minute_requests rl) k) in
  let h := popleft_older (now - 3600)%Q (getitem (hour_requests rl) k) in
  if len m >=? requests_per_minute rl then
    bind (front m) (fun oldest => Ok (py_int (60 - (now - oldest))%Q + 1))
  else if len h >=? requests_per_hour rl then
    bind (front h) (fun oldest => Ok (py_int (3600 - (now - oldest))%Q + 1))
  else Ok 0.
Proof.
  unfold get_retry_after. rewrite cleanup_minute_eq, cleanup_hour_eq.
  destruct (cleanup_limits rl k now) as [-> ->].
  cbv zeta. by repeat case_match.
Qed.

Lemma Qfloor_nonneg x : (0 <= x)%Q -> 0 <= Qfloor x.
Proof. intros Hx. change 0 with (Qfloor 0). by apply Qfloor_resp_le. Qed.

Lemma Qfloor_upper x (n : Z) : (x <= inject_Z n)%Q -> Qfloor x <= n.
Proof. intros Hx. rewrite <- (Qfloor_Z n). by apply Qfloor_resp_le. Qed.

(** The answer for a deque at its limit with head [oldest]. *)
Lemma wait_bounds (window : Z) (now oldest : Q) :
  (now - inject_Z window <= oldest)%Q ->
  let r := py_int (inject_Z window - (now - oldest))%Q + 1 in
  1 <= r /\
  (oldest < now + inject_Z r - inject_Z window)%Q /\
  ((oldest <= now)%Q -> r <= window + 1).
Proof.
  intros Hhead r.
  assert (Hw : (0 <= inject_Z window - (now - oldest))%Q) by lra.
  unfold r. rewrite (py_int_nonneg _ Hw).
  pose proof (Qfloor_nonneg _ Hw).
  destruct (floor_succ_bounds (inject_Z window - (now - oldest))%Q) as [Hlt _].
  split; [lia |]. split; [lra |].
  intros Hpast. apply Zplus_le_compat_r. apply Qfloor_upper. lra.
Qed.

Lemma popleft_older_in cutoff dq ts :
  ts ∈ popleft_older cutoff dq -> ts ∈ dq.
Proof.
  destruct (popleft_older_suffix cutoff dq) as [popped Heq].
  intros Hin. rewrite Heq. apply elem_of_app. by right.
Qed.

(** X4.  The 429 answer is never useless at the reading of the denial: with
    positive limits, when [check_rate_limit] denies a request,
    [get_retry_after] at the same clock reading returns a number of seconds
    that is at least 1, and at most 3601 when no stored timestamp is later
    than the reading. *)
Theorem denied_gets_positive_retry_after (rl : t) (k : string) (now : Q) :
  0 < requests_per_minute rl -> 0 < requests_per_hour rl ->
  fst (check_rate_limit rl k now) = false ->
  exists r,
    fst (get_retry_after (snd (check_rate_limit rl k now)) k now) = Ok r /\
    1 <= r /\
    (Forall (fun ts => (ts <= now)%Q) (getitem (minute_requests rl) k) ->
     Forall (fun ts => (ts <= now)%Q) (getitem (hour_requests rl) k) ->
     r <= 3601).
Proof.
  intros Hpm Hph Hdenied.
  destruct (check_rate_limit_cases rl k now)
    as [(_ & Hstate & Hfull) | (Ht & _)]; [| congruence].
  rewrite Hstate, get_retry_after_value.
  destruct (cleanup_limits rl k now) as [-> ->].
  rewrite cleanup_minute_eq, cleanup_hour_eq, !popleft_older_idem in *.
  set (m := popleft_older (now - 60)%Q (getitem (minute_requests rl) k)) in *.
  set (h := popleft_older (now - 3600)%Q (getitem (hour_requests rl) k)) in *.
  cbv zeta.
  destruct (len m >=? requests_per_minute rl) eqn:Em.
  - destruct m as [|oldest rest] eqn:Hm; [apply Z.geb_le in Em; unfold len in Em; cbn [length] in Em; lia |].
    cbn [front bind].
    destruct (wait_bounds 60 now oldest) as (H1 & _ & Hup).
    { apply (popleft_older_head _ (getitem (minute_requests rl) k) oldest rest Hm). }
    eexists. split; [reflexivity |]. split; [exact H1 |].
    intros Hmin _.
    assert (oldest ∈ getitem (minute_requests rl) k) as Hin.
    { apply (popleft_older_in (now - 60)%Q). fold m. rewrite Hm. left. }
    pose proof (proj1 (Forall_forall _ _) Hmin oldest Hin) as Hle.
    specialize (Hup Hle). cbv zeta in Hup. change (inject_Z 60) with 60%Q in Hup. lia.
  - destruct (len h >=? requests_per_hour rl) eqn:Eh; [| lia].
    destruct h as [|oldest rest] eqn:Hh; [apply Z.geb_le in Eh; unfold len in Eh; cbn [length] in Eh; lia |].
    cbn [front bind].
    destruct (wait_bounds 3600 now oldest) as (H1 & _ & Hup).
    { apply (popleft_older_head _ (getitem (hour_requests rl) k) oldest rest Hh). }
    eexists. split; [reflexivity |]. split; [exact H1 |].
    intros _ Hhour.
    assert (oldest ∈ getitem (hour_requests rl) k) as Hin.
    { apply (popleft_older_in (now - 3600)%Q). fold h. rewrite Hh. left. }
    pose proof (proj1 (Forall_forall _ _) Hhour oldest Hin) as Hle.
    specialize (Hup Hle). cbv zeta in Hup. change (inject_Z 3600) with 3600%Q in Hup. lia.
Qed.

(** The eleventh check at 9.5 s: denied, and the caller is told 51 s. *)
Lemma denied_gets_positive_retry_after_witness :
  let rl := run default_limiter ten_checks in
  0 < requests_per_minute rl /\ 0 < requests_per_hour rl /\
  fst (check_rate_limit rl "alice" (19 # 2)) = false /\
  exists r,
    fst (get_retry_after (snd (check_rate_limit rl "alice" (19 # 2))) "alice" (19 # 2))
      = Ok r /\ 1 <= r.
Proof.
  intros rl.
  assert (H1 : 0 < requests_per_minute rl) by (vm_compute; reflexivity).
  assert (H2 : 0 < requests_per_hour rl) by (vm_compute; reflexivity).
  assert (H3 : fst (check_rate_limit rl "alice" (19 # 2)) = false)
    by (vm_compute; reflexivity).
  split; [exact H1 |]. split; [exact H2 |]. split; [exact H3 |].
  destruct (denied_gets_positive_retry_after rl "alice" (19 # 2) H1 H2 H3)
    as (r & Hr & Hpos & _).
  exists r. split; [exact Hr | exact Hpos].
Defined.

Lemma popleft_older_drops_head cutoff oldest rest :
  (oldest < cutoff)%Q ->
  (length (popleft_older cutoff (oldest :: rest)) <= length rest)%nat.
Proof.
  intros Hold. cbn [popleft_older].
  rewrite (proj2 (Qltb_lt oldest cutoff) Hold). apply popleft_older_length.
Qed.

(** X5.  Waiting as long as [get_retry_after] says is enough when one window
    blocks: if the answer is [r > 0], only one of the two pruned deques is at
    its limit and no deque holds more than its limit, then a check [r]
    seconds later, with no call in between, is admitted. *)
Theorem retry_after_suffices (rl : t) (k : string) (now : Q) (r : Z) :
  within_limits rl ->
  fst (get_retry_after rl k now) = Ok r ->
  0 < r ->
  (len (popleft_older (now - 60)%Q (getitem (minute_requests rl) k))
     < requests_per_minute rl \/
   len (popleft_older (now - 3600)%Q (getitem (hour_requests rl) k))
     < requests_per_hour rl) ->
  fst (check_rate_limit (snd (get_retry_after rl k now)) k (now + inject_Z r)%Q) = true.
Proof.
  intros Hin Hr Hpos Hone.
  rewrite get_retry_after_state, check_fst_value.
  destruct (cleanup_limits rl k now) as [-> ->].
  rewrite cleanup_minute_eq, cleanup_hour_eq.
  rewrite get_retry_after_value in Hr. cbv zeta in Hr.
  destruct (Hin k) as [Hcm Hch].
  pose proof (popleft_older_length (now - 60)%Q (getitem (minute_requests rl) k)) as Hlm.
  pose proof (popleft_older_length (now - 3600)%Q (getitem (hour_requests rl) k)) as Hlh.
  set (m := popleft_older (now - 60)%Q (getitem (minute_requests rl) k)) in *.
  set (h := popleft_older (now - 3600)%Q (getitem (hour_requests rl) k)) in *.
  pose proof (popleft_older_length (now + inject_Z r - 60)%Q m) as Hm'.
  pose proof (popleft_older_length (now + inject_Z r - 3600)%Q h) as Hh'.
  apply negb_true_iff, orb_false_iff.
  destruct (len m >=? requests_per_minute rl) eqn:Em.
  - apply Z.geb_le in Em.
    destruct m as [|oldest rest] eqn:Hm; [discriminate |].
    cbn [front bind] in Hr. injection Hr as Hr.
    destruct (wait_bounds 60 now oldest) as (_ & Hgone & _).
    { apply (popleft_older_head _ (getitem (minute_requests rl) k) oldest rest Hm). }
    cbv zeta in Hgone. change (inject_Z 60) with 60%Q in Hgone. rewrite Hr in Hgone.
    pose proof (popleft_older_drops_head _ oldest rest Hgone) as Hdrop.
    unfold len in *. cbn [length] in *. split; rewrite Z.geb_leb; apply Z.leb_gt; lia.
  - rewrite Z.geb_leb in Em. apply Z.leb_gt in Em.
    destruct (len h >=? requests_per_hour rl) eqn:Eh.
    + apply Z.geb_le in Eh.
      destruct h as [|oldest rest] eqn:Hh; [discriminate |].
      cbn [front bind] in Hr. injection Hr as Hr.
      destruct (wait_bounds 3600 now oldest) as (_ & Hgone & _).
      { apply (popleft_older_head _ (getitem (hour_requests rl) k) oldest rest Hh). }
      cbv zeta in Hgone. change (inject_Z 3600) with 3600%Q in Hgone. rewrite Hr in Hgone.
      pose proof (popleft_older_drops_head _ oldest rest Hgone) as Hdrop.
      unfold len in *. cbn [length] in *. split; rewrite Z.geb_leb; apply Z.leb_gt; lia.
    + injection Hr as <-. lia.
Qed.

(** Denied at 100.5 s and told 60 s; admitted at 160.5 s. *)
Lemma retry_after_suffices_witness :
  within_limits minute_full /\
  fst (get_retry_after minute_full "alice" (201 # 2)) = Ok 60 /\
  fst (check_rate_limit (snd (get_retry_after minute_full "alice" (201 # 2)))
                        "alice" ((201 # 2) + inject_Z 60)%Q) = true.
Proof.
  assert (H : within_limits minute_full).
  { apply (within_limits_run (init 1 5)), init_within_limits. }
  assert (Hr : fst (get_retry_after minute_full "alice" (201 # 2)) = Ok 60)
    by (vm_compute; reflexivity).
  split; [exact H |]. split; [exact Hr |].
  apply (retry_after_suffices minute_full "alice" (201 # 2) 60 H Hr).
  - reflexivity.
  - right. vm_compute. reflexivity.
Defined.

Lemma getitem_delete_eq (d : gmap string (list Q)) k : getitem (delete k d) k = [].
Proof. unfold getitem. by rewrite lookup_delete_eq. Qed.

Lemma getitem_delete_ne (d : gmap string (list Q)) k k' :
  k ≠ k' -> getitem (delete k d) k' = getitem d k'.
Proof. intros Hne. unfold getitem. by rewrite lookup_delete_ne. Qed.

(** X6.  [reset_limits] forgets the key and nothing else: both deques of the
    key are empty afterwards, those of every other key are as before, the
    next check of the key is admitted exactly when both limits are positive,
    and the full quota is reported as remaining. *)
Theorem reset_limits_forgets (rl : t) (k : string) (now : Q) :
  let rl' := reset_limits rl k in
  getitem (minute_requests rl') k = [] /\
  getitem (hour_requests rl') k = [] /\
  (forall k', k ≠ k' ->
     getitem (minute_requests rl') k' = getitem (minute_requests rl) k' /\
     getitem (hour_requests rl') k' = getitem (hour_requests rl) k') /\
  fst (check_rate_limit rl' k now)
    = (0 <? requests_per_minute rl) && (0 <? requests_per_hour rl) /\
  fst (get_remaining_requests rl' k now)
    = (Z.max 0 (requests_per_minute rl), Z.max 0 (requests_per_hour rl)).
Proof.
  intros rl'.
  assert (Hm : getitem (minute_requests rl') k = []) by apply getitem_delete_eq.
  assert (Hh : getitem (hour_requests rl') k = []) by apply getitem_delete_eq.
  split; [done |]. split; [done |]. split.
  { intros k' Hne. split; by apply getitem_delete_ne. }
  rewrite check_fst_value, remaining_value, Hm, Hh.
  change (requests_per_minute rl') with (requests_per_minute rl).
  change (requests_per_hour rl') with (requests_per_hour rl).
  cbn [popleft_older]. unfold len. cbn [length].
  split; [| f_equal; lia].
  destruct (0 <? requests_per_minute rl) eqn:E1, (0 <? requests_per_hour rl) eqn:E2;
    cbn [andb]; rewrite ?negb_true_iff, ?negb_false_iff, ?orb_true_iff, ?orb_false_iff;
    rewrite ?Z.geb_leb, ?Z.leb_gt, ?Z.leb_le; lia.
Qed.

(** After ten admitted checks the key is reset: its deques are empty, those
    of ["bob"] are kept, and the next check is admitted. *)
Lemma reset_limits_forgets_witness :
  let rl := run default_limiter ten_checks in
  "alice" ≠ "bob" /\
  getitem (minute_requests (reset_limits rl "alice")) "bob" = [3%Q] /\
  fst (check_rate_limit rl "alice" 10%Q) = false /\
  fst (check_rate_limit (reset_limits rl "alice") "alice" 10%Q) = true.
Proof.
  intros rl.
  destruct (reset_limits_forgets rl "alice" 10%Q) as (_ & _ & Hother & Hcheck & _).
  assert (Hne : "alice" ≠ "bob") by discriminate.
  split; [exact Hne |].
  split; [rewrite (proj1 (Hother "bob" Hne)); vm_compute; reflexivity |].
  split; [vm_compute; reflexivity |].
  rewrite Hcheck. vm_compute. reflexivity.
Defined.

Lemma step_other_key rl ev k :
  key_of (snd ev) ≠ k ->
  getitem (minute_requests (step rl ev)) k = getitem (minute_requests rl) k /\
  getitem (hour_requests (step rl ev)) k = getitem (hour_requests rl) k.
Proof.
  destruct ev as [now [k' | k' | k']]; cbn [snd key_of step]; intros Hne.
  - destruct (check_rate_limit_cases rl k' now)
      as [(_ & -> & _) | (_ & _ & _ & Hother & _)].
    + by rewrite cleanup_minute_ne, cleanup_hour_ne.
    + by apply Hother.
  - rewrite get_retry_after_state. by rewrite cleanup_minute_ne, cleanup_hour_ne.
  - rewrite remaining_state. by rewrite cleanup_minute_ne, cleanup_hour_ne.
Qed.

(** X7.  Keys do not interfere: a run of calls that are all made for other
    keys leaves both deques of a key as they were, so that a check, a
    retry-after query or a remaining-quota query for that key answers as it
    would have before the run. *)
Theorem other_keys_do_not_interfere
    (rl : t) (evs : list (Q * call)) (k : string) (now : Q) :
  Forall (fun ev => key_of (snd ev) ≠ k) evs ->
  getitem (minute_requests (run rl evs)) k = getitem (minute_requests rl) k /\
  getitem (hour_requests (run rl evs)) k = getitem (hour_requests rl) k /\
  fst (check_rate_limit (run rl evs) k now) = fst (check_rate_limit rl k now) /\
  fst (get_retry_after (run rl evs) k now) = fst (get_retry_after rl k now) /\
  fst (get_remaining_requests (run rl evs) k now) = fst (get_remaining_requests rl k now).
Proof.
  intros Hother.
  assert (Hsame : getitem (minute_requests (run rl evs)) k = getitem (minute_requests rl) k /\
                  getitem (hour_requests (run rl evs)) k = getitem (hour_requests rl) k).
  { revert rl. induction Hother as [|ev evs Hev _ IH]; intros rl; [done |].
    change (run rl (ev :: evs)) with (run (step rl ev) evs).
    destruct (IH (step rl ev)) as [-> ->]. by apply step_other_key. }
  destruct Hsame as [Hm Hh]. destruct (run_limits rl evs) as [Hpm Hph].
  split; [done |]. split; [done |].
  rewrite !check_fst_value, !get_retry_after_value, !remaining_value.
  by rewrite Hm, Hh, Hpm, Hph.
Qed.

(** Checks of two other keys between ten checks of a key and its eleventh. *)
Lemma other_keys_do_not_interfere_witness :
  let rl := run default_limiter ten_checks in
  Forall (fun ev => key_of (snd ev) ≠ "alice") bob_checks /\
  fst (check_rate_limit (run rl bob_checks) "alice" 14%Q)
    = fst (check_rate_limit rl "alice" 14%Q).
Proof.
  intros rl.
  assert (H : Forall (fun ev => key_of (snd ev) ≠ "alice") bob_checks)
    by (repeat constructor; discriminate).
  split; [exact H |].
  exact (proj1 (proj2 (proj2 (other_keys_do_not_interfere rl bob_checks "alice" 14%Q H)))).
Defined.

End RateLimiterExtra.

(** * Deleting a list of items from a map *)

Module DeleteItems.

Section DeleteItems.
Context {V : Type}.
Implicit Types (items : list (string * V)) (m : gmap string V).

Lemma delete_items_lookup items m k :
  fold_left (fun index item => delete (fst item) index) items m !! k =
  if decide (k ∈ items.*1) then None else m !! k.
Proof.
  revert m. induction items as [|[k' v] items IH]; intros m; cbn [fold_left].
  - rewrite decide_False; [done | by intros ?%elem_of_nil].
  - rewrite IH. cbn [fmap list_fmap fst]. destruct (decide (k = k')) as [-> | Hne].
    + rewrite lookup_delete_eq, (decide_True (P := k' ∈ k' :: _)); [| by left].
      by case_decide.
    + rewrite lookup_delete_ne by done.
      destruct (decide (k ∈ items.*1)) as [Hin | Hnin].
      * rewrite decide_True; [done | by right].
      * rewrite decide_False; [done |].
        intros [? | ?]%elem_of_cons; done.
Qed.

Lemma delete_items_size items m :
  NoDup items.*1 ->
  (forall item, item ∈ items -> is_Some (m !! fst item)) ->
  (size (fold_left (fun index item => delete (fst item) index) items m) + length items
   = size m)%nat.
Proof.
  revert m. induction items as [|[k v] items IH]; intros m Hnd Hin; cbn [fold_left length].
  - lia.
  - cbn [fmap list_fmap fst] in Hnd. apply NoDup_cons in Hnd as [Hk Hnd].
    destruct (Hin (k, v)) as [x Hx]; [by left |]. cbn [fst] in Hx.
    rewrite Nat.add_succ_r, IH; [| done |].
    + rewrite (map_size_delete_Some k m) by eauto.
      assert (size m ≠ 0%nat) by (apply map_size_ne_0_lookup_2 with k; eauto). lia.
    + intros item Hitem. cbn [fst].
      rewrite lookup_delete_ne; [apply Hin; by right |].
      intros ->. apply Hk. apply list_elem_of_fmap. by exists item.
Qed.

Lemma NoDup_fst_filter (P : string * V -> Prop) `{!forall x, Decision (P x)} items :
  NoDup items.*1 -> NoDup (filter P items).*1.
Proof.
  induction items as [|[k v] items IH]; [done |].
  cbn [fmap list_fmap fst]. intros [Hk Hnd]%NoDup_cons.
  rewrite filter_cons. case_decide; [| by apply IH].
  cbn [fmap list_fmap fst]. apply NoDup_cons. split; [| by apply IH].
  intros ([k' v'] & Heq & Hin)%list_elem_of_fmap. cbn [fst] in Heq. subst k'.
  apply list_elem_of_filter in Hin as [_ Hin].
  apply Hk. apply list_elem_of_fmap. by exists (k, v').
Qed.
End DeleteItems.

Lemma filter_nil_all {A} (P : A -> Prop) `{!forall x, Decision (P x)} (l : list A) :
  (forall x, x ∈ l -> ¬ P x) -> filter P l = [].
Proof.
  induction l as [|x l IH]; intros Hall; [done |].
  rewrite filter_cons, decide_False by (apply Hall; left).
  apply IH. intros y Hy. apply Hall. by right.
Qed.

End DeleteItems.

(** * Further properties of the cache *)

Module CacheServiceExtra.
Import CacheService CacheServiceSpec DeleteItems.


Lemma unlink_items_elem (items : list (string * CacheEntry)) fs p :
  p ∈ fold_left (fun fs item => unlink fs (file_path (snd item))) items fs <->
  p ∈ fs /\ forall item, item ∈ items -> file_path (snd item) ≠ p.
Proof.
  revert fs. induction items as [|item items IH]; intros fs; cbn [fold_left].
  - split; [intros H; split; [done | by intros ? ?%elem_of_nil] | by intros [H _]].
  - rewrite IH. unfold unlink. rewrite elem_of_difference, elem_of_singleton. split.
    + intros [[Hp Hne] Hrest]. split; [done |].
      intros item' [-> | Hin]%elem_of_cons; [congruence | by apply Hrest].
    + intros [Hp Hall]. split; [split; [done |] |].
      * intros ->. by apply (Hall item); [left |].
      * intros item' Hin. apply Hall. by right.
Qed.


(** The keys of the expired items are the keys of the expired entries. *)
Lemma expired_keys st now k :
  k ∈ (filter (fun item => is_expired st (snd item) now = true)
              (map_to_list (cache_index st))).*1 <->
  exists e, cache_index st !! k = Some e /\ is_expired st e now = true.
Proof.
  rewrite list_elem_of_fmap. split.
  - intros ([k' e] & -> & [Hexp Hin]%list_elem_of_filter).
    apply elem_of_map_to_list in Hin. by exists e.
  - intros (e & Hk & Hexp). exists (k, e). split; [done |].
    apply list_elem_of_filter. split; [done | by apply elem_of_map_to_list].
Qed.

Lemma cleanup_index_lookup st now k :
  cache_index (snd (cleanup_expired_cache st now)) !! k =
  match cache_index st !! k with
  | Some e => if is_expired st e now then None else Some e
  | None => None
  end.
Proof.
  unfold cleanup_expired_cache. cbn [snd cache_index].
  rewrite delete_items_lookup. case_decide as Hin.
  - apply expired_keys in Hin as (e & -> & ->). done.
  - destruct (cache_index st !! k) as [e |] eqn:Hk; [| done].
    destruct (is_expired st e now) eqn:Hexp; [| done].
    exfalso. apply Hin, expired_keys. by exists e.
Qed.

(** X8.  [cleanup_expired_cache] removes from the index exactly the entries
    that are older than the TTL and keeps every other entry as it is; the
    number it returns is the number of entries removed; a file is left on
    disk exactly when it was there and no expired entry names it; and a
    second sweep at the same time finds nothing to remove. *)
Theorem cleanup_expired_cache_sweeps (st : t) (now : Z) :
  let r := cleanup_expired_cache st now in
  (forall k,
     cache_index (snd r) !! k =
     match cache_index st !! k with
     | Some e => if is_expired st e now then None else Some e
     | None => None
     end) /\
  (size (cache_index (snd r)) + fst r = size (cache_index st))%nat /\
  (forall p,
     p ∈ files (snd r) <->
     p ∈ files st /\
     forall k e, cache_index st !! k = Some e -> is_expired st e now = true ->
                 file_path e ≠ p) /\
  cleanup_expired_cache (snd r) now = (0%nat, snd r).
Proof.
  intros r. split; [apply cleanup_index_lookup |]. split; [| split].
  - unfold r, cleanup_expired_cache. cbn [fst snd cache_index].
    apply delete_items_size.
    + apply NoDup_fst_filter, NoDup_fst_map_to_list.
    + intros [k e] [_ Hin]%list_elem_of_filter.
      apply elem_of_map_to_list in Hin. cbn [fst]. eauto.
  - intros p. unfold r, cleanup_expired_cache. cbn [snd files].
    rewrite unlink_items_elem. split; intros [Hp Hall]; (split; [done |]).
    + intros k e Hk Hexp. apply (Hall (k, e)).
      apply list_elem_of_filter. split; [done | by apply elem_of_map_to_list].
    + intros [k e] [Hexp Hin]%list_elem_of_filter.
      apply elem_of_map_to_list in Hin. by apply (Hall k e).
  - assert (Hnone : filter (fun item => is_expired (snd r) (snd item) now = true)
                           (map_to_list (cache_index (snd r))) = []).
    { apply filter_nil_all. intros [k e] Hin Hexp. cbn [snd] in Hexp.
      apply elem_of_map_to_list in Hin. unfold r in Hin.
      rewrite cleanup_index_lookup in Hin.
      destruct (cache_index st !! k) as [e' |]; [| done].
      destruct (is_expired st e' now) eqn:E; [done |].
      injection Hin as ->. unfold r, cleanup_expired_cache, is_expired in Hexp.
      cbn [snd cache_duration_hours] in Hexp. unfold is_expired in E. congruence. }
    unfold cleanup_expired_cache at 1. rewrite Hnone. cbn [fold_left length].
    by destruct (snd r).
Qed.

(** A sweep 24 hours and a second after the older of two entries was
    stored: one entry is removed, the other kept, the file of the removed
    one is gone. *)
Lemma cleanup_expired_cache_sweeps_witness :
  let now := timedelta_hours 24 + 1000000 in
  let r := cleanup_expired_cache two_entries now in
  fst r = 1%nat /\
  cache_index (snd r) !! "old" = None /\
  cache_index (snd r) !! "new"
    = Some (mk_entry "cache/new.png" (timedelta_hours 23) "screenshots/b.png") /\
  ("cache/old.png" ∉ files (snd r)) /\
  "cache/new.png" ∈ files (snd r).
Proof.
  intros now r.
  destruct (cleanup_expired_cache_sweeps two_entries now) as (Hidx & Hsize & Hfiles & _).
  fold r in Hidx, Hsize, Hfiles.
  assert (Hold : cache_index two_entries !! "old"
                 = Some (mk_entry "cache/old.png" 0 "screenshots/a.png"))
    by (vm_compute; reflexivity).
  assert (Hnew : cache_index two_entries !! "new"
                 = Some (mk_entry "cache/new.png" (timedelta_hours 23) "screenshots/b.png"))
    by (vm_compute; reflexivity).
  assert (Ho : cache_index (snd r) !! "old" = None) by (rewrite Hidx, Hold; reflexivity).
  assert (Hn : cache_index (snd r) !! "new"
               = Some (mk_entry "cache/new.png" (timedelta_hours 23) "screenshots/b.png"))
    by (rewrite Hidx, Hnew; reflexivity).
  split; [vm_compute; reflexivity |].
  split; [exact Ho |]. split; [exact Hn |]. split.
  - intros [_ Hall]%Hfiles. by apply (Hall "old" _ Hold).
  - apply Hfiles. split.
    + unfold two_entries. cbn [files]. apply elem_of_union. right.
      by apply elem_of_singleton.
    + intros k e Hk Hexp. destruct (decide (k = "old")) as [-> | Hne1].
      * rewrite Hold in Hk. injection Hk as <-. discriminate.
      * destruct (decide (k = "new")) as [-> | Hne2].
        -- rewrite Hnew in Hk. injection Hk as <-. vm_compute in Hexp. discriminate.
        -- unfold two_entries in Hk. cbn [cache_index] in Hk.
           rewrite lookup_insert_ne, lookup_singleton_ne in Hk by done. discriminate.
Defined.

Lemma get_cached_cases st h now :
  (cache_index st !! h = None /\ get_cached_screenshot st h now = (None, st)) \/
  (exists e, cache_index st !! h = Some e /\ (file_path e ∉ files st) /\
     get_cached_screenshot st h now = (None, evict st h (files st))) \/
  (exists e, cache_index st !! h = Some e /\ file_path e ∈ files st /\
     is_expired st e now = true /\
     get_cached_screenshot st h now = (None, evict st h (files st ∖ {[file_path e]}))) \/
  (exists e, cache_index st !! h = Some e /\ file_path e ∈ files st /\
     is_expired st e now = false /\
     get_cached_screenshot st h now = (Some (file_path e), st)).
Proof.
  unfold get_cached_screenshot, is_expired.
  destruct (cache_index st !! h) as [e |]; [| by left]. right.
  destruct (decide (file_path e ∈ files st)) as [Hin | Hnin].
  - rewrite (bool_decide_eq_true_2 _ Hin). cbn [negb]. right.
    destruct (now >? _) eqn:E; [left | right]; by exists e.
  - rewrite (bool_decide_eq_false_2 _ Hnin). left. by exists e.
Qed.

Lemma get_cached_absent st h now :
  cache_index st !! h = None -> get_cached_screenshot st h now = (None, st).
Proof. intros H. unfold get_cached_screenshot. by rewrite H. Qed.

(** X9.  A lookup only ever removes: it adds no file and touches the entry of
    no other key.  A hit returns the path of a file that exists, of an entry
    that is not expired, and changes nothing.  A miss leaves no entry for the
    key, so that every later lookup of the key is a miss that changes
    nothing, until the key is stored again. *)
Theorem lookup_only_evicts (st : t) (h : string) (now : Z) :
  let r := get_cached_screenshot st h now in
  files (snd r) ⊆ files st /\
  (forall k, k ≠ h -> cache_index (snd r) !! k = cache_index st !! k) /\
  (forall p, fst r = Some p ->
     snd r = st /\ p ∈ files st /\
     exists e, cache_index st !! h = Some e /\ file_path e = p /\
               is_expired st e now = false) /\
  (fst r = None ->
     cache_index (snd r) !! h = None /\
     forall now', get_cached_screenshot (snd r) h now' = (None, snd r)).
Proof.
  intros r. unfold r.
  destruct (get_cached_cases st h now)
    as [[Hk ->] | [(e & Hk & Hf & ->) | [(e & Hk & Hf & Hexp & ->) | (e & Hk & Hf & Hexp & ->)]]];
    cbn [fst snd evict files cache_index].
  - split; [done |]. split; [done |]. split; [discriminate |].
    intros _. split; [done |]. intros now'. by apply get_cached_absent.
  - split; [done |]. split; [intros k Hne; by rewrite lookup_delete_ne |].
    split; [discriminate |]. intros _. split; [apply lookup_delete_eq |].
    intros now'. apply get_cached_absent. apply lookup_delete_eq.
  - split; [intros x Hx; by apply elem_of_difference in Hx as [Hx _] |].
    split; [intros k Hne; by rewrite lookup_delete_ne |].
    split; [discriminate |]. intros _. split; [apply lookup_delete_eq |].
    intros now'. apply get_cached_absent. apply lookup_delete_eq.
  - split; [done |]. split; [done |]. split; [| discriminate].
    intros p [= <-]. split; [done |]. split; [done |]. by exists e.
Qed.

(** A lookup of the older of two entries after 24 hours and a second: a miss
    that evicts it; the next lookup is a miss again. *)
Lemma lookup_only_evicts_witness :
  let now := timedelta_hours 24 + 1000000 in
  let r := get_cached_screenshot two_entries "old" now in
  fst r = None /\
  get_cached_screenshot (snd r) "old" 0 = (None, snd r) /\
  fst (get_cached_screenshot two_entries "new" now) = Some "cache/new.png" /\
  "cache/new.png" ∈ files two_entries.
Proof.
  intros now r.
  assert (Hmiss : fst r = None) by (vm_compute; reflexivity).
  destruct (lookup_only_evicts two_entries "old" now) as (_ & _ & _ & Hsticky).
  destruct (lookup_only_evicts two_entries "new" now) as (_ & _ & Hhit & _).
  assert (Hnew : fst (get_cached_screenshot two_entries "new" now) = Some "cache/new.png")
    by (vm_compute; reflexivity).
  split; [exact Hmiss |].
  split; [exact (proj2 (Hsticky Hmiss) 0) |].
  split; [exact Hnew |].
  exact (proj1 (proj2 (Hhit "cache/new.png" Hnew))).
Defined.

Lemma string_length_app (a b : string) :
  String.length (a +:+ b) = (String.length a + String.length b)%nat.
Proof. induction a as [|c a IH]; [done |]. simpl. by f_equal. Qed.

Lemma string_app_inv_tail (a b t : string) : a +:+ t = b +:+ t -> a = b.
Proof.
  revert b. induction a as [|c a IH]; intros [|c' b] H.
  - done.
  - apply (f_equal String.length) in H. rewrite !string_length_app in H.
    cbn in H. lia.
  - apply (f_equal String.length) in H. rewrite !string_length_app in H.
    cbn in H. lia.
  - cbn in H. injection H as -> H. f_equal. by apply IH.
Qed.

Lemma str_bool_inj a b : str_bool a = str_bool b -> a = b.
Proof. by destruct a, b. Qed.

Lemma str_int_inj a b : str_int a = str_int b -> a = b.
Proof. unfold str_int. apply (inj pretty). Qed.

(** The renderings of two optional parameters coincide only when they are
    equal or when one is absent and the other is the text [None]. *)
Lemma str_opt_collision (a b : option string) :
  str_opt a = str_opt b <->
  a = b \/ (a = None /\ b = Some "None") \/ (a = Some "None" /\ b = None).
Proof.
  split.
  - destruct a as [x |], b as [y |]; cbn; intros H; subst; auto.
  - intros [-> | [[-> ->] | [-> ->]]]; done.
Qed.

Ltac cancel_fields H :=
  repeat (apply (inj (String.app _)) in H);
  try apply string_app_inv_tail in H.

(** The key strings of two requests as the GET branch types them: each
    field is determined by the string once the others agree. *)
Lemma key_strings_cases (p q : params) :
  (primary_key_string p = primary_key_string q ->
     width p = width q ->
     height p = height q ->
     fullpage p = fullpage q ->
     image_format p = image_format q ->
     quality p = quality q ->
     delay p = delay q ->
     url p = url q) /\
  (primary_key_string p = primary_key_string q ->
     url p = url q ->
     height p = height q ->
     fullpage p = fullpage q ->
     image_format p = image_format q ->
     quality p = quality q ->
     delay p = delay q ->
     width p = width q) /\
  (primary_key_string p = primary_key_string q ->
     url p = url q ->
     width p = width q ->
     fullpage p = fullpage q ->
     image_format p = image_format q ->
     quality p = quality q ->
     delay p = delay q ->
     height p = height q) /\
  (primary_key_string p = primary_key_string q ->
     url p = url q ->
     width p = width q ->
     height p = height q ->
     image_format p = image_format q ->
     quality p = quality q ->
     delay p = delay q ->
     fullpage p = fullpage q) /\
  (primary_key_string p = primary_key_string q ->
     url p = url q ->
     width p = width q ->
     height p = height q ->
     fullpage p = fullpage q ->
     quality p = quality q ->
     delay p = delay q ->
     image_format p = image_format q) /\
  (primary_key_string p = primary_key_string q ->
     url p = url q ->
     width p = width q ->
     height p = height q ->
     fullpage p = fullpage q ->
     image_format p = image_format q ->
     delay p = delay q ->
     quality p = quality q) /\
  (primary_key_string p = primary_key_string q ->
     url p = url q ->
     width p = width q ->
     height p = height q ->
     fullpage p = fullpage q ->
     image_format p = image_format q ->
     quality p = quality q ->
     delay p = delay q) /\
  (cache_params p = cache_params q ->
     device p = device q ->
     user_agent p = user_agent q ->
     dark_mode p = dark_mode q ->
     wait_for_selector p = wait_for_selector q ->
     block_ads p = block_ads q ->
     scroll_page p = scroll_page q ->
     media_type p = media_type q ->
     timezone p = timezone q ->
     str_opt (selector p) = str_opt (selector q)) /\
  (cache_params p = cache_params q ->
     selector p = selector q ->
     user_agent p = user_agent q ->
     dark_mode p = dark_mode q ->
     wait_for_selector p = wait_for_selector q ->
     block_ads p = block_ads q ->
     scroll_page p = scroll_page q ->
     media_type p = media_type q ->
     timezone p = timezone q ->
     str_opt (device p) = str_opt (device q)) /\
  (cache_params p = cache_params q ->
     selector p = selector q ->
     device p = device q ->
     dark_mode p = dark_mode q ->
     wait_for_selector p = wait_for_selector q ->
     block_ads p = block_ads q ->
     scroll_page p = scroll_page q ->
     media_type p = media_type q ->
     timezone p = timezone q ->
     str_opt (user_agent p) = str_opt (user_agent q)) /\
  (cache_params p = cache_params q ->
     selector p = selector q ->
     device p = device q ->
     user_agent p = user_agent q ->
     wait_for_selector p = wait_for_selector q ->
     block_ads p = block_ads q ->
     scroll_page p = scroll_page q ->
     media_type p = media_type q ->
     timezone p = timezone q ->
     dark_mode p = dark_mode q) /\
  (cache_params p = cache_params q ->
     selector p = selector q ->
     device p = device q ->
     user_agent p = user_agent q ->
     dark_mode p = dark_mode q ->
     block_ads p = block_ads q ->
     scroll_page p = scroll_page q ->
     media_type p = media_type q ->
     timezone p = timezone q ->
     str_opt (wait_for_selector p) = str_opt (wait_for_selector q)) /\
  (cache_params p = cache_params q ->
     selector p = selector q ->
     device p = device q ->
     user_agent p = user_agent q ->
     dark_mode p = dark_mode q ->
     wait_for_selector p = wait_for_selector q ->
     scroll_page p = scroll_page q ->
     media_type p = media_type q ->
     timezone p = timezone q ->
     block_ads p = block_ads q) /\
  (cache_params p = cache_params q ->
     selector p = selector q ->
     device p = device q ->
     user_agent p = user_agent q ->
     dark_mode p = dark_mode q ->
     wait_for_selector p = wait_for_selector q ->
     block_ads p = block_ads q ->
     media_type p = media_type q ->
     timezone p = timezone q ->
     scroll_page p = scroll_page q) /\
  (cache_params p = cache_params q ->
     selector p = selector q ->
     device p = device q ->
     user_agent p = user_agent q ->
     dark_mode p = dark_mode q ->
     wait_for_selector p = wait_for_selector q ->
     block_ads p = block_ads q ->
     scroll_page p = scroll_page q ->
     timezone p = timezone q ->
     str_opt (media_type p) = str_opt (media_type q)) /\
  (cache_params p = cache_params q ->
     selector p = selector q ->
     device p = device q ->
     user_agent p = user_agent q ->
     dark_mode p = dark_mode q ->
     wait_for_selector p = wait_for_selector q ->
     block_ads p = block_ads q ->
     scroll_page p = scroll_page q ->
     media_type p = media_type q ->
     str_opt (timezone p) = str_opt (timezone q)) /\
  (forall a b : option string,
     str_opt a = str_opt b <->
     a = b \/ (a = None /\ b = Some "None") \/ (a = Some "None" /\ b = None)).
Proof.
  unfold primary_key_string, key_string, cache_params.
  repeat split;
    try (intros H; intros;
         repeat match goal with E : _ p = _ q |- _ => rewrite E in H; clear E end;
         cancel_fields H;
         first [ exact H | by apply str_int_inj | by apply str_bool_inj ]).
  - apply str_opt_collision.
  - apply str_opt_collision.
Qed.

(** X10.  The strings that are hashed separate GET requests that differ in
    one field.  For two GET requests that [screenshot()] parses and
    accepts: when the strings [generate_cache_key] hashes are equal and the
    requests agree on six of url, width, height, full-page flag, format,
    quality and delay, they agree on the seventh; when the
    advanced-parameter strings are equal and the requests agree on eight of
    the nine advanced parameters, they agree on the ninth if it is a flag,
    and its two renderings coincide if it is optional, which happens only
    for equal values or for an absent value against the text [None]. *)
Theorem key_strings_separate_single_fields
    (int_of_str : string -> pyres Z) (lower : string -> string)
    (args1 args2 : App.query) (p q : params) :
  App.screenshot_get int_of_str lower args1 = Ok (inr p) ->
  App.screenshot_get int_of_str lower args2 = Ok (inr q) ->
  (primary_key_string p = primary_key_string q ->
     width p = width q ->
     height p = height q ->
     fullpage p = fullpage q ->
     image_format p = image_format q ->
     quality p = quality q ->
     delay p = delay q ->
     url p = url q) /\
  (primary_key_string p = primary_key_string q ->
     url p = url q ->
     height p = height q ->
     fullpage p = fullpage q ->
     image_format p = image_format q ->
     quality p = quality q ->
     delay p = delay q ->
     width p = width q) /\
  (primary_key_string p = primary_key_string q ->
     url p = url q ->
     width p = width q ->
     fullpage p = fullpage q ->
     image_format p = image_format q ->
     quality p = quality q ->
     delay p = delay q ->
     height p = height q) /\
  (primary_key_string p = primary_key_string q ->
     url p = url q ->
     width p = width q ->
     height p = height q ->
     image_format p = image_format q ->
     quality p = quality q ->
     delay p = delay q ->
     fullpage p = fullpage q) /\
  (primary_key_string p = primary_key_string q ->
     url p = url q ->
     width p = width q ->
     height p = height q ->
     fullpage p = fullpage q ->
     quality p = quality q ->
     delay p = delay q ->
     image_format p = image_format q) /\
  (primary_key_string p = primary_key_string q ->
     url p = url q ->
     width p = width q ->
     height p = height q ->
     fullpage p = fullpage q ->
     image_format p = image_format q ->
     delay p = delay q ->
     quality p = quality q) /\
  (primary_key_string p = primary_key_string q ->
     url p = url q ->
     width p = width q ->
     height p = height q ->
     fullpage p = fullpage q ->
     image_format p = image_format q ->
     quality p = quality q ->
     delay p = delay q) /\
  (cache_params p = cache_params q ->
     device p = device q ->
     user_agent p = user_agent q ->
     dark_mode p = dark_mode q ->
     wait_for_selector p = wait_for_selector q ->
     block_ads p = block_ads q ->
     scroll_page p = scroll_page q ->
     media_type p = media_type q ->
     timezone p = timezone q ->
     str_opt (selector p) = str_opt (selector q)) /\
  (cache_params p = cache_params q ->
     selector p = selector q ->
     user_agent p = user_agent q ->
     dark_mode p = dark_mode q ->
     wait_for_selector p = wait_for_selector q ->
     block_ads p = block_ads q ->
     scroll_page p = scroll_page q ->
     media_type p = media_type q ->
     timezone p = timezone q ->
     str_opt (device p) = str_opt (device q)) /\
  (cache_params p = cache_params q ->
     selector p = selector q ->
     device p = device q ->
     dark_mode p = dark_mode q ->
     wait_for_selector p = wait_for_selector q ->
     block_ads p = block_ads q ->
     scroll_page p = scroll_page q ->
     media_type p = media_type q ->
     timezone p = timezone q ->
     str_opt (user_agent p) = str_opt (user_agent q)) /\
  (cache_params p = cache_params q ->
     selector p = selector q ->
     device p = device q ->
     user_agent p = user_agent q ->
     wait_for_selector p = wait_for_selector q ->
     block_ads p = block_ads q ->
     scroll_page p = scroll_page q ->
     media_type p = media_type q ->
     timezone p = timezone q ->
     dark_mode p = dark_mode q) /\
  (cache_params p = cache_params q ->
     selector p = selector q ->
     device p = device q ->
     user_agent p = user_agent q ->
     dark_mode p = dark_mode q ->
     block_ads p = block_ads q ->
     scroll_page p = scroll_page q ->
     media_type p = media_type q ->
     timezone p = timezone q ->
     str_opt (wait_for_selector p) = str_opt (wait_for_selector q)) /\
  (cache_params p = cache_params q ->
     selector p = selector q ->
     device p = device q ->
     user_agent p = user_agent q ->
     dark_mode p = dark_mode q ->
     wait_for_selector p = wait_for_selector q ->
     scroll_page p = scroll_page q ->
     media_type p = media_type q ->
     timezone p = timezone q ->
     block_ads p = block_ads q) /\
  (cache_params p = cache_params q ->
     selector p = selector q ->
     device p = device q ->
     user_agent p = user_agent q ->
     dark_mode p = dark_mode q ->
     wait_for_selector p = wait_for_selector q ->
     block_ads p = block_ads q ->
     media_type p = media_type q ->
     timezone p = timezone q ->
     scroll_page p = scroll_page q) /\
  (cache_params p = cache_params q ->
     selector p = selector q ->
     device p = device q ->
     user_agent p = user_agent q ->
     dark_mode p = dark_mode q ->
     wait_for_selector p = wait_for_selector q ->
     block_ads p = block_ads q ->
     scroll_page p = scroll_page q ->
     timezone p = timezone q ->
     str_opt (media_type p) = str_opt (media_type q)) /\
  (cache_params p = cache_params q ->
     selector p = selector q ->
     device p = device q ->
     user_agent p = user_agent q ->
     dark_mode p = dark_mode q ->
     wait_for_selector p = wait_for_selector q ->
     block_ads p = block_ads q ->
     scroll_page p = scroll_page q ->
     media_type p = media_type q ->
     str_opt (timezone p) = str_opt (timezone q)) /\
  (forall a b : option string,
     str_opt a = str_opt b <->
     a = b \/ (a = None /\ b = Some "None") \/ (a = Some "None" /\ b = None)).
Proof. intros _ _. apply key_strings_cases. Qed.

(** Two GET requests that differ in the width alone, and two that differ in
    the dark-mode flag alone. *)
Lemma key_strings_separate_single_fields_witness :
  exists p q d,
    App.screenshot_get App.toy_int_of_str App.toy_lower App.query_plain = Ok (inr p) /\
    App.screenshot_get App.toy_int_of_str App.toy_lower App.query_narrow = Ok (inr q) /\
    App.screenshot_get App.toy_int_of_str App.toy_lower App.query_dark = Ok (inr d) /\
    width p <> width q /\
    primary_key_string p <> primary_key_string q /\
    dark_mode p <> dark_mode d /\
    cache_params p <> cache_params d.
Proof.
  set (q := mk_params "https://example.com" 1280 1080 false "png" 80 0
                      None None None false None false false None None).
  set (d := mk_params "https://example.com" 1920 1080 false "png" 80 0
                      None None None true None false false None None).
  assert (Hp : App.screenshot_get App.toy_int_of_str App.toy_lower App.query_plain
               = Ok (inr request_plain)) by (vm_compute; reflexivity).
  assert (Hq : App.screenshot_get App.toy_int_of_str App.toy_lower App.query_narrow
               = Ok (inr q)) by (vm_compute; reflexivity).
  assert (Hd : App.screenshot_get App.toy_int_of_str App.toy_lower App.query_dark
               = Ok (inr d)) by (vm_compute; reflexivity).
  exists request_plain, q, d.
  destruct (key_strings_separate_single_fields _ _ _ _ _ _ Hp Hq)
    as (_ & Hwidth & _).
  destruct (key_strings_separate_single_fields _ _ _ _ _ _ Hp Hd)
    as (_ & _ & _ & _ & _ & _ & _ & _ & _ & _ & Hdark & _).
  split; [exact Hp |]. split; [exact Hq |]. split; [exact Hd |].
  split; [discriminate |].
  split; [intros Heq; by specialize (Hwidth Heq eq_refl eq_refl eq_refl eq_refl eq_refl eq_refl) |].
  split; [discriminate |].
  intros Heq.
  by specialize (Hdark Heq eq_refl eq_refl eq_refl eq_refl eq_refl eq_refl eq_refl eq_refl).
Defined.

Lemma cache_screenshot_cases sfx st h path now :
  let dst := cached_filepath sfx h path in
  (path ∈ files st /\ path ≠ dst /\
   cache_screenshot sfx st h path now =
     (dst, mk (cache_duration_hours st)
              (<[h := mk_entry dst now path]> (cache_index st))
              (files st ∪ {[dst]}))) \/
  ((path ∉ files st \/ path = dst) /\
   cache_screenshot sfx st h path now = (path, st)).
Proof.
  intros dst. unfold cache_screenshot, copy2. fold dst.
  destruct (decide (path ∈ files st)) as [Hin | Hnin].
  - rewrite (bool_decide_eq_true_2 _ Hin). cbn [negb].
    destruct (decide (path = dst)) as [Heq | Hne].
    + rewrite (bool_decide_eq_true_2 _ Heq). right. split; [by right | done].
    + rewrite (bool_decide_eq_false_2 _ Hne). by left.
  - rewrite (bool_decide_eq_false_2 _ Hnin). right. split; [by left | done].
Qed.

(** X11.  A store only ever adds: it removes no file and changes the entry
    of no other key, so a lookup that hit for another key before the store
    hits with the same path after it.  When the captured file exists, the
    path the store returns names a file that exists afterwards; when it
    does not exist, the store returns the path it was given and changes
    nothing. *)
Theorem cache_screenshot_only_adds
    (path_suffix : string -> string) (st : t) (h path : string) (now : Z) :
  let r := cache_screenshot path_suffix st h path now in
  files st ⊆ files (snd r) /\
  (forall k, k ≠ h -> cache_index (snd r) !! k = cache_index st !! k) /\
  (forall h' p now', h' ≠ h ->
     fst (get_cached_screenshot st h' now') = Some p ->
     get_cached_screenshot (snd r) h' now' = (Some p, snd r)) /\
  (path ∈ files st -> fst r ∈ files (snd r)) /\
  (path ∉ files st -> r = (path, st)).
Proof.
  intros r.
  assert (Hfiles : files st ⊆ files (snd r)).
  { unfold r. destruct (cache_screenshot_cases path_suffix st h path now)
      as [(_ & _ & ->) | (_ & ->)]; cbn [snd files]; [| done].
    intros x Hx. apply elem_of_union. by left. }
  assert (Hidx : forall k, k ≠ h -> cache_index (snd r) !! k = cache_index st !! k).
  { intros k Hne. unfold r.
    destruct (cache_screenshot_cases path_suffix st h path now)
      as [(_ & _ & ->) | (_ & ->)]; cbn [snd cache_index]; [| done].
    by rewrite lookup_insert_ne. }
  assert (Httl : cache_duration_hours (snd r) = cache_duration_hours st).
  { unfold r. destruct (cache_screenshot_cases path_suffix st h path now)
      as [(_ & _ & ->) | (_ & ->)]; done. }
  split; [done |]. split; [done |]. split; [| split].
  - intros h' p now' Hne Hhit.
    destruct (get_cached_cases st h' now')
      as [[_ Hg] | [(e & _ & _ & Hg) | [(e & _ & _ & _ & Hg) | (e & Hk & Hf & Hexp & Hg)]]];
      rewrite Hg in Hhit; try discriminate.
    injection Hhit as <-.
    apply get_cached_hit.
    + by rewrite Hidx.
    + by apply Hfiles.
    + rewrite Httl. unfold is_expired in Hexp. lia.
  - intros Hin. unfold r.
    destruct (cache_screenshot_cases path_suffix st h path now)
      as [(_ & _ & ->) | ([Hnin | Heq] & ->)]; cbn [fst snd files].
    + apply elem_of_union. right. by apply elem_of_singleton.
    + done.
    + done.
  - intros Hnin. unfold r.
    destruct (cache_screenshot_cases path_suffix st h path now)
      as [(Hin & _) | (_ & ->)]; done.
Qed.

(** Storing a new capture next to two entries: the newer of them still
    hits; storing a capture that is not on disk changes nothing. *)
Lemma cache_screenshot_only_adds_witness :
  let sfx := fun _ : string => ".png" in
  let st := mk 24 (cache_index two_entries)
               (files two_entries ∪ {[ "screenshots/c.png" ]}) in
  let now := timedelta_hours 23 in
  "new" ≠ "fresh" /\
  fst (get_cached_screenshot st "new" now) = Some "cache/new.png" /\
  fst (get_cached_screenshot
         (snd (cache_screenshot sfx st "fresh" "screenshots/c.png" now)) "new" now)
    = Some "cache/new.png" /\
  ("screenshots/gone.png" ∉ files st) /\
  cache_screenshot sfx st "fresh" "screenshots/gone.png" now
    = ("screenshots/gone.png", st).
Proof.
  intros sfx st now.
  assert (Hne : "new" ≠ "fresh") by discriminate.
  assert (Hhit : fst (get_cached_screenshot st "new" now) = Some "cache/new.png")
    by (vm_compute; reflexivity).
  assert (Hgone : "screenshots/gone.png" ∉ files st).
  { unfold st, two_entries. cbn [files].
    rewrite !elem_of_union, !elem_of_singleton. intros [[? | ?] | ?]; discriminate. }
  destruct (cache_screenshot_only_adds sfx st "fresh" "screenshots/c.png" now)
    as (_ & _ & Hkeep & _).
  destruct (cache_screenshot_only_adds sfx st "fresh" "screenshots/gone.png" now)
    as (_ & _ & _ & _ & Hfail).
  split; [exact Hne |]. split; [exact Hhit |].
  split; [by rewrite (Hkeep "new" "cache/new.png" now Hne Hhit) |].
  split; [exact Hgone | exact (Hfail Hgone)].
Defined.

(** X12.  [clear_all_cache] leaves an empty index: every lookup afterwards
    is a miss that changes nothing and a sweep finds nothing; a file is left
    on disk exactly when it was there and no entry named it. *)
Theorem clear_all_cache_empties (st : t) :
  let st' := clear_all_cache st in
  cache_index st' = ∅ /\
  (forall h now, get_cached_screenshot st' h now = (None, st')) /\
  (forall now, cleanup_expired_cache st' now = (0%nat, st')) /\
  (forall p,
     p ∈ files st' <->
     p ∈ files st /\ forall k e, cache_index st !! k = Some e -> file_path e ≠ p).
Proof.
  intros st'. split; [done |]. split; [| split].
  - intros h now. by apply get_cached_absent.
  - intros now. unfold cleanup_expired_cache. cbn [cache_index st' clear_all_cache].
    rewrite map_to_list_empty. done.
  - intros p. unfold st', clear_all_cache. cbn [files].
    rewrite unlink_items_elem. split; intros [Hp Hall]; (split; [done |]).
    + intros k e Hk. apply (Hall (k, e)). by apply elem_of_map_to_list.
    + intros [k e] Hin. apply elem_of_map_to_list in Hin. by apply (Hall k e).
Qed.

(** Clearing the cache of two entries: both files are gone and a lookup of
    either key is a miss. *)
Lemma clear_all_cache_empties_witness :
  let st' := clear_all_cache two_entries in
  get_cached_screenshot st' "new" 0 = (None, st') /\
  ("cache/new.png" ∉ files st') /\ ("cache/old.png" ∉ files st').
Proof.
  intros st'.
  destruct (clear_all_cache_empties two_entries) as (_ & Hmiss & _ & Hfiles).
  fold st' in Hmiss, Hfiles.
  split; [exact (Hmiss "new" 0) |]. split.
  - intros [_ Hall]%Hfiles.
    by apply (Hall "new" (mk_entry "cache/new.png" (timedelta_hours 23) "screenshots/b.png")).
  - intros [_ Hall]%Hfiles.
    by apply (Hall "old" (mk_entry "cache/old.png" 0 "screenshots/a.png")).
Defined.

End CacheServiceExtra.

(** * Further properties of the job table and the webhook dispatcher *)

Module WebhookServiceExtra.
Import WebhookService WebhookServiceSpec DeleteItems.

Lemma step_target_value jobs j job st r e now :
  jobs !! j = Some job ->
  fst (step jobs (now, UpdateJobStatus j st r e)) = <[j := updated job st r e now]> jobs.
Proof.
  intros Hj. cbn [step]. unfold update_job_status, updated. rewrite Hj.
  by destruct (is_terminal st).
Qed.

Lemma step_unknown jobs j st r e now :
  jobs !! j = None -> step jobs (now, UpdateJobStatus j st r e) = (jobs, []).
Proof. intros Hj. cbn [step]. unfold update_job_status. by rewrite Hj. Qed.

(** X13.  A job is readable as soon as it is created: [create_job] returns
    the fresh id, [get_job_status] of that id shows a pending job with the
    given type and clock readings, no result, no error and no delivered
    webhook, and the answer for every other id is as before. *)
Theorem create_job_then_status
    (jobs : gmap string Job) (job_type : string) (params : list (string * string))
    (webhook_url webhook_secret : option string) (uuid4 : string) (now1 now2 : Z) :
  let r := create_job jobs job_type params webhook_url webhook_secret uuid4 now1 now2 in
  fst r = uuid4 /\
  get_job_status (snd r) (fst r)
    = Some (mk_view uuid4 "pending" job_type now1 now2 None None false) /\
  (forall job_id, job_id ≠ uuid4 ->
     get_job_status (snd r) job_id = get_job_status jobs job_id).
Proof.
  intros r. unfold r, create_job, get_job_status, get_job. cbn [fst snd].
  split; [done |]. split; [by rewrite lookup_insert_eq |].
  intros job_id Hne. by rewrite lookup_insert_ne.
Qed.

Lemma create_job_then_status_witness :
  "job-1" ≠ "job-9" /\
  get_job_status one_job "job-1"
    = Some (mk_view "job-1" "pending" "screenshot" 1000 1001 None None false) /\
  get_job_status one_job "job-9" = None.
Proof.
  destruct (create_job_then_status ∅ "screenshot" [("url", "https://example.com")]
              (Some "https://hooks.example.com/cb") (Some "s3cret") "job-1" 1000 1001)
    as (_ & Hnew & Hother).
  split; [discriminate |]. split; [exact Hnew |].
  exact (eq_trans (Hother "job-9" ltac:(discriminate)) eq_refl).
Defined.

(** What an update never changes in a job. *)
Lemma updated_identity job st r e now :
  let job' := updated job st r e now in
  job_id job' = job_id job /\ job_type job' = job_type job /\
  params job' = params job /\ webhook_url job' = webhook_url job /\
  webhook_secret job' = webhook_secret job /\ created_at job' = created_at job /\
  attempts job' = attempts job /\ webhook_delivered job' = webhook_delivered job /\
  webhook_failed job' = webhook_failed job.
Proof. unfold updated. by destruct (truthy_opt r), (truthy_opt e). Qed.

Lemma updated_fields job st r e now :
  let job' := updated job st r e now in
  status job' = st /\ updated_at job' = now /\
  result job' = (if truthy_opt r then r else result job) /\
  error job' = (if truthy_opt e then e else error job).
Proof. unfold updated. by destruct (truthy_opt r), (truthy_opt e). Qed.

(** X14.  Updates never create or delete a job and never touch what
    identifies it: after any run of [update_job_status] calls the table has
    the same job ids, and every job has the id, type, parameters, webhook
    target and secret, creation time and delivery bookkeeping it had. *)
Theorem updates_keep_identity (jobs : gmap string Job) (evs : list (Z * call)) :
  (forall j, final jobs evs !! j = None <-> jobs !! j = None) /\
  (forall j job, jobs !! j = Some job ->
     exists job',
       final jobs evs !! j = Some job' /\
       job_id job' = job_id job /\ job_type job' = job_type job /\
       params job' = params job /\ webhook_url job' = webhook_url job /\
       webhook_secret job' = webhook_secret job /\ created_at job' = created_at job /\
       attempts job' = attempts job /\ webhook_delivered job' = webhook_delivered job /\
       webhook_failed job' = webhook_failed job).
Proof.
  revert jobs. induction evs as [|ev evs IH]; intros jobs.
  { split; [done |]. intros j job Hj. exists job. by repeat split. }
  rewrite final_cons. destruct (IH (fst (step jobs ev))) as [IHdom IHid].
  destruct ev as [now [j' st r e]].
  destruct (jobs !! j') as [job0 |] eqn:Hj'.
  - rewrite (step_target_value jobs j' job0 st r e now Hj') in *. split.
    + intros j. rewrite IHdom. destruct (decide (j = j')) as [-> | Hne].
      * rewrite lookup_insert_eq, Hj'. split; discriminate.
      * by rewrite lookup_insert_ne.
    + intros j job Hj. destruct (decide (j = j')) as [-> | Hne].
      * rewrite Hj' in Hj. injection Hj as ->.
        destruct (IHid j' (updated job st r e now)) as (job' & Hfin & Hid);
          [apply lookup_insert_eq |].
        exists job'. split; [done |].
        pose proof (updated_identity job st r e now) as Hup. cbv zeta in Hup.
        destruct Hid as (-> & -> & -> & -> & -> & -> & -> & -> & ->). exact Hup.
      * apply IHid. by rewrite lookup_insert_ne.
  - rewrite (step_unknown jobs j' st r e now Hj') in *. cbn [fst] in *.
    split; [apply IHdom | apply IHid].
Qed.

Lemma updates_keep_identity_witness :
  exists job',
    final one_job repeated_run !! "job-1" = Some job' /\
    webhook_url job' = Some "https://hooks.example.com/cb" /\
    created_at job' = 1000 /\
    final one_job repeated_run !! "job-2" = None.
Proof.
  destruct (updates_keep_identity one_job repeated_run) as [Hdom Hid].
  destruct (one_job !! "job-1") as [job |] eqn:Hj; [| vm_compute in Hj; discriminate].
  destruct (Hid "job-1" job) as (job' & Hfin & _ & _ & _ & Hurl & _ & Hcreated & _);
    [exact Hj |].
  exists job'. vm_compute in Hj. injection Hj as <-.
  split; [exact Hfin |]. split; [exact Hurl |]. split; [exact Hcreated |].
  apply Hdom. vm_compute. reflexivity.
Defined.

Lemma final_untargeted jobs evs j :
  updates_of evs j = [] -> final jobs evs !! j = jobs !! j.
Proof. intros H. by destruct (untargeted_stretch evs jobs j H). Qed.

Lemma final_after_update jobs j job t st r e post :
  jobs !! j = Some job ->
  updates_of post j = [] ->
  final jobs ((t, UpdateJobStatus j st r e) :: post) !! j = Some (updated job st r e t).
Proof.
  intros Hj Hpost.
  rewrite final_cons, final_untargeted, (step_target_value jobs j job) by done.
  apply lookup_insert_eq.
Qed.

(** X15.  A worker leaves a result or an error, never both: for a job with
    neither, whose only updates in a run are the two of its worker, the job
    ends completed with the value the job function returned as its result
    and no error, or failed with the message of the exception as its error
    and no result.  An empty value or message is not stored. *)
Theorem worker_sets_result_or_error
    (jobs : gmap string Job) (evs : list (Z * call)) (j : string) (job : Job)
    (outcome : pyres string) :
  jobs !! j = Some job ->
  result job = None -> error job = None ->
  updates_of evs j = worker j outcome ->
  exists job',
    final jobs evs !! j = Some job' /\
    match outcome with
    | Ok r =>
        status job' = "completed" /\
        result job' = (if truthy_str r then Some r else None) /\
        error job' = None
    | Raise e =>
        status job' = "failed" /\
        error job' = (if truthy_str (str_exn e) then Some (str_exn e) else None) /\
        result job' = None
    end.
Proof.
  intros Hj Hres Herr Hworker. unfold worker in Hworker.
  destruct (updates_of_cons_inv _ _ _ _ Hworker) as (pre & t1 & rest & -> & Hpre & Hrest).
  destruct (updates_of_cons_inv _ _ _ _ Hrest) as (mid & t2 & post & -> & Hmid & Hpost).
  rewrite final_app.
  change ((t1, UpdateJobStatus j "processing" None None) :: mid ++ ?x :: post)
    with (((t1, UpdateJobStatus j "processing" None None) :: mid) ++ x :: post).
  rewrite final_app.
  set (jobs1 := final (final jobs pre) ((t1, UpdateJobStatus j "processing" None None) :: mid)).
  assert (H1 : jobs1 !! j = Some (updated job "processing" None None t1)).
  { apply final_after_update; [| done]. by rewrite final_untargeted. }
  destruct outcome as [r | e].
  - rewrite (final_after_update jobs1 j _ t2 "completed" (Some r) None post H1 Hpost).
    eexists. split; [reflexivity |]. unfold updated. cbn [truthy_opt].
    destruct (truthy_str r); cbn; by rewrite ?Hres, ?Herr.
  - rewrite (final_after_update jobs1 j _ t2 "failed" None (Some (str_exn e)) post H1 Hpost).
    eexists. split; [reflexivity |]. unfold updated. cbn [truthy_opt].
    destruct (truthy_str (str_exn e)); cbn; by rewrite ?Hres, ?Herr.
Qed.

Lemma worker_sets_result_or_error_witness :
  exists job',
    final quiet_job failing_worker_run !! "job-9" = Some job' /\
    status job' = "failed" /\
    error job' = Some "Timeout 30000ms exceeded" /\
    result job' = None.
Proof.
  destruct (quiet_job !! "job-9") as [job |] eqn:Hj; [| vm_compute in Hj; discriminate].
  assert (Hr : result job = None) by (vm_compute in Hj; injection Hj as <-; reflexivity).
  assert (He : error job = None) by (vm_compute in Hj; injection Hj as <-; reflexivity).
  destruct (worker_sets_result_or_error quiet_job failing_worker_run "job-9" job
              (Raise (OtherError "Timeout 30000ms exceeded")))
    as (job' & Hfin & Hout); [exact Hj | exact Hr | exact He | reflexivity |].
  exists job'. split; [exact Hfin | exact Hout].
Defined.

Lemma trigger_webhook_no_url jobs j :
  (forall job, jobs !! j = Some job -> truthy_opt (webhook_url job) = false) ->
  trigger_webhook jobs j = [].
Proof.
  intros Hno. unfold trigger_webhook.
  destruct (jobs !! j) as [job |]; [| done].
  specialize (Hno job eq_refl). destruct (webhook_url job) as [u |]; [| done].
  cbn in Hno. by rewrite Hno.
Qed.

Lemma step_no_url jobs ev j :
  (forall job, jobs !! j = Some job -> truthy_opt (webhook_url job) = false) ->
  List.filter (fun d => bool_decide (d_job_id d = j)) (snd (step jobs ev)) = [] /\
  (forall job, fst (step jobs ev) !! j = Some job -> truthy_opt (webhook_url job) = false).
Proof.
  intros Hno. destruct (decide (target (snd ev) = j)) as [Ht | Ht].
  - destruct ev as [now [j' st r e]]. cbn [snd target] in Ht. subst j'.
    destruct (jobs !! j) as [job |] eqn:Hj.
    + rewrite (step_target_value jobs j job st r e now Hj). split.
      * cbn [step]. unfold update_job_status. rewrite Hj. fold (updated job st r e now).
        destruct (is_terminal st); cbn [snd]; [| done].
        rewrite trigger_webhook_no_url; [done |].
        intros job'. rewrite lookup_insert_eq. intros [= <-].
        destruct (updated_identity job st r e now) as (_ & _ & _ & -> & _). by apply Hno.
      * intros job'. rewrite lookup_insert_eq. intros [= <-].
        destruct (updated_identity job st r e now) as (_ & _ & _ & -> & _). by apply Hno.
    + rewrite (step_unknown jobs j st r e now Hj). cbn [fst snd]. split; [done |].
      intros job. by rewrite Hj.
  - split.
    + apply filter_none. intros d Hd. apply bool_decide_eq_false_2.
      by rewrite (step_started_ids jobs ev d Hd).
    + intros job. rewrite step_other by done. apply Hno.
Qed.

(** X16.  No target, no notification: for a job id that is unknown, or whose
    job has no webhook url or an empty one, no run of updates starts a
    delivery, whatever statuses it sets. *)
Theorem no_webhook_without_url
    (jobs : gmap string Job) (evs : list (Z * call)) (j : string) :
  (forall job, jobs !! j = Some job -> truthy_opt (webhook_url job) = false) ->
  webhooks_started jobs evs j = [].
Proof.
  revert jobs. induction evs as [|ev evs IH]; intros jobs Hno; [done |].
  rewrite webhooks_started_cons.
  destruct (step_no_url jobs ev j Hno) as [-> Hno'].
  by apply IH.
Qed.

(** The failing worker of a job created without a webhook target. *)
Lemma no_webhook_without_url_witness :
  (forall job, quiet_job !! "job-9" = Some job -> truthy_opt (webhook_url job) = false) /\
  webhooks_started quiet_job failing_worker_run "job-9" = [] /\
  length (terminal_updates failing_worker_run "job-9") = 1%nat.
Proof.
  assert (H : forall job, quiet_job !! "job-9" = Some job ->
                          truthy_opt (webhook_url job) = false).
  { intros job Hj. vm_compute in Hj. by injection Hj as <-. }
  split; [exact H |].
  split; [exact (no_webhook_without_url quiet_job failing_worker_run "job-9" H) |].
  reflexivity.
Defined.

Lemma old_keys (jobs : gmap string Job) max_age_hours now k :
  k ∈ (filter (fun item => is_old max_age_hours now (snd item) = true)
              (map_to_list jobs)).*1 <->
  exists job, jobs !! k = Some job /\ is_old max_age_hours now job = true.
Proof.
  rewrite list_elem_of_fmap. split.
  - intros ([k' job] & -> & [Hold Hin]%list_elem_of_filter).
    apply elem_of_map_to_list in Hin. by exists job.
  - intros (job & Hk & Hold). exists (k, job). split; [done |].
    apply list_elem_of_filter. split; [done | by apply elem_of_map_to_list].
Qed.

Lemma cleanup_old_jobs_lookup (jobs : gmap string Job) max_age_hours now k :
  snd (cleanup_old_jobs jobs max_age_hours now) !! k =
  match jobs !! k with
  | Some job => if is_old max_age_hours now job then None else Some job
  | None => None
  end.
Proof.
  unfold cleanup_old_jobs. cbn [snd]. rewrite delete_items_lookup. case_decide as Hin.
  - apply old_keys in Hin as (job & -> & ->). done.
  - destruct (jobs !! k) as [job |] eqn:Hk; [| done].
    destruct (is_old max_age_hours now job) eqn:Hold; [| done].
    exfalso. apply Hin, old_keys. by exists job.
Qed.

(** X17.  [cleanup_old_jobs] removes exactly the completed and failed jobs
    whose last update is more than [max_age_hours] before now, and returns
    how many: a pending or processing job is never removed, however old, nor
    a finished job that is recent enough; a second run at the same time
    removes nothing. *)
Theorem cleanup_old_jobs_reaps (jobs : gmap string Job) (max_age_hours now : Z) :
  let r := cleanup_old_jobs jobs max_age_hours now in
  (forall k,
     snd r !! k =
     match jobs !! k with
     | Some job => if is_old max_age_hours now job then None else Some job
     | None => None
     end) /\
  (size (snd r) + fst r = size jobs)%nat /\
  (forall k job, jobs !! k = Some job ->
     is_terminal (status job) = false \/
     now - max_age_hours * 3600 * 1000000 <= updated_at job ->
     snd r !! k = Some job) /\
  cleanup_old_jobs (snd r) max_age_hours now = (0%nat, snd r).
Proof.
  intros r. split; [apply cleanup_old_jobs_lookup |]. split; [| split].
  - unfold r, cleanup_old_jobs. cbn [fst snd]. apply delete_items_size.
    + apply NoDup_fst_filter, NoDup_fst_map_to_list.
    + intros [k job] [_ Hin]%list_elem_of_filter.
      apply elem_of_map_to_list in Hin. cbn [fst]. eauto.
  - intros k job Hk Hkeep. unfold r. rewrite cleanup_old_jobs_lookup, Hk.
    assert (is_old max_age_hours now job = false) as ->; [| done].
    unfold is_old. apply andb_false_iff.
    destruct Hkeep as [Hnt | Hrecent]; [by left | right]. apply Z.ltb_ge. lia.
  - assert (Hnone : filter (fun item => is_old max_age_hours now (snd item) = true)
                           (map_to_list (snd r)) = []).
    { apply filter_nil_all. intros [k job] Hin Hold. cbn [snd] in Hold.
      apply elem_of_map_to_list in Hin. unfold r in Hin.
      rewrite cleanup_old_jobs_lookup in Hin.
      destruct (jobs !! k) as [job' |]; [| done].
      destruct (is_old max_age_hours now job') eqn:E; [done |].
      injection Hin as ->. congruence. }
    unfold cleanup_old_jobs at 1. rewrite Hnone. done.
Qed.

(** Reaping three days after a worker failed a job, with the default 48
    hours: the failed job goes, a job that is still pending stays. *)
Lemma cleanup_old_jobs_reaps_witness :
  let jobs := final (quiet_job ∪ one_job) failing_worker_run in
  let now := 3000 + 72 * 3600 * 1000000 in
  fst (cleanup_old_jobs jobs 48 now) = 1%nat /\
  snd (cleanup_old_jobs jobs 48 now) !! "job-9" = None /\
  get_status (snd (cleanup_old_jobs jobs 48 now)) "job-1" = Some "pending".
Proof.
  intros jobs now.
  destruct (cleanup_old_jobs_reaps jobs 48 now) as (Hlook & _ & Hkeep & _).
  destruct (jobs !! "job-1") as [job |] eqn:Hj; [| vm_compute in Hj; discriminate].
  assert (Hpending : status job = "pending")
    by (vm_compute in Hj; injection Hj as <-; reflexivity).
  split; [vm_compute; reflexivity |].
  split; [rewrite Hlook; vm_compute; reflexivity |].
  unfold get_status. rewrite (Hkeep "job-1" job Hj); [by rewrite <- Hpending |].
  left. by rewrite Hpending.
Defined.

(** X18.  The notification describes the update that caused it: a terminal
    update of a job with a webhook target starts exactly one delivery, to the
    job's url with the job's secret, whose payload carries the new status,
    the time of this update as completion time, and the result and error as
    this update leaves them. *)
Theorem terminal_update_payload
    (jobs : gmap string Job) (j : string) (job : Job) (url st : string)
    (r e : option string) (now : Z) :
  jobs !! j = Some job ->
  webhook_url job = Some url ->
  truthy_str url = true ->
  is_terminal st = true ->
  snd (step jobs (now, UpdateJobStatus j st r e)) =
    [ mk_delivery url
        (mk_payload j (job_type job) st (created_at job) now
                    (if truthy_opt r then r else result job)
                    (if truthy_opt e then e else error job))
        (webhook_secret job) j ].
Proof.
  intros Hj Hurl Htruthy Hterm. cbn [step]. unfold update_job_status.
  rewrite Hj, Hterm. fold (updated job st r e now). cbn [snd].
  unfold trigger_webhook. rewrite lookup_insert_eq.
  destruct (updated_identity job st r e now) as (_ & -> & _ & -> & -> & -> & _).
  destruct (updated_fields job st r e now) as (-> & -> & -> & ->).
  by rewrite Hurl, Htruthy.
Qed.

Lemma terminal_update_payload_witness :
  snd (step one_job (3000, UpdateJobStatus "job-1" "completed" (Some "shot.png") None)) =
    [ mk_delivery "https://hooks.example.com/cb"
        (mk_payload "job-1" "screenshot" "completed" 1000 3000 (Some "shot.png") None)
        (Some "s3cret") "job-1" ].
Proof.
  destruct (one_job !! "job-1") as [job |] eqn:Hj; [| vm_compute in Hj; discriminate].
  rewrite (terminal_update_payload one_job "job-1" job "https://hooks.example.com/cb"
             "completed" (Some "shot.png") None 3000 Hj).
  - vm_compute in Hj. by injection Hj as <-.
  - vm_compute in Hj. by injection Hj as <-.
  - reflexivity.
  - reflexivity.
Defined.

Section DeliveryEvents.
Context {D : Type}.
Variable post : nat -> http_outcome.
Variables (jobs : gmap string Job) (url : string) (payload : D).
Variables (headers : list (string * string)) (job_id : string).
Variables (max_retries now : Z).

Local Abbreviation loop := (send_loop post jobs url payload headers job_id max_retries now).

Lemma backoff_events a (ev : io D) :
  ev ∈ backoff (D := D) a max_retries ->
  Z.of_nat a < max_retries - 1 /\ ev = Sleep (2 ^ Z.of_nat a).
Proof.
  unfold backoff. destruct (Z.of_nat a <? max_retries - 1) eqn:E.
  - intros ->%list_elem_of_singleton. split; [lia | done].
  - by intros ?%elem_of_nil.
Qed.

(** Every event of the loop is the same request or a sleep of a power of
    two seconds. *)
Lemma send_loop_events atts (ev : io D) :
  ev ∈ fst (loop atts) ->
  ev = Post url payload headers \/
  exists a, a ∈ atts /\ Z.of_nat a < max_retries - 1 /\ ev = Sleep (2 ^ Z.of_nat a).
Proof.
  induction atts as [|a atts IH]; cbn [send_loop fst]; [by intros ?%elem_of_nil |].
  assert (Hrest : ev ∈ fst (loop atts) ->
                  ev = Post url payload headers \/
                  exists a', a' ∈ a :: atts /\ Z.of_nat a' < max_retries - 1 /\
                             ev = Sleep (2 ^ Z.of_nat a')).
  { intros [-> | (a' & Ha' & Hlt & ->)]%IH; [by left | right].
    exists a'. split; [by right | done]. }
  assert (Hback : ev ∈ Post url payload headers :: backoff a max_retries ++ fst (loop atts) ->
                  ev = Post url payload headers \/
                  exists a', a' ∈ a :: atts /\ Z.of_nat a' < max_retries - 1 /\
                             ev = Sleep (2 ^ Z.of_nat a')).
  { intros [-> | [Hb | Hr]%elem_of_app]%elem_of_cons; [by left | | by apply Hrest].
    apply backoff_events in Hb as [Hlt ->]. right. exists a. split; [by left | done]. }
  destruct (post a) as [code |].
  - destruct (code =? 200).
    + destruct (jobs !! job_id); cbn [fst]; [| exact Hback].
      intros ->%list_elem_of_singleton. by left.
    + cbn [fst]. intros [-> | Hr]%elem_of_cons; [by left | by apply Hrest].
  - cbn [fst]. exact Hback.
Qed.

(** The loop returns early only by marking the job delivered. *)
Lemma send_loop_returned atts jobs' :
  snd (loop atts) = Returned jobs' ->
  exists job, jobs !! job_id = Some job /\ jobs' = <[job_id := set_delivered job now]> jobs.
Proof.
  induction atts as [|a atts IH]; cbn [send_loop snd]; [discriminate |].
  destruct (post a) as [code |]; [| exact IH].
  destruct (code =? 200); [| exact IH].
  destruct (jobs !! job_id) as [job |]; cbn [snd]; [| exact IH].
  intros [= <-]. by exists job.
Qed.

(** For a job that is gone every attempt is made, whatever the answers. *)
Lemma send_loop_missing atts :
  jobs !! job_id = None ->
  snd (loop atts) = Exhausted /\ length (posts (fst (loop atts))) = length atts.
Proof.
  intros Hj. induction atts as [|a atts [IHx IHn]]; [done |].
  cbn [send_loop]. rewrite Hj.
  destruct (post a) as [code |]; [destruct (code =? 200) |];
    cbn [fst snd]; rewrite posts_post, ?posts_backoff; cbn [length];
    by rewrite IHx, IHn.
Qed.

Lemma total_app (l1 l2 : list Z) : total (l1 ++ l2) = total l1 + total l2.
Proof. unfold total. induction l1 as [|x l1 IH]; cbn; lia. Qed.

(** The sleeps of the loop add up to no more than those of a run in which
    every attempt fails by an exception. *)
Lemma send_loop_sleep_total atts :
  0 <= total (sleeps (fst (loop atts))) <=
  total (map (fun a => 2 ^ Z.of_nat a)
             (List.filter (fun a => Z.of_nat a <? max_retries - 1) atts)).
Proof.
  induction atts as [|a atts IH]; [done |].
  assert (Hpow : 0 < 2 ^ Z.of_nat a) by (apply Z.pow_pos_nonneg; lia).
  assert (Hskip : 0 <= total (sleeps (fst (loop atts))) <=
                  total (map (fun a => 2 ^ Z.of_nat a)
                             (List.filter (fun a => Z.of_nat a <? max_retries - 1)
                                          (a :: atts)))).
  { cbn [List.filter]. destruct (Z.of_nat a <? max_retries - 1); [| done].
    cbn [map]. unfold total in *. cbn [foldr]. lia. }
  assert (Hsleep : 0 <= total (sleeps (backoff a max_retries ++ fst (loop atts))) <=
                   total (map (fun a => 2 ^ Z.of_nat a)
                              (List.filter (fun a => Z.of_nat a <? max_retries - 1)
                                           (a :: atts)))).
  { rewrite sleeps_backoff. cbn [List.filter].
    destruct (Z.of_nat a <? max_retries - 1); [| done].
    cbn [map app]. unfold total in *. cbn [foldr]. lia. }
  cbn [send_loop]. destruct (post a) as [code |].
  - destruct (code =? 200).
    + destruct (jobs !! job_id); cbn [fst]; rewrite sleeps_post; [| exact Hsleep].
      change (sleeps (D := D) []) with (@nil Z). unfold total at 1 2. cbn [foldr].
      split; [done |]. lia.
    + cbn [fst]. by rewrite sleeps_post.
  - cbn [fst]. by rewrite sleeps_post.
Qed.
End DeliveryEvents.

Lemma total_powers (m : nat) :
  total (map (fun a => 2 ^ Z.of_nat a) (seq 0 m)) = 2 ^ Z.of_nat m - 1.
Proof.
  induction m as [|m IH]; [done |].
  rewrite seq_S, map_app, total_app, IH. cbn [Nat.add map]. unfold total. cbn [foldr].
  rewrite Nat2Z.inj_succ, Z.pow_succ_r by lia. lia.
Qed.

Lemma send_webhook_trace {D : Type}
    (json_dumps_sorted : D -> string) (hmac_sha256_hexdigest : string -> string -> string)
    (post : nat -> http_outcome) (jobs : gmap string Job) (url : string) (payload : D)
    (secret : option string) (job_id : string) (max_retries : Z) (time_now : Q) (now : Z) :
  let headers := headers_of json_dumps_sorted hmac_sha256_hexdigest payload secret
                            job_id time_now in
  let l := send_loop post jobs url payload headers job_id max_retries now
                     (seq 0 (Z.to_nat max_retries)) in
  _send_webhook json_dumps_sorted hmac_sha256_hexdigest post jobs url payload secret
                job_id max_retries time_now now =
  (fst l,
   match snd l with
   | Returned jobs' => Ok jobs'
   | Exhausted =>
       match jobs !! job_id with
       | Some job => Ok (<[job_id := set_failed job max_retries]> jobs)
       | None => Raise KeyError
       end
   end).
Proof.
  intros headers l. unfold _send_webhook. fold headers. fold l.
  destruct l as [trace [jobs' |]]; cbn [fst snd]; [done |].
  by destruct (jobs !! job_id).
Qed.

(** X19.  What a delivery sends.  Every event of a delivery is a POST of the
    same payload with the same headers to the url it was given, or a sleep
    of at least one second.  The headers name the job; when a non-empty
    secret was given they carry a signature that
    [verify_webhook_signature] accepts for this payload and secret (the
    digest being written in ASCII), and when no secret or an empty one was
    given they carry no signature. *)
Theorem delivery_posts_are_signed {D : Type}
    (json_dumps_sorted : D -> string) (hmac_sha256_hexdigest : string -> string -> string)
    (post : nat -> http_outcome) (jobs : gmap string Job) (url : string) (payload : D)
    (secret : option string) (job_id : string) (max_retries : Z) (time_now : Q) (now : Z) :
  (forall key msg, is_ascii (hmac_sha256_hexdigest key msg) = true) ->
  let r := _send_webhook json_dumps_sorted hmac_sha256_hexdigest post jobs url payload
                         secret job_id max_retries time_now now in
  let headers := headers_of json_dumps_sorted hmac_sha256_hexdigest payload secret
                            job_id time_now in
  (forall ev, ev ∈ fst r ->
     ev = Post url payload headers \/ exists seconds, ev = Sleep seconds /\ 1 <= seconds) /\
  ("X-Webhook-Job-ID", job_id) ∈ headers /\
  (forall s, secret = Some s -> truthy_str s = true ->
     exists signature,
       ("X-Webhook-Signature", signature) ∈ headers /\
       verify_webhook_signature json_dumps_sorted hmac_sha256_hexdigest
                                payload signature s = Ok true) /\
  (truthy_opt secret = false ->
     forall signature, ("X-Webhook-Signature", signature) ∉ headers).
Proof.
  intros Hhex r headers. split; [| split; [| split]].
  - intros ev. unfold r. rewrite send_webhook_trace. cbn [fst]. fold headers.
    intros [-> | (a & _ & _ & ->)]%send_loop_events; [by left | right].
    eexists. split; [reflexivity |].
    assert (0 < 2 ^ Z.of_nat a) by (apply Z.pow_pos_nonneg; lia). lia.
  - unfold headers, headers_of. apply elem_of_app. left.
    apply elem_of_cons. right. by left.
  - intros s -> Hs. exists (_generate_signature json_dumps_sorted hmac_sha256_hexdigest payload s).
    split.
    + unfold headers, headers_of. rewrite Hs. apply elem_of_app. right. by left.
    + unfold verify_webhook_signature.
      rewrite compare_digest_ascii by apply Hhex. by rewrite bool_decide_eq_true_2.
  - intros Hno signature. unfold headers, headers_of.
    assert (match secret with
            | Some s => if truthy_str s
                        then [("X-Webhook-Signature",
                               _generate_signature json_dumps_sorted hmac_sha256_hexdigest
                                                   payload s)]
                        else []
            | None => []
            end = []) as ->.
    { destruct secret as [s |]; [| done]. cbn in Hno. by rewrite Hno. }
    rewrite app_nil_r.
    intros [[=] | [[=] | [[=] | ?%elem_of_nil]%elem_of_cons]%elem_of_cons]%elem_of_cons.
    done.
Qed.

Lemma delivery_posts_are_signed_witness :
  let r := _send_webhook payload_repr hex_keyed flaky one_job
             "https://hooks.example.com/cb" one_payload (Some "s3cret")
             "job-1" default_max_retries (17 # 10) 5000 in
  (forall key msg, is_ascii (hex_keyed key msg) = true) /\
  length (fst r) = 4%nat /\
  exists signature,
    ("X-Webhook-Signature", signature)
      ∈ headers_of payload_repr hex_keyed one_payload (Some "s3cret") "job-1" (17 # 10) /\
    verify_webhook_signature payload_repr hex_keyed one_payload signature "s3cret" = Ok true.
Proof.
  intros r.
  assert (Hhex : forall key msg, is_ascii (hex_keyed key msg) = true)
    by (intros; apply hexlify_ascii).
  destruct (delivery_posts_are_signed payload_repr hex_keyed flaky one_job
              "https://hooks.example.com/cb" one_payload (Some "s3cret") "job-1"
              default_max_retries (17 # 10) 5000 Hhex) as (_ & _ & Hsig & _).
  split; [exact Hhex |]. split; [reflexivity |].
  exact (Hsig "s3cret" eq_refl eq_refl).
Defined.

(** X20.  A delivery touches nothing but the delivery bookkeeping of its own
    job: when it ends without an exception, every other job is as before,
    and its own job keeps status, result, error, update time and webhook
    target, and is either marked delivered at the reading of the clock, or
    marked failed with [attempts = max_retries]. *)
Theorem send_webhook_only_marks {D : Type}
    (json_dumps_sorted : D -> string) (hmac_sha256_hexdigest : string -> string -> string)
    (post : nat -> http_outcome) (jobs jobs' : gmap string Job) (url : string)
    (payload : D) (secret : option string) (job_id : string)
    (max_retries : Z) (time_now : Q) (now : Z) :
  snd (_send_webhook json_dumps_sorted hmac_sha256_hexdigest post jobs url payload
                     secret job_id max_retries time_now now) = Ok jobs' ->
  (forall k, k ≠ job_id -> jobs' !! k = jobs !! k) /\
  exists job job',
    jobs !! job_id = Some job /\ jobs' !! job_id = Some job' /\
    status job' = status job /\ result job' = result job /\ error job' = error job /\
    updated_at job' = updated_at job /\ webhook_url job' = webhook_url job /\
    ((webhook_delivered job' = true /\ webhook_delivered_at job' = Some now /\
      webhook_failed job' = webhook_failed job /\ attempts job' = attempts job) \/
     (webhook_failed job' = true /\ attempts job' = max_retries /\
      webhook_delivered job' = webhook_delivered job)).
Proof.
  rewrite send_webhook_trace. cbn [snd].
  set (l := send_loop _ _ _ _ _ _ _ _ _).
  destruct (snd l) as [jobs1 |] eqn:Hexit.
  - intros [= <-]. apply send_loop_returned in Hexit as (job & Hj & ->).
    split; [intros k Hne; by rewrite lookup_insert_ne |].
    exists job, (set_delivered job now). rewrite lookup_insert_eq.
    repeat split; try done. left. by repeat split.
  - destruct (jobs !! job_id) as [job |] eqn:Hj; [| discriminate].
    intros [= <-]. split; [intros k Hne; by rewrite lookup_insert_ne |].
    exists job, (set_failed job max_retries). rewrite lookup_insert_eq.
    repeat split; try done. right. by repeat split.
Qed.

Lemma send_webhook_only_marks_witness :
  exists jobs',
    snd (_send_webhook payload_repr hex_keyed second_try one_job
           "https://hooks.example.com/cb" one_payload (Some "s3cret")
           "job-1" default_max_retries (17 # 10) 5000) = Ok jobs' /\
    get_status jobs' "job-1" = Some "pending" /\
    (webhook_delivered <$> jobs' !! "job-1") = Some true.
Proof.
  eexists. split; [vm_compute; reflexivity |].
  match goal with |- get_status ?j _ = _ /\ _ => set (jobs' := j) end.
  destruct (send_webhook_only_marks payload_repr hex_keyed second_try one_job jobs'
              "https://hooks.example.com/cb" one_payload (Some "s3cret") "job-1"
              default_max_retries (17 # 10) 5000) as (_ & job & job' & Hj & Hj' & Hst & _).
  { vm_compute. reflexivity. }
  split.
  - unfold get_status. rewrite Hj'. cbn. rewrite Hst.
    vm_compute in Hj. by injection Hj as <-.
  - vm_compute. reflexivity.
Defined.

(** X21.  A delivery for a job that is no longer in the table makes every
    one of its [max_retries] requests, even when the target answers 200, and
    then ends with a [KeyError]. *)
Theorem send_webhook_job_gone {D : Type}
    (json_dumps_sorted : D -> string) (hmac_sha256_hexdigest : string -> string -> string)
    (post : nat -> http_outcome) (jobs : gmap string Job) (url : string) (payload : D)
    (secret : option string) (job_id : string) (max_retries : Z) (time_now : Q) (now : Z) :
  jobs !! job_id = None ->
  let r := _send_webhook json_dumps_sorted hmac_sha256_hexdigest post jobs url payload
                         secret job_id max_retries time_now now in
  length (posts (fst r)) = Z.to_nat max_retries /\ snd r = Raise KeyError.
Proof.
  intros Hj r. unfold r. rewrite send_webhook_trace. cbn [fst snd].
  set (headers := headers_of _ _ _ _ _ _).
  destruct (send_loop_missing post jobs url payload headers job_id max_retries now
              (seq 0 (Z.to_nat max_retries)) Hj) as [-> ->].
  by rewrite length_seq, Hj.
Qed.

Lemma send_webhook_job_gone_witness :
  let r := _send_webhook payload_repr hex_keyed always_ok ∅
             "https://hooks.example.com/cb" one_payload (Some "s3cret")
             "job-1" default_max_retries (17 # 10) 5000 in
  (∅ : gmap string Job) !! "job-1" = None /\
  length (posts (fst r)) = 3%nat /\ snd r = Raise KeyError.
Proof.
  intros r. split; [apply lookup_empty |].
  exact (send_webhook_job_gone payload_repr hex_keyed always_ok ∅
           "https://hooks.example.com/cb" one_payload (Some "s3cret") "job-1"
           default_max_retries (17 # 10) 5000 (lookup_empty _)).
Defined.

(** X22.  The back-off is bounded: whatever the target does, the sleeps of a
    delivery add up to at most [2 ** (max_retries - 1) - 1] seconds, which
    is 3 seconds for the default of three attempts; with one attempt or
    none, it never sleeps. *)
Theorem backoff_total_bounded {D : Type}
    (json_dumps_sorted : D -> string) (hmac_sha256_hexdigest : string -> string -> string)
    (post : nat -> http_outcome) (jobs : gmap string Job) (url : string) (payload : D)
    (secret : option string) (job_id : string) (max_retries : Z) (time_now : Q) (now : Z) :
  let r := _send_webhook json_dumps_sorted hmac_sha256_hexdigest post jobs url payload
                         secret job_id max_retries time_now now in
  (1 <= max_retries ->
   0 <= total (sleeps (fst r)) <= 2 ^ (max_retries - 1) - 1) /\
  (max_retries <= 1 -> sleeps (fst r) = []).
Proof.
  intros r. unfold r. rewrite send_webhook_trace. cbn [fst].
  set (headers := headers_of _ _ _ _ _ _).
  pose proof (send_loop_sleep_total post jobs url payload headers job_id max_retries now
                (seq 0 (Z.to_nat max_retries))) as Hbound.
  rewrite attempts_with_backoff, total_powers in Hbound.
  split.
  - intros Hn. replace (Z.of_nat (Z.to_nat max_retries - 1)) with (max_retries - 1) in Hbound
      by lia. exact Hbound.
  - intros Hn. replace (Z.to_nat max_retries - 1)%nat with 0%nat in Hbound by lia.
    cbn in Hbound.
    set (trace := fst (send_loop post jobs url payload headers job_id max_retries now
                                 (seq 0 (Z.to_nat max_retries)))) in *.
    assert (Hall : forall ev, ev ∈ trace -> ev = Post url payload headers).
    { intros ev [-> | (a & _ & Hlt & _)]%send_loop_events; [done | lia]. }
    clearbody trace. clear Hbound.
    induction trace as [|ev trace IH]; [done |].
    rewrite (Hall ev) by left. cbn. apply IH. intros ev' Hin. apply Hall. by right.
Qed.

(** A target that answers 500, is down, answers 503: one sleep of 2 s. *)
Lemma backoff_total_bounded_witness :
  let r := _send_webhook payload_repr hex_keyed flaky one_job
             "https://hooks.example.com/cb" one_payload (Some "s3cret")
             "job-1" default_max_retries (17 # 10) 5000 in
  1 <= default_max_retries /\
  sleeps (fst r) = [2] /\
  total (sleeps (fst r)) <= 3.
Proof.
  intros r. split; [discriminate |]. split; [reflexivity |].
  destruct (backoff_total_bounded payload_repr hex_keyed flaky one_job
              "https://hooks.example.com/cb" one_payload (Some "s3cret") "job-1"
              default_max_retries (17 # 10) 5000) as [Hb _].
  exact (proj2 (Hb ltac:(discriminate))).
Defined.

End WebhookServiceExtra.

(** * Properties of the API keys and of the request decorator *)

Module AuthServiceExtra.
Import AuthService.

(** [key_info] with ['active'] set to [False]. *)
Local Abbreviation off info :=
  (mk_info (name info) (created info) (Some false) (hashed info) (migrated_from info)).

Lemma getitem_in keys key info : getitem keys key = Some info -> (key, info) ∈ keys.
Proof.
  induction keys as [|[k i] keys IH]; cbn [getitem]; [done |].
  case_decide as Hk; [intros [= <-]; subst; by left | intros H; right; by apply IH].
Qed.

Lemma getitem_None keys key : key ∉ keys.*1 -> getitem keys key = None.
Proof.
  induction keys as [|[k i] keys IH]; cbn [getitem fmap list_fmap fst]; [done |].
  intros Hnin. rewrite decide_False.
  - apply IH. intros Hin. apply Hnin. by right.
  - intros ->. apply Hnin. by left.
Qed.

Lemma set_inactive_keys keys key : (set_inactive keys key).*1 = keys.*1.
Proof.
  induction keys as [|[k i] keys IH]; cbn [set_inactive]; [done |].
  case_decide; cbn [fmap list_fmap fst]; [done | by f_equal].
Qed.

Lemma set_inactive_absent keys key : key ∉ keys.*1 -> set_inactive keys key = keys.
Proof.
  induction keys as [|[k i] keys IH]; cbn [set_inactive fmap list_fmap fst]; [done |].
  intros Hnin. rewrite decide_False.
  - f_equal. apply IH. intros Hin. apply Hnin. by right.
  - intros ->. apply Hnin. by left.
Qed.

Lemma getitem_set_inactive keys key key' :
  getitem (set_inactive keys key) key' =
  if decide (key' = key) then (fun info => off info) <$> getitem keys key'
  else getitem keys key'.
Proof.
  induction keys as [|[k i] keys IH]; cbn [set_inactive getitem].
  - by case_decide.
  - destruct (decide (k = key)) as [-> | Hk]; cbn [getitem].
    + destruct (decide (key = key')) as [<- | Hne].
      * by rewrite decide_True.
      * by rewrite (decide_False (P := key' = key)).
    + destruct (decide (k = key')) as [-> | Hk'].
      * by rewrite (decide_False (P := key' = key)).
      * exact IH.
Qed.

Section Keys.
Variable checkpw : string -> string -> pyres bool.

Lemma first_verified_in items api_key h info :
  first_verified checkpw items api_key = Some (h, info) -> (h, info) ∈ items.
Proof.
  induction items as [|[k i] items IH]; cbn [first_verified]; [done |].
  destruct (hashed i && verify_api_key checkpw api_key k).
  - intros [= <- <-]. by left.
  - intros H. right. by apply IH.
Qed.

(** Switching a key off moves no item and changes no flag but [active], so
    the loops stop at the same item. *)
Lemma first_verified_set_inactive keys key api_key :
  NoDup keys.*1 ->
  first_verified checkpw (set_inactive keys key) api_key =
  (fun item => if decide (fst item = key) then (fst item, off (snd item)) else item)
    <$> first_verified checkpw keys api_key.
Proof.
  induction keys as [|[k i] keys IH]; cbn [set_inactive first_verified fmap list_fmap fst];
    [done |].
  intros [Hk Hnd]%NoDup_cons.
  destruct (decide (k = key)) as [-> | Hne]; cbn [first_verified hashed].
  - destruct (hashed i && verify_api_key checkpw api_key key) eqn:E.
    + cbn. by rewrite decide_True.
    + destruct (first_verified checkpw keys api_key) as [[h info] |] eqn:Hf; [| done].
      cbn. rewrite decide_False; [done |].
      intros ->. apply Hk. apply list_elem_of_fmap. exists (key, info).
      split; [done |]. by apply (first_verified_in keys api_key).
  - destruct (hashed i && verify_api_key checkpw api_key k) eqn:E.
    + cbn. by rewrite decide_False.
    + by apply IH.
Qed.

Lemma validate_after_set_inactive keys key api_key :
  NoDup keys.*1 ->
  validate_api_key checkpw (set_inactive keys key) api_key = true ->
  validate_api_key checkpw keys api_key = true.
Proof.
  intros Hnd. unfold validate_api_key.
  rewrite getitem_set_inactive, first_verified_set_inactive by done.
  destruct (getitem keys api_key) as [info |].
  - case_decide; [discriminate | done].
  - replace (if decide (api_key = key)
             then (fun info => off info) <$> (None : option KeyInfo) else None)
      with (None : option KeyInfo) by (by case_decide).
    destruct (first_verified checkpw keys api_key) as [[h info] |]; [| done].
    cbn. case_decide; [discriminate | done].
Qed.

Lemma validate_after_deactivate keys api_key :
  NoDup keys.*1 ->
  validate_api_key checkpw (snd (deactivate_api_key checkpw keys api_key)) api_key = false.
Proof.
  intros Hnd. unfold deactivate_api_key.
  destruct (getitem keys api_key) as [info |] eqn:Hdirect; cbn [snd].
  - unfold validate_api_key. rewrite getitem_set_inactive, decide_True, Hdirect by done.
    done.
  - destruct (first_verified checkpw keys api_key) as [[h info] |] eqn:Hhash; cbn [snd].
    + unfold validate_api_key.
      rewrite getitem_set_inactive, first_verified_set_inactive, Hdirect, Hhash by done.
      replace (if decide (api_key = h)
               then (fun info => off info) <$> (None : option KeyInfo) else None)
        with (None : option KeyInfo) by (by case_decide).
      cbn. by rewrite decide_True.
    + unfold validate_api_key. by rewrite Hdirect, Hhash.
Qed.

(** X23.  A deactivated key stays out: whatever [deactivate_api_key]
    returns, the key does not validate afterwards.  It returns [False] only
    for a key that did not validate before either, and then changes
    nothing; it leaves the set and order of stored keys as they were; and it
    makes no other key valid. *)
Theorem deactivate_then_invalid (keys : api_keys) (api_key : string) :
  NoDup keys.*1 ->
  let r := deactivate_api_key checkpw keys api_key in
  validate_api_key checkpw (snd r) api_key = false /\
  (fst r = false -> snd r = keys /\ validate_api_key checkpw keys api_key = false) /\
  (snd r).*1 = keys.*1 /\
  (forall other, validate_api_key checkpw (snd r) other = true ->
                 validate_api_key checkpw keys other = true).
Proof.
  intros Hnd r. split; [by apply validate_after_deactivate |].
  unfold r, deactivate_api_key.
  destruct (getitem keys api_key) as [info |] eqn:Hdirect.
  - cbn [fst snd]. split; [discriminate | split].
    + apply set_inactive_keys.
    + intros other. by apply validate_after_set_inactive.
  - destruct (first_verified checkpw keys api_key) as [[h info] |] eqn:Hhash.
    + cbn [fst snd]. split; [discriminate | split].
      * apply set_inactive_keys.
      * intros other. by apply validate_after_set_inactive.
    + cbn [fst snd]. split; [| done].
      intros _. split; [done |]. unfold validate_api_key. by rewrite Hdirect, Hhash.
Qed.
End Keys.

(** Deactivating the hashed key by its plaintext: it validated, it no
    longer does, and the legacy key still does. *)
Lemma deactivate_then_invalid_witness :
  NoDup two_keys.*1 /\
  validate_api_key toy_checkpw two_keys "s3cr3t-token" = true /\
  validate_api_key toy_checkpw
    (snd (deactivate_api_key toy_checkpw two_keys "s3cr3t-token")) "s3cr3t-token" = false /\
  validate_api_key toy_checkpw
    (snd (deactivate_api_key toy_checkpw two_keys "s3cr3t-token")) "demo-key-12345" = true.
Proof.
  assert (Hnd : NoDup two_keys.*1).
  { cbn. repeat constructor; [| by intros ?%elem_of_nil].
    intros [= ]%list_elem_of_singleton. }
  split; [exact Hnd |]. split; [vm_compute; reflexivity |].
  split; [exact (proj1 (deactivate_then_invalid toy_checkpw two_keys "s3cr3t-token" Hnd)) |].
  vm_compute. reflexivity.
Defined.

Lemma getitem_app keys h info key :
  getitem (keys ++ [(h, info)]) key =
  match getitem keys key with
  | Some i => Some i
  | None => if decide (h = key) then Some info else None
  end.
Proof.
  induction keys as [|[k i] keys IH]; cbn [app getitem]; [reflexivity |].
  destruct (decide (k = key)); [reflexivity | exact IH].
Qed.

Lemma first_verified_app checkpw keys h info api_key :
  first_verified checkpw (keys ++ [(h, info)]) api_key =
  match first_verified checkpw keys api_key with
  | Some item => Some item
  | None => if hashed info && verify_api_key checkpw api_key h
            then Some (h, info) else None
  end.
Proof.
  induction keys as [|[k i] keys IH]; cbn [app first_verified]; [reflexivity |].
  destruct (hashed i && verify_api_key checkpw api_key k); [reflexivity | exact IH].
Qed.

(** X24.  A key that [add_api_key] stores validates from then on, provided
    no entry matched it before (bcrypt accepting the key against the hash
    just made of it).  If an entry did match it, a legacy entry under the
    key itself or an older hash of it, that entry still decides: adding a
    deactivated key again does not bring it back.  And adding a key makes no
    key invalid that validated before. *)
Theorem added_key_validates (checkpw : string -> string -> pyres bool)
    (hash_api_key : string -> string) (generate_api_key : string * string)
    (keys keys' : api_keys) (today name : string) (key : option string)
    (plaintext_key hashed_key : string) :
  key_pair hash_api_key generate_api_key key = (plaintext_key, hashed_key) ->
  add_api_key hash_api_key generate_api_key keys today name key
    = ((plaintext_key, true), keys') ->
  verify_api_key checkpw plaintext_key hashed_key = true ->
  (getitem keys plaintext_key = None ->
   first_verified checkpw keys plaintext_key = None ->
   validate_api_key checkpw keys' plaintext_key = true) /\
  (fst (deactivate_api_key checkpw keys plaintext_key) = true ->
   plaintext_key <> hashed_key ->
   validate_api_key checkpw keys' plaintext_key
     = validate_api_key checkpw keys plaintext_key) /\
  (forall other, validate_api_key checkpw keys other = true ->
                 validate_api_key checkpw keys' other = true).
Proof.
  intros Hpair Hadd Hv. unfold add_api_key in Hadd. rewrite Hpair in Hadd.
  destruct (getitem keys hashed_key) eqn:Hh; [discriminate |].
  injection Hadd as <-.
  split; [| split].
  - intros Hdirect Hhash. unfold validate_api_key.
    rewrite getitem_app, Hdirect, first_verified_app, Hhash. cbn [hashed andb].
    rewrite Hv. by case_decide.
  - unfold deactivate_api_key, validate_api_key.
    rewrite getitem_app, first_verified_app.
    destruct (getitem keys plaintext_key) eqn:Hdirect; [done |].
    destruct (first_verified checkpw keys plaintext_key) as [[h0 i0] |] eqn:Hhash;
      [| discriminate].
    intros _ Hne. by rewrite decide_False.
  - intros other. unfold validate_api_key.
    rewrite getitem_app, first_verified_app.
    destruct (getitem keys other); [done |].
    destruct (first_verified checkpw keys other) as [[h0 i0] |]; [| discriminate].
    by case_decide.
Qed.

(** The hashed key of [two_keys] is deactivated and added again under a
    fresh hash: it still does not validate, while a new key does. *)
Lemma added_key_validates_witness :
  validate_api_key toy_checkpw
    (snd (add_api_key toy_hash ("", "")
            (snd (deactivate_api_key toy_checkpw two_keys "s3cr3t-token"))
            "2025-10-07" "Custom Key" (Some "fresh-key")))
    "fresh-key" = true /\
  validate_api_key toy_checkpw
    (snd (add_api_key toy_hash ("", "")
            (snd (deactivate_api_key toy_checkpw two_keys "s3cr3t-token"))
            "2025-10-07" "Custom Key" (Some "s3cr3t-token")))
    "s3cr3t-token" = false.
Proof.
  split.
  - refine (proj1 (added_key_validates toy_checkpw toy_hash ("", "")
                     (snd (deactivate_api_key toy_checkpw two_keys "s3cr3t-token")) _
                     "2025-10-07" "Custom Key" (Some "fresh-key")
                     "fresh-key" (toy_hash "fresh-key") _ _ _) _ _);
      vm_compute; reflexivity.
  - refine (eq_trans (proj1 (proj2 (added_key_validates toy_checkpw toy_hash ("", "")
                     (snd (deactivate_api_key toy_checkpw two_keys "s3cr3t-token")) _
                     "2025-10-07" "Custom Key" (Some "s3cr3t-token")
                     "s3cr3t-token" (toy_hash "s3cr3t-token") _ _ _)) _ _) _);
      try (vm_compute; reflexivity).
    discriminate.
Defined.

Lemma setitem_elem {A : Type} (d : list (string * A)) key value item :
  item ∈ setitem d key value -> item ∈ d \/ item = (key, value).
Proof.
  induction d as [|[k v] d IH]; cbn [setitem].
  - intros ->%list_elem_of_singleton. by right.
  - destruct (decide (k = key)) as [-> | Hne].
    + intros [-> | Hin]%elem_of_cons; [by right | left; by right].
    + intros [-> | Hin]%elem_of_cons; [left; by left |].
      destruct (IH Hin) as [? | ?]; [left; by right | by right].
Qed.

Lemma setitem_fresh {A : Type} (d : list (string * A)) key value :
  key ∉ d.*1 -> setitem d key value = d ++ [(key, value)].
Proof.
  induction d as [|[k v] d IH]; cbn [setitem fmap list_fmap fst app]; [done |].
  intros Hnin. rewrite decide_False.
  - f_equal. apply IH. intros Hin. apply Hnin. by right.
  - intros ->. apply Hnin. by left.
Qed.

Lemma first_verified_verifies checkpw items api_key h info :
  first_verified checkpw items api_key = Some (h, info) ->
  hashed info = true /\ verify_api_key checkpw api_key h = true.
Proof.
  induction items as [|[k i] items IH]; cbn [first_verified]; [done |].
  destruct (hashed i && verify_api_key checkpw api_key k) eqn:E; [| exact IH].
  intros [= <- <-]. by apply andb_true_iff in E.
Qed.

(** The legacy entries of a store, in order. *)
Local Abbreviation legacy keys :=
  (filter (B := list (string * KeyInfo))
          (fun item : string * KeyInfo => hashed (snd item) = false) keys).

Section Migration.
Variable generate_api_key : nat -> string * string.
Variable today : nat -> string.

Lemma migrate_loop_new_keys items i migrations new_keys h info :
  (forall h info, (h, info) ∈ new_keys ->
     hashed info = true /\ exists j, (j < i)%nat /\ h = snd (generate_api_key j)) ->
  (h, info) ∈ snd (migrate_loop generate_api_key today items i migrations new_keys) ->
  hashed info = true /\
  exists j, (j < i + length (legacy items))%nat /\ h = snd (generate_api_key j).
Proof.
  revert i migrations new_keys.
  induction items as [|[old_key old] items IH]; intros i migrations new_keys Hinv;
    cbn [migrate_loop snd].
  - intros Hin. destruct (Hinv _ _ Hin) as (Hh & j & Hj & ->).
    split; [done |]. exists j. split; [lia | done].
  - destruct (hashed old) eqn:Hold; cbn [negb].
    + rewrite filter_cons_False by (cbn; congruence).
      by apply IH.
    + rewrite filter_cons_True by done. cbn [length].
      destruct (generate_api_key i) as [plaintext_key hashed_key] eqn:Hgen.
      intros Hin. eapply IH in Hin.
      * destruct Hin as (Hh & j & Hj & ->). split; [done |]. exists j. split; [lia | done].
      * intros h' info' [Hin' | [= -> ->]]%setitem_elem.
        -- destruct (Hinv _ _ Hin') as (Hh & j & Hj & ->).
           split; [done |]. exists j. split; [lia | done].
        -- split; [done |]. exists i. split; [lia |]. by rewrite Hgen.
Qed.

Lemma migrate_loop_migrations items i migrations new_keys :
  NoDup items.*1 ->
  (forall k, k ∈ items.*1 -> k ∉ migrations.*1) ->
  fst (migrate_loop generate_api_key today items i migrations new_keys)
  = migrations ++ imap (fun j item => (fst item, fst (generate_api_key (i + j))))
                       (legacy items).
Proof.
  revert i migrations new_keys.
  induction items as [|[old_key old] items IH]; intros i migrations new_keys Hnd Hfresh;
    cbn [migrate_loop fst].
  - by rewrite filter_nil, app_nil_r.
  - apply NoDup_cons in Hnd as [Hold_key Hnd]. cbn [fmap list_fmap fst] in Hold_key.
    destruct (hashed old) eqn:Hold; cbn [negb].
    + rewrite filter_cons_False by (cbn; congruence).
      apply IH; [done |]. intros k Hk. apply Hfresh. by right.
    + rewrite filter_cons_True by done.
      destruct (generate_api_key i) as [plaintext_key hashed_key] eqn:Hgen.
      rewrite IH; [| done |].
      * rewrite setitem_fresh by (apply Hfresh; by left).
        rewrite <- app_assoc. cbn [app imap fst]. rewrite Nat.add_0_r, Hgen. cbn [fst].
        do 2 f_equal. apply imap_ext. intros j item _. cbn. do 3 f_equal. lia.
      * intros k Hk. rewrite setitem_fresh by (apply Hfresh; by left).
        rewrite fmap_app. intros [Hin | Hin]%elem_of_app.
        -- revert Hin. apply Hfresh. by right.
        -- apply list_elem_of_singleton in Hin. cbn in Hin. by subst.
Qed.

Lemma migrate_loop_new_list items i migrations new_keys :
  (forall j j', (j < i + length (legacy items))%nat ->
                (j' < i + length (legacy items))%nat ->
     snd (generate_api_key j) = snd (generate_api_key j') -> j = j') ->
  (forall h, h ∈ new_keys.*1 -> exists j, (j < i)%nat /\ h = snd (generate_api_key j)) ->
  snd (migrate_loop generate_api_key today items i migrations new_keys)
  = new_keys ++ imap (fun j item => (snd (generate_api_key (i + j)),
                                     migrated today (i + j) (fst item) (snd item)))
                     (legacy items).
Proof.
  revert i migrations new_keys.
  induction items as [|[old_key old] items IH]; intros i migrations new_keys Hinj Hnew;
    cbn [migrate_loop snd].
  - by rewrite filter_nil, app_nil_r.
  - destruct (hashed old) eqn:Hold; cbn [negb].
    + rewrite filter_cons_False in Hinj |- * by (cbn; congruence). by apply IH.
    + rewrite filter_cons_True in Hinj |- * by done. cbn [length] in Hinj.
      destruct (generate_api_key i) as [plaintext_key hashed_key] eqn:Hgen.
      assert (Hfresh : hashed_key ∉ new_keys.*1).
      { intros Hin. destruct (Hnew _ Hin) as (j & Hj & Heq).
        assert (i = j); [| lia].
        apply Hinj; [lia | lia |]. by rewrite Hgen. }
      rewrite (setitem_fresh new_keys) by done. rewrite IH.
      * rewrite <- app_assoc. cbn [app imap fst snd]. rewrite Nat.add_0_r, Hgen.
        cbn [snd]. do 2 f_equal. apply imap_ext. intros j item _. cbn.
        by replace (i + S j)%nat with (S (i + j)) by lia.
      * intros j j' Hj Hj'. apply Hinj; lia.
      * intros h. rewrite fmap_app. intros [Hin | Hin]%elem_of_app.
        -- destruct (Hnew _ Hin) as (j & Hj & ->). exists j. split; [lia | done].
        -- apply list_elem_of_singleton in Hin. cbn in Hin. subst h.
           exists i. split; [lia |]. by rewrite Hgen.
Qed.

Lemma first_verified_imap checkpw (l : list (string * KeyInfo)) i0 i item api_key :
  l !! i = Some item ->
  (forall j, (j < i)%nat ->
     verify_api_key checkpw api_key (snd (generate_api_key (i0 + j))) = false) ->
  verify_api_key checkpw api_key (snd (generate_api_key (i0 + i))) = true ->
  first_verified checkpw
    (imap (fun j item => (snd (generate_api_key (i0 + j)),
                          migrated today (i0 + j) (fst item) (snd item))) l) api_key
  = Some (snd (generate_api_key (i0 + i)), migrated today (i0 + i) (fst item) (snd item)).
Proof.
  revert i0 i.
  induction l as [|x l IH]; intros i0 i Hl Hearlier Hv; [done |].
  cbn [imap first_verified migrated hashed andb].
  destruct i as [|i].
  - injection Hl as ->. by rewrite Hv.
  - rewrite (Hearlier 0%nat) by lia.
    cbn in Hl.
    rewrite (imap_ext _ (fun j item => (snd (generate_api_key (S i0 + j)),
                                   migrated today (S i0 + j) (fst item) (snd item)))).
    2:{ intros j y _. cbn. by replace (i0 + S j)%nat with (S (i0 + j)) by lia. }
    rewrite (IH (S i0) i Hl).
    + by replace (S i0 + i)%nat with (i0 + S i)%nat by lia.
    + intros j Hj. replace (S i0 + j)%nat with (i0 + S j)%nat by lia.
      apply Hearlier. lia.
    + by replace (S i0 + i)%nat with (i0 + S i)%nat by lia.
Qed.

(** X25.  Migration replaces the store, it does not add to it.  Every entry
    of the store after [migrate_legacy_keys] is a hashed entry under a hash
    generated in this call, one per legacy key at most, so a key validates
    afterwards only if it is one of those hashes or bcrypt accepts it
    against one: the keys that were stored hashed before are dropped with
    the legacy ones, and a store without legacy keys is left empty.  The
    mapping returned gives, for each legacy key in order, the plaintext
    generated for it. *)
Theorem migration_keeps_only_new_hashes
    (checkpw : string -> string -> pyres bool) (keys : api_keys) :
  let r := migrate_legacy_keys generate_api_key today keys in
  let n := length (legacy keys) in
  (forall h info, (h, info) ∈ snd r ->
     hashed info = true /\ exists i, (i < n)%nat /\ h = snd (generate_api_key i)) /\
  (forall k, validate_api_key checkpw (snd r) k = true ->
     exists i, (i < n)%nat /\
       (k = snd (generate_api_key i) \/
        verify_api_key checkpw k (snd (generate_api_key i)) = true)) /\
  (n = 0%nat -> snd r = []) /\
  (NoDup keys.*1 ->
   fst r = imap (fun i item => (fst item, fst (generate_api_key i))) (legacy keys)).
Proof.
  intros r n.
  assert (Hall : forall h info, (h, info) ∈ snd r ->
            hashed info = true /\ exists i, (i < n)%nat /\ h = snd (generate_api_key i)).
  { intros h info Hin. unfold r, migrate_legacy_keys in Hin.
    apply migrate_loop_new_keys in Hin; [exact Hin |].
    intros ? ? Hnil. by apply elem_of_nil in Hnil. }
  split; [exact Hall |]. split; [| split].
  - intros k. unfold validate_api_key.
    destruct (getitem (snd r) k) as [info |] eqn:Hdirect.
    + intros _. apply getitem_in in Hdirect.
      destruct (Hall _ _ Hdirect) as (_ & i & Hi & ->). exists i. split; [done | by left].
    + destruct (first_verified checkpw (snd r) k) as [[h info] |] eqn:Hhash; [| done].
      intros _. pose proof (first_verified_in _ _ _ _ _ Hhash) as Hin.
      apply first_verified_verifies in Hhash as [_ Hv].
      destruct (Hall _ _ Hin) as (_ & i & Hi & ->). exists i. split; [done | by right].
  - intros Hn. destruct (snd r) as [|[h info] rest] eqn:Hr; [done |].
    destruct (Hall h info) as (_ & i & Hi & _); [by left | lia].
  - intros Hnd. unfold r, migrate_legacy_keys.
    rewrite migrate_loop_migrations; [done | done |].
    intros k _ Hnil. by apply elem_of_nil in Hnil.
Qed.
(** X26.  The key that migration hands out for a legacy key works in its
    place: provided the generated hashes are distinct, no generated
    plaintext is one of them, and bcrypt accepts a generated plaintext
    against its own hash and no earlier one, the plaintext generated for
    the [i]-th legacy key validates afterwards exactly when that legacy key
    was active, a legacy key without an [active] flag counting as active
    here although [validate_api_key] rejected it. *)
Theorem migrated_key_validates
    (checkpw : string -> string -> pyres bool) (keys : api_keys)
    (i : nat) (old_key : string) (info : KeyInfo) :
  let r := migrate_legacy_keys generate_api_key today keys in
  let n := length (legacy keys) in
  (forall j j', (j < n)%nat -> (j' < n)%nat ->
     snd (generate_api_key j) = snd (generate_api_key j') -> j = j') ->
  (forall j, (j < n)%nat -> fst (generate_api_key i) <> snd (generate_api_key j)) ->
  (forall j, (j < i)%nat ->
     verify_api_key checkpw (fst (generate_api_key i)) (snd (generate_api_key j)) = false) ->
  verify_api_key checkpw (fst (generate_api_key i)) (snd (generate_api_key i)) = true ->
  legacy keys !! i = Some (old_key, info) ->
  validate_api_key checkpw (snd r) (fst (generate_api_key i))
    = default true (active info) /\
  (NoDup keys.*1 -> active info = None ->
   validate_api_key checkpw keys old_key = false).
Proof.
  intros r n Hinj Hplain Hearlier Hv Hi.
  assert (Hr : snd r = imap (fun j item => (snd (generate_api_key j),
                                migrated today j (fst item) (snd item))) (legacy keys)).
  { unfold r, migrate_legacy_keys. rewrite migrate_loop_new_list; [done | exact Hinj |].
    intros h Hnil. by apply elem_of_nil in Hnil. }
  split.
  - unfold validate_api_key. rewrite Hr.
    rewrite getitem_None.
    + rewrite (first_verified_imap checkpw (legacy keys) 0 i (old_key, info)); done.
    + intros Hin. apply list_elem_of_fmap in Hin as ([h x] & Heq & Hin).
      apply list_elem_of_lookup in Hin as [j Hj].
      rewrite list_lookup_imap in Hj.
      destruct (legacy keys !! j) as [item |] eqn:Hitem; [| done].
      injection Hj as Hh _. apply (Hplain j); [| by rewrite Heq, <- Hh].
      by apply lookup_lt_Some in Hitem.
  - intros Hnd Hactive. unfold validate_api_key.
    assert (Hin : (old_key, info) ∈ keys).
    { apply list_elem_of_lookup_2 in Hi. by apply list_elem_of_filter in Hi as [_ ?]. }
    assert (Hget : getitem keys old_key = Some info).
    { clear -Hnd Hin. induction keys as [|[k x] l IH]; [by apply elem_of_nil in Hin |].
      apply NoDup_cons in Hnd as [Hk Hnd]. cbn [getitem].
      apply elem_of_cons in Hin as [[= <- <-] | Hin]; [by rewrite decide_True |].
      rewrite decide_False; [by apply IH |].
      intros ->. apply Hk. apply list_elem_of_fmap. by exists (old_key, info). }
    rewrite Hget. unfold is_active. by rewrite Hactive.
Qed.
End Migration.

(** The legacy key of [unflagged_keys] does not validate; the key generated
    for it by the migration does. *)
Lemma migrated_key_validates_witness :
  validate_api_key toy_checkpw unflagged_keys "old-key" = false /\
  validate_api_key toy_checkpw
    (snd (migrate_legacy_keys toy_generate (fun _ => "2025-10-07") unflagged_keys))
    "generated-0" = true.
Proof.
  assert (Hnd : NoDup unflagged_keys.*1).
  { cbn. repeat constructor; [| by intros ?%elem_of_nil].
    intros [= ]%list_elem_of_singleton. }
  assert (Hone : forall j, (j < 1)%nat -> j = 0%nat) by lia.
  destruct (migrated_key_validates toy_generate (fun _ => "2025-10-07") toy_checkpw
              unflagged_keys 0 "old-key" (mk_info None None None false None))
    as [Hnew Hold].
  - cbn. intros j j' Hj Hj' _. rewrite (Hone j Hj), (Hone j' Hj'). reflexivity.
  - cbn. intros j Hj. rewrite (Hone j Hj). discriminate.
  - intros j Hj. lia.
  - vm_compute. reflexivity.
  - vm_compute. reflexivity.
  - split; [exact (Hold Hnd eq_refl) | exact Hnew].
Defined.

(** Migrating [two_keys]: the legacy key is mapped to the generated
    plaintext, and the key that was stored hashed no longer validates. *)
Lemma migration_keeps_only_new_hashes_witness :
  fst (migrate_legacy_keys toy_generate (fun _ => "2025-10-07") two_keys)
    = [("demo-key-12345", "generated-0")] /\
  validate_api_key toy_checkpw two_keys "s3cr3t-token" = true /\
  validate_api_key toy_checkpw
    (snd (migrate_legacy_keys toy_generate (fun _ => "2025-10-07") two_keys))
    "s3cr3t-token" = false.
Proof.
  assert (Hnd : NoDup two_keys.*1).
  { cbn. repeat constructor; [| by intros ?%elem_of_nil].
    intros [= ]%list_elem_of_singleton. }
  split; [| split; vm_compute; reflexivity].
  exact (proj2 (proj2 (proj2
    (migration_keeps_only_new_hashes toy_generate (fun _ => "2025-10-07")
       toy_checkpw two_keys))) Hnd).
Defined.

End AuthServiceExtra.

(** * Properties of the request path in app.py *)

Module AppExtra.
Import AuthService App.




Lemma with_format_twice p f g : with_format (with_format p f) g = with_format p g.
Proof. reflexivity. Qed.

Lemma validate_cases p p' :
  validate p = inr p' ->
  truthy_str (CacheService.url p) = true /\
  String.prefix "http://" (CacheService.url p)
    || String.prefix "https://" (CacheService.url p) = true /\
  CacheService.image_format p ∈ ["png"; "jpeg"; "jpg"; "pdf"] /\
  (100 <= CacheService.width p <= 3840) /\
  (100 <= CacheService.height p <= 2160) /\
  (1 <= CacheService.quality p <= 100) /\
  p' = with_format p (if bool_decide (CacheService.image_format p = "jpg")
                      then "jpeg" else CacheService.image_format p).
Proof.
  unfold validate.
  destruct (truthy_str (CacheService.url p)); cbn [negb]; [| discriminate].
  destruct (String.prefix "http://" (CacheService.url p)
            || String.prefix "https://" (CacheService.url p)); cbn [negb]; [| discriminate].
  case_bool_decide as Hfmt; cbn [negb]; [| discriminate].
  destruct (CacheService.width p <? 100) eqn:W1; cbn [orb]; [discriminate |].
  destruct (CacheService.width p >? 3840) eqn:W2; cbn [orb]; [discriminate |].
  destruct (CacheService.height p <? 100) eqn:H1; cbn [orb]; [discriminate |].
  destruct (CacheService.height p >? 2160) eqn:H2; cbn [orb]; [discriminate |].
  destruct (CacheService.quality p <? 1) eqn:Q1; cbn [orb]; [discriminate |].
  destruct (CacheService.quality p >? 100) eqn:Q2; cbn [orb]; [discriminate |].
  intros [= <-].
  rewrite Z.gtb_ltb in W2, H2, Q2.
  apply Z.ltb_ge in W1, W2, H1, H2, Q1, Q2.
  repeat split; try done; lia.
Qed.

(** What the validation lets through, and that it lets it through again. *)
Lemma validate_accepts_normal (p p' : CacheService.params) :
  validate p = inr p' ->
  (String.prefix "http://" (CacheService.url p') = true \/
   String.prefix "https://" (CacheService.url p') = true) /\
  (100 <= CacheService.width p' <= 3840) /\
  (100 <= CacheService.height p' <= 2160) /\
  (1 <= CacheService.quality p' <= 100) /\
  CacheService.image_format p' ∈ ["png"; "jpeg"; "pdf"] /\
  p' = with_format p (CacheService.image_format p') /\
  validate p' = inr p'.
Proof.
  intros Hv. pose proof Hv as Hv0.
  apply validate_cases in Hv as (Hurl & Hpre & Hfmt & Hw & Hh & Hq & ->).
  assert (Hfmt' : (if bool_decide (CacheService.image_format p = "jpg")
                   then "jpeg" else CacheService.image_format p) ∈ ["png"; "jpeg"; "pdf"]).
  { case_bool_decide as Hj; rewrite !elem_of_cons; [right; by left |].
    rewrite !elem_of_cons in Hfmt.
    destruct Hfmt as [Hx | [Hx | [Hx | [Hx | Hx]]]];
      [by left | right; by left | done | right; right; by left | by right; right; right]. }
  cbn [with_format CacheService.url CacheService.width CacheService.height
       CacheService.quality CacheService.image_format].
  split; [by apply orb_true_iff |].
  do 3 (split; [done |]). split; [done |]. split; [done |].
  unfold validate.
  cbn [with_format CacheService.url CacheService.width CacheService.height
       CacheService.quality CacheService.image_format].
  rewrite Hurl, Hpre. cbn [negb].
  rewrite bool_decide_true.
  2:{ rewrite !elem_of_cons in Hfmt'. rewrite !elem_of_cons.
      destruct Hfmt' as [Hx | [Hx | [Hx | Hx]]];
        [by left | right; by left | right; right; right; by left
        | by right; right; right; right]. }
  cbn [negb].
  replace (CacheService.width p <? 100) with false by (symmetry; apply Z.ltb_ge; lia).
  replace (CacheService.width p >? 3840) with false
    by (symmetry; rewrite Z.gtb_ltb; apply Z.ltb_ge; lia).
  replace (CacheService.height p <? 100) with false by (symmetry; apply Z.ltb_ge; lia).
  replace (CacheService.height p >? 2160) with false
    by (symmetry; rewrite Z.gtb_ltb; apply Z.ltb_ge; lia).
  replace (CacheService.quality p <? 1) with false by (symmetry; apply Z.ltb_ge; lia).
  replace (CacheService.quality p >? 100) with false
    by (symmetry; rewrite Z.gtb_ltb; apply Z.ltb_ge; lia).
  cbn [orb]. rewrite with_format_twice. do 2 f_equal.
  case_bool_decide as Hj; [done |].
  by rewrite bool_decide_false.
Qed.

(** X28.  A GET request that [screenshot()] parses and accepts has an
    http(s) URL, a viewport of 100..3840 by 100..2160, a quality of 1..100
    and one of the formats png, jpeg, pdf: ['jpg'] never gets past the
    validation under that name.  Nothing but the format is changed from
    what was parsed, and the accepted request passes the validation again
    unchanged. *)
Theorem accepted_request_is_normal
    (int_of_str : string -> pyres Z) (lower : string -> string)
    (args : query) (p' : CacheService.params) :
  screenshot_get int_of_str lower args = Ok (inr p') ->
  (String.prefix "http://" (CacheService.url p') = true \/
   String.prefix "https://" (CacheService.url p') = true) /\
  (100 <= CacheService.width p' <= 3840) /\
  (100 <= CacheService.height p' <= 2160) /\
  (1 <= CacheService.quality p' <= 100) /\
  CacheService.image_format p' ∈ ["png"; "jpeg"; "pdf"] /\
  (exists p, parse_get int_of_str lower args = Ok p /\
             p' = with_format p (CacheService.image_format p')) /\
  validate p' = inr p'.
Proof.
  unfold screenshot_get.
  destruct (parse_get int_of_str lower args) as [p | e] eqn:Hparse; cbn [bind];
    [| discriminate].
  intros [= Hv].
  destruct (validate_accepts_normal p p' Hv) as (Hurl & Hw & Hh & Hq & Hfmt & Hp' & Hagain).
  do 5 (split; [done |]). split; [| done].
  exists p. by split.
Qed.

(** A GET request for a JPG of [https://example.com] is accepted as a
    request for a JPEG, and accepted again as it is. *)
Lemma accepted_request_is_normal_witness :
  screenshot_get toy_int_of_str toy_lower query_jpg
    = Ok (inr (with_format CacheService.request_plain "jpeg")) /\
  validate (with_format CacheService.request_plain "jpeg")
    = inr (with_format CacheService.request_plain "jpeg").
Proof.
  assert (H : screenshot_get toy_int_of_str toy_lower query_jpg
              = Ok (inr (with_format CacheService.request_plain "jpeg")))
    by (vm_compute; reflexivity).
  split; [exact H |].
  exact (proj2 (proj2 (proj2 (proj2 (proj2 (proj2
    (accepted_request_is_normal _ _ _ _ H))))))).
Defined.

(** X29.  ['jpg'] and ['jpeg'] are one format to the cache: two requests
    that differ only in which of the two names they use are answered alike
    by the validation and, when accepted, get the same cache key. *)
Theorem jpg_and_jpeg_share_cache_key (sha256_hexdigest : string -> string)
    (p : CacheService.params) :
  request_cache_key sha256_hexdigest (with_format p "jpg")
  = request_cache_key sha256_hexdigest (with_format p "jpeg").
Proof.
  unfold request_cache_key, validate.
  cbn [with_format CacheService.url CacheService.width CacheService.height
       CacheService.quality CacheService.image_format].
  destruct (truthy_str (CacheService.url p)); cbn [negb]; [| done].
  destruct (String.prefix "http://" (CacheService.url p)
            || String.prefix "https://" (CacheService.url p)); cbn [negb]; [| done].
  rewrite (bool_decide_true ("jpg" ∈ _)) by (rewrite !elem_of_cons; right; right; by left).
  rewrite (bool_decide_true ("jpeg" ∈ _)) by (rewrite !elem_of_cons; right; by left).
  cbn [negb].
  rewrite (bool_decide_true ("jpg" = "jpg")) by done.
  rewrite (bool_decide_false ("jpeg" = "jpg")) by done.
  destruct (_ || _ || _ || _); [done |].
  destruct (_ || _); [done |].
  by rewrite !with_format_twice.
Qed.

End AppExtra.
